(** * ESP32 BLE controller: deferred queue, registries, mode and pairing bridge

    A shallow embedding of [components/esp32_ble_controller/esp32_ble_controller.cpp]
    and the properties its specification states about it.

    Conventions of the embedding:
    - a controller object is a record; objects live in a store indexed by
      their address, because [global_ble_controller] and the closures built
      by the stack callbacks refer to controllers by pointer;
    - every effect that leaves the controller (log lines, observer calls,
      values sent to a handler, preference writes, reboot requests, timers)
      is an [event] appended to the [trace] of the world;
    - a dereference of a null pointer has no defined result: functions that
      may do so return [option];
    - the functions of the application, closures handed to
      [execute_in_loop] and observers, are taken in two ways: in section
      [Controller] a closure enqueues the closures it holds and an observer
      makes no call; in module [Open] both are any code, given by the calls
      it makes to the controllers. The two agree on the former
      ([loop_of_enqueuing]). *)

From Stdlib Require Import ZArith Ascii String List Lia.
From stdpp Require Import base tactics option list gmap strings.

Local Open Scope Z_scope.

(** ** Pass key formatting: [snprintf(buf, n, "%06d", v)] *)

Module Printf.

(** A [uint32_t] handed to the conversion [%d] is read back as an [int]
    (32 bits, two's complement on the ESP32). *)
Definition int_of_uint32 (v : Z) : Z :=
  if v <? 2 ^ 31 then v else v - 2 ^ 32.

Definition digit (d : Z) : ascii := ascii_of_nat (48 + Z.to_nat d).

(** Decimal digits of a non-negative number, most significant first. *)
Fixpoint digits (fuel : nat) (v : Z) (acc : string) : string :=
  match fuel with
  | O => acc
  | S fuel' =>
      let acc' := String (digit (v mod 10)) acc in
      if v / 10 =? 0 then acc' else digits fuel' (v / 10) acc'
  end.

(** A number has at most [log2 v + 1] decimal digits. *)
Definition decimal (v : Z) : string :=
  digits (S (Z.to_nat (Z.log2 v))) v EmptyString.

Fixpoint zeros (n : nat) : string :=
  match n with
  | O => EmptyString
  | S n' => String "0"%char (zeros n')
  end.

(** Flag [0] with a field width: zeros are inserted after the sign, and
    the sign counts in the width. *)
Definition pad (width : nat) (s : string) : string :=
  (zeros (width - String.length s) ++ s)%string.

Definition format_0d (width : nat) (v : Z) : string :=
  if v <? 0 then String "-"%char (pad (width - 1) (decimal (- v)))
  else pad width (decimal v).

(** The number a string of decimal digits stands for. *)
Fixpoint number_from (acc : Z) (s : string) : Z :=
  match s with
  | EmptyString => acc
  | String c s' => number_from (10 * acc + (Z.of_nat (nat_of_ascii c) - 48)) s'
  end.

Definition number (s : string) : Z := number_from 0 s.

(** [snprintf] with a buffer of [size] bytes keeps the first [size - 1]
    characters and terminates them. *)
Definition snprintf_0d (size : nat) (width : nat) (arg : Z) : string :=
  String.substring 0 (size - 1) (format_0d width (int_of_uint32 arg)).

End Printf.

Definition PASS_KEY_LENGTH : nat := 6.

(** The value of [pass_key_str] in [onPassKeyNotify]. *)
Definition pass_key_str (pass_key : Z) : string :=
  Printf.snprintf_0d (PASS_KEY_LENGTH + 1) PASS_KEY_LENGTH pass_key.

(** ** Data model *)

(** Address of a controller object ([this], [global_ble_controller]). *)
Definition instance := nat.

(** Identity of a function registered in a [CallbackManager]. *)
Definition observer := nat.

Bind Scope nat_scope with instance observer.

(** [Nameable]: all the controller uses of a component is its object id. *)
Record Nameable := { get_object_id : string }.

Record BLECharacteristicInfoForHandler := {
  service_UUID : string;
  characteristic_UUID : string;
  use_BLE2902 : bool
}.

(** Modelled from the spec: the class [BLEComponentHandlerBase] is declared
    in a header that is not among the sources. An endpoint handler is bound
    to exactly one component and one endpoint descriptor, and accepts a
    state value to push to the endpoint. *)
Record BLEComponentHandlerBase := {
  handler_component : Nameable;
  handler_info : BLECharacteristicInfoForHandler
}.

(** The state types [S] that [update_component_state] is instantiated at;
    a float is carried as its bit pattern. *)
Inductive state_value :=
  | BoolState (b : bool)
  | FloatState (bits : Z)
  | TextState (s : string).

(** The closures handed to [execute_in_loop]. The first five are the ones
    this file builds; they capture the callback list of their controller by
    reference, hence the [owner] address. [Work] stands for a closure of the
    application: it is told apart by [id] and by the closures it holds. In
    section [Controller] such a closure, when run, hands the closures it
    holds in turn to [execute_in_loop] of the controller whose [loop] runs
    it; in module [Open] its code is any code of the application. *)
#[warnings="-register-all"]
Inductive deferred_function :=
  | ShowPassKey (owner : instance) (pass_key : string)
  | AuthenticationComplete (owner : instance) (success : bool)
  | LogDebug (message : string)
  | Connected (owner : instance)
  | Disconnected (owner : instance)
  | Work (id : nat) (then_enqueue : list deferred_function).

Inductive log_level := LOGE | LOGW | LOGI | LOGD | LOGCONFIG.

(** Calls into the BLE stack and the ESPHome core. *)
Inductive external_call :=
  | esp_bt_controller_mem_release
  | BLEDevice_init (name : string)
  | BLEDevice_createServer (server : nat)
  | BLEServer_setCallbacks (server : nat) (receiver : instance)
  | BLEMaintenanceHandler_setup (owner : instance) (server : nat)
  | BLEComponentHandler_setup (h : BLEComponentHandlerBase) (server : option nat)
  | Controller_setup_controller (receiver : instance)
  | BLEDevice_setEncryptionLevel
  | BLEDevice_setSecurityCallbacks (receiver : instance)
  | BLESecurity_setAuthenticationMode
  | BLESecurity_setCapability
  | BLESecurity_setInitEncryptionKey
  | BLESecurity_setRespEncryptionKey
  | BLESecurity_setKeySize (key_size : Z)
  | esp_ble_gap_set_security_param
  | BLEDevice_startAdvertising
  | mark_failed (receiver : instance).

Inductive event :=
  | Log (level : log_level) (format : string) (args : list Z)
  | External (call : external_call)
  | SendValue (h : BLEComponentHandlerBase) (v : state_value)
  | PreferenceSave (v : Z)
  | SafeReboot
  | SetTimeout (owner : instance) (delay_millis : Z)
  | CallShowPassKey (pass_key : string) (o : observer)
  | CallAuthenticationComplete (success : bool) (o : observer)
  | CallConnected (o : observer)
  | CallDisconnected (o : observer)
  (* bookkeeping of the queue: a closure was taken over by the queue of
     [q], a closure taken from the queue of [q] is being run *)
  | Accepted (q : instance) (f : deferred_function)
  | Invoked (q : instance) (f : deferred_function).

(** Modelled from the spec: the class [ThreadSafeBoundedQueue] is declared
    in a header that is not among the sources. It is a bounded FIFO of work
    items with a capacity fixed at construction; [push] attempts to append
    and returns false, dropping the item, when the queue is at capacity;
    [take] removes the oldest item, and fails on an empty queue. *)
Record ThreadSafeBoundedQueue := {
  capacity : nat;
  items : list deferred_function
}.

Module Queue.

(** Modelled from the spec: the constructor of [ThreadSafeBoundedQueue];
    the queue is made empty, with a fixed capacity. *)
Definition create (size : nat) : ThreadSafeBoundedQueue :=
  {| capacity := size; items := [] |}.

(** The queue is at capacity. *)
Definition full (q : ThreadSafeBoundedQueue) : bool :=
  (capacity q <=? length (items q))%nat.

(** Modelled from the spec: [ThreadSafeBoundedQueue::push], the enqueue of
    the spec. It attempts to append; at capacity it returns false and the
    item is dropped. It never waits. *)
Definition push (q : ThreadSafeBoundedQueue) (f : deferred_function)
  : bool * ThreadSafeBoundedQueue :=
  if full q then (false, q)
  else (true, {| capacity := capacity q; items := items q ++ [f] |}).

(** Modelled from the spec: [ThreadSafeBoundedQueue::take]. It removes
    the oldest item and returns true, or returns false when the queue is
    empty. *)
Definition take (q : ThreadSafeBoundedQueue)
  : option (deferred_function * ThreadSafeBoundedQueue) :=
  match items q with
  | [] => None
  | f :: rest => Some (f, {| capacity := capacity q; items := rest |})
  end.

End Queue.

Record ESP32BLEController := {
  info_for_component : gmap string BLECharacteristicInfoForHandler;
  (* the values are pointers: [None] is [nullptr] *)
  handler_for_component : gmap string (option BLEComponentHandlerBase);
  on_show_pass_key_callbacks : list observer;
  on_authentication_complete_callbacks : list observer;
  on_connected_callbacks : list observer;
  on_disconnected_callbacks : list observer;
  security_enabled : bool;
  ble_mode : Z;
  deferred_functions_for_loop : ThreadSafeBoundedQueue;
  ble_server : option nat
}.

(** What the controller's code can reach besides its own object. *)
Record world := {
  global_ble_controller : option instance;
  controllers : instance -> ESP32BLEController;
  (* the preference slot of the mode: [None] when nothing is stored *)
  ble_mode_preference : option Z;
  (* the Bluetooth controller: [btStarted()], and what [btStart()],
     [esp_bluedroid_init()] and [esp_bluedroid_enable()] will answer *)
  bt_started : bool;
  btStart_result : bool;
  esp_bt_controller_get_status : Z;
  esp_bluedroid_init_result : Z;
  esp_bluedroid_enable_result : Z;
  servers_created : nat;
  trace : list event
}.

Definition ESP_OK : Z := 0.

(** *** Field updates *)

Definition with_info m (c : ESP32BLEController) : ESP32BLEController :=
  {| info_for_component := m;
     handler_for_component := handler_for_component c;
     on_show_pass_key_callbacks := on_show_pass_key_callbacks c;
     on_authentication_complete_callbacks := on_authentication_complete_callbacks c;
     on_connected_callbacks := on_connected_callbacks c;
     on_disconnected_callbacks := on_disconnected_callbacks c;
     security_enabled := security_enabled c;
     ble_mode := ble_mode c;
     deferred_functions_for_loop := deferred_functions_for_loop c;
     ble_server := ble_server c |}.

Definition with_handlers m (c : ESP32BLEController) : ESP32BLEController :=
  {| info_for_component := info_for_component c;
     handler_for_component := m;
     on_show_pass_key_callbacks := on_show_pass_key_callbacks c;
     on_authentication_complete_callbacks := on_authentication_complete_callbacks c;
     on_connected_callbacks := on_connected_callbacks c;
     on_disconnected_callbacks := on_disconnected_callbacks c;
     security_enabled := security_enabled c;
     ble_mode := ble_mode c;
     deferred_functions_for_loop := deferred_functions_for_loop c;
     ble_server := ble_server c |}.

Definition with_show_pass_key l (c : ESP32BLEController) : ESP32BLEController :=
  {| info_for_component := info_for_component c;
     handler_for_component := handler_for_component c;
     on_show_pass_key_callbacks := l;
     on_authentication_complete_callbacks := on_authentication_complete_callbacks c;
     on_connected_callbacks := on_connected_callbacks c;
     on_disconnected_callbacks := on_disconnected_callbacks c;
     security_enabled := security_enabled c;
     ble_mode := ble_mode c;
     deferred_functions_for_loop := deferred_functions_for_loop c;
     ble_server := ble_server c |}.

Definition with_authentication_complete l (c : ESP32BLEController) : ESP32BLEController :=
  {| info_for_component := info_for_component c;
     handler_for_component := handler_for_component c;
     on_show_pass_key_callbacks := on_show_pass_key_callbacks c;
     on_authentication_complete_callbacks := l;
     on_connected_callbacks := on_connected_callbacks c;
     on_disconnected_callbacks := on_disconnected_callbacks c;
     security_enabled := security_enabled c;
     ble_mode := ble_mode c;
     deferred_functions_for_loop := deferred_functions_for_loop c;
     ble_server := ble_server c |}.

Definition with_connected l (c : ESP32BLEController) : ESP32BLEController :=
  {| info_for_component := info_for_component c;
     handler_for_component := handler_for_component c;
     on_show_pass_key_callbacks := on_show_pass_key_callbacks c;
     on_authentication_complete_callbacks := on_authentication_complete_callbacks c;
     on_connected_callbacks := l;
     on_disconnected_callbacks := on_disconnected_callbacks c;
     security_enabled := security_enabled c;
     ble_mode := ble_mode c;
     deferred_functions_for_loop := deferred_functions_for_loop c;
     ble_server := ble_server c |}.

Definition with_disconnected l (c : ESP32BLEController) : ESP32BLEController :=
  {| info_for_component := info_for_component c;
     handler_for_component := handler_for_component c;
     on_show_pass_key_callbacks := on_show_pass_key_callbacks c;
     on_authentication_complete_callbacks := on_authentication_complete_callbacks c;
     on_connected_callbacks := on_connected_callbacks c;
     on_disconnected_callbacks := l;
     security_enabled := security_enabled c;
     ble_mode := ble_mode c;
     deferred_functions_for_loop := deferred_functions_for_loop c;
     ble_server := ble_server c |}.

Definition with_security b (c : ESP32BLEController) : ESP32BLEController :=
  {| info_for_component := info_for_component c;
     handler_for_component := handler_for_component c;
     on_show_pass_key_callbacks := on_show_pass_key_callbacks c;
     on_authentication_complete_callbacks := on_authentication_complete_callbacks c;
     on_connected_callbacks := on_connected_callbacks c;
     on_disconnected_callbacks := on_disconnected_callbacks c;
     security_enabled := b;
     ble_mode := ble_mode c;
     deferred_functions_for_loop := deferred_functions_for_loop c;
     ble_server := ble_server c |}.

Definition with_mode m (c : ESP32BLEController) : ESP32BLEController :=
  {| info_for_component := info_for_component c;
     handler_for_component := handler_for_component c;
     on_show_pass_key_callbacks := on_show_pass_key_callbacks c;
     on_authentication_complete_callbacks := on_authentication_complete_callbacks c;
     on_connected_callbacks := on_connected_callbacks c;
     on_disconnected_callbacks := on_disconnected_callbacks c;
     security_enabled := security_enabled c;
     ble_mode := m;
     deferred_functions_for_loop := deferred_functions_for_loop c;
     ble_server := ble_server c |}.

Definition with_queue q (c : ESP32BLEController) : ESP32BLEController :=
  {| info_for_component := info_for_component c;
     handler_for_component := handler_for_component c;
     on_show_pass_key_callbacks := on_show_pass_key_callbacks c;
     on_authentication_complete_callbacks := on_authentication_complete_callbacks c;
     on_connected_callbacks := on_connected_callbacks c;
     on_disconnected_callbacks := on_disconnected_callbacks c;
     security_enabled := security_enabled c;
     ble_mode := ble_mode c;
     deferred_functions_for_loop := q;
     ble_server := ble_server c |}.

Definition with_server s (c : ESP32BLEController) : ESP32BLEController :=
  {| info_for_component := info_for_component c;
     handler_for_component := handler_for_component c;
     on_show_pass_key_callbacks := on_show_pass_key_callbacks c;
     on_authentication_complete_callbacks := on_authentication_complete_callbacks c;
     on_connected_callbacks := on_connected_callbacks c;
     on_disconnected_callbacks := on_disconnected_callbacks c;
     security_enabled := security_enabled c;
     ble_mode := ble_mode c;
     deferred_functions_for_loop := deferred_functions_for_loop c;
     ble_server := s |}.

(** Replace the object at address [this]. *)
Definition store (this : instance) (c : ESP32BLEController) (w : world) : world :=
  {| global_ble_controller := global_ble_controller w;
     controllers := fun i => if decide (i = this) then c else controllers w i;
     ble_mode_preference := ble_mode_preference w;
     bt_started := bt_started w;
     btStart_result := btStart_result w;
     esp_bt_controller_get_status := esp_bt_controller_get_status w;
     esp_bluedroid_init_result := esp_bluedroid_init_result w;
     esp_bluedroid_enable_result := esp_bluedroid_enable_result w;
     servers_created := servers_created w;
     trace := trace w |}.

Definition emit (e : event) (w : world) : world :=
  {| global_ble_controller := global_ble_controller w;
     controllers := controllers w;
     ble_mode_preference := ble_mode_preference w;
     bt_started := bt_started w;
     btStart_result := btStart_result w;
     esp_bt_controller_get_status := esp_bt_controller_get_status w;
     esp_bluedroid_init_result := esp_bluedroid_init_result w;
     esp_bluedroid_enable_result := esp_bluedroid_enable_result w;
     servers_created := servers_created w;
     trace := trace w ++ [e] |}.

Definition with_global (g : option instance) (w : world) : world :=
  {| global_ble_controller := g;
     controllers := controllers w;
     ble_mode_preference := ble_mode_preference w;
     bt_started := bt_started w;
     btStart_result := btStart_result w;
     esp_bt_controller_get_status := esp_bt_controller_get_status w;
     esp_bluedroid_init_result := esp_bluedroid_init_result w;
     esp_bluedroid_enable_result := esp_bluedroid_enable_result w;
     servers_created := servers_created w;
     trace := trace w |}.

Definition with_preference (p : option Z) (w : world) : world :=
  {| global_ble_controller := global_ble_controller w;
     controllers := controllers w;
     ble_mode_preference := p;
     bt_started := bt_started w;
     btStart_result := btStart_result w;
     esp_bt_controller_get_status := esp_bt_controller_get_status w;
     esp_bluedroid_init_result := esp_bluedroid_init_result w;
     esp_bluedroid_enable_result := esp_bluedroid_enable_result w;
     servers_created := servers_created w;
     trace := trace w |}.

Definition with_bt_started (b : bool) (w : world) : world :=
  {| global_ble_controller := global_ble_controller w;
     controllers := controllers w;
     ble_mode_preference := ble_mode_preference w;
     bt_started := b;
     btStart_result := btStart_result w;
     esp_bt_controller_get_status := esp_bt_controller_get_status w;
     esp_bluedroid_init_result := esp_bluedroid_init_result w;
     esp_bluedroid_enable_result := esp_bluedroid_enable_result w;
     servers_created := servers_created w;
     trace := trace w |}.

Definition with_servers_created (n : nat) (w : world) : world :=
  {| global_ble_controller := global_ble_controller w;
     controllers := controllers w;
     ble_mode_preference := ble_mode_preference w;
     bt_started := bt_started w;
     btStart_result := btStart_result w;
     esp_bt_controller_get_status := esp_bt_controller_get_status w;
     esp_bluedroid_init_result := esp_bluedroid_init_result w;
     esp_bluedroid_enable_result := esp_bluedroid_enable_result w;
     servers_created := n;
     trace := trace w |}.

(** Run a method that only touches the fields of [this]. *)
Definition on_this (this : instance)
    (method : ESP32BLEController -> ESP32BLEController) (w : world) : world :=
  store this (method (controllers w this)) w.

(** The components known to the application, by kind ([App.get_...()]).
    The kinds [setup_ble_services_for_components] has a handler factory for
    are kept; a build without [USE_COVER], [USE_FAN], [USE_LIGHT] and
    [USE_CLIMATE] is modelled, and a kind whose [USE_...] is not defined is
    an empty list. *)
Record Application := {
  get_name : string;
  get_binary_sensors : list Nameable;
  get_sensors : list Nameable;
  get_switches : list Nameable;
  get_text_sensors : list Nameable
}.

(** A handler factory: a function from a component and its descriptor to a
    handler pointer, which may be null. *)
Definition handler_creator :=
  Nameable -> BLECharacteristicInfoForHandler -> option BLEComponentHandlerBase.

(** The functions of [BLEComponentHandlerFactory], defined elsewhere in the
    repository. *)
Record BLEComponentHandlerFactory := {
  create_binary_sensor_handler : handler_creator;
  create_sensor_handler : handler_creator;
  create_switch_handler : handler_creator;
  create_text_sensor_handler : handler_creator
}.

(** ** The controller *)

Section Controller.

(** The enumerators of [BLEMaintenanceMode] that the file names; the
    enumeration is declared in a header that is not among the sources. *)
Variables BLE_ONLY WIFI_ONLY : Z.

Variable App : Application.
Variable Factory : BLEComponentHandlerFactory.

(** *** Pre-setup configuration *)

Definition register_component (component : Nameable)
    (serviceUUID characteristic_UUID : string) (use_BLE2902 : bool)
    (c : ESP32BLEController) : ESP32BLEController :=
  let info := {| service_UUID := serviceUUID;
                 characteristic_UUID := characteristic_UUID;
                 use_BLE2902 := use_BLE2902 |} in
  with_info (<[get_object_id component := info]> (info_for_component c)) c.

(** [CallbackManager::add] appends. *)
Definition add_on_show_pass_key_callback (trigger_function : observer)
    (c : ESP32BLEController) : ESP32BLEController :=
  with_show_pass_key (on_show_pass_key_callbacks c ++ [trigger_function]) c.

Definition add_on_authentication_complete_callback (trigger_function : observer)
    (c : ESP32BLEController) : ESP32BLEController :=
  with_authentication_complete
    (on_authentication_complete_callbacks c ++ [trigger_function]) c.

Definition add_on_connected_callback (trigger_function : observer)
    (c : ESP32BLEController) : ESP32BLEController :=
  with_connected (on_connected_callbacks c ++ [trigger_function]) c.

Definition add_on_disconnected_callback (trigger_function : observer)
    (c : ESP32BLEController) : ESP32BLEController :=
  with_disconnected (on_disconnected_callbacks c ++ [trigger_function]) c.

Definition set_security_enabled (enabled : bool)
    (c : ESP32BLEController) : ESP32BLEController :=
  with_security enabled c.

(** *** Setup *)

Definition setup_ble (this : instance) (w : world) : bool * world :=
  if bt_started w then (true, emit (Log LOGI "BLE already started" []) w)
  else
    let w := emit (Log LOGI "  Setting up BLE ..." []) w in
    let w := emit (External esp_bt_controller_mem_release) w in
    if negb (btStart_result w) then
      let w := emit (Log LOGE "btStart failed: %d" [esp_bt_controller_get_status w]) w in
      (false, emit (External (mark_failed this)) w)
    else
      let w := with_bt_started true w in
      let err := esp_bluedroid_init_result w in
      if negb (err =? ESP_OK) then
        let w := emit (Log LOGE "esp_bluedroid_init failed: %d" [err]) w in
        (false, emit (External (mark_failed this)) w)
      else
        let err := esp_bluedroid_enable_result w in
        if negb (err =? ESP_OK) then
          let w := emit (Log LOGE "esp_bluedroid_enable failed: %d" [err]) w in
          (false, emit (External (mark_failed this)) w)
        else (true, w).

(** [info_for_component.count(object_id)] guards the two uses of
    [operator[]]: the first is a plain read, the second writes the
    pointer the factory returned. *)
Definition setup_ble_service_for_component (component : Nameable)
    (creator : handler_creator) (c : ESP32BLEController) : ESP32BLEController :=
  let object_id := get_object_id component in
  match info_for_component c !! object_id with
  | Some info =>
      with_handlers
        (<[object_id := creator component info]> (handler_for_component c)) c
  | None => c
  end.

Definition setup_ble_services_for_components_of (components : list Nameable)
    (creator : handler_creator) (c : ESP32BLEController) : ESP32BLEController :=
  fold_left (fun c component => setup_ble_service_for_component component creator c)
            components c.

(** [entry.second->setup(ble_server)] for each entry of the registry; a
    null entry is dereferenced all the same. *)
Fixpoint setup_handlers (server : option nat)
    (entries : list (string * option BLEComponentHandlerBase)) (w : world)
  : option world :=
  match entries with
  | [] => Some w
  | (_, Some h) :: rest =>
      setup_handlers server rest (emit (External (BLEComponentHandler_setup h server)) w)
  | (_, None) :: _ => None
  end.

Definition setup_ble_services_for_components (this : instance) (w : world)
  : option world :=
  let c := controllers w this in
  let c := setup_ble_services_for_components_of
             (get_binary_sensors App) (create_binary_sensor_handler Factory) c in
  let c := setup_ble_services_for_components_of
             (get_sensors App) (create_sensor_handler Factory) c in
  let c := setup_ble_services_for_components_of
             (get_switches App) (create_switch_handler Factory) c in
  let c := setup_ble_services_for_components_of
             (get_text_sensors App) (create_text_sensor_handler Factory) c in
  let w := store this c w in
  setup_handlers (ble_server c) (map_to_list (handler_for_component c)) w.

Definition setup_ble_server_and_services (this : instance) (w : world)
  : option world :=
  let server := servers_created w in
  let w := with_servers_created (S server) w in
  let w := emit (External (BLEDevice_createServer server)) w in
  let w := on_this this (with_server (Some server)) w in
  let w := emit (External (BLEServer_setCallbacks server this)) w in
  let w := emit (External (BLEMaintenanceHandler_setup this server)) w in
  if negb (ble_mode (controllers w this) =? WIFI_ONLY)
  then setup_ble_services_for_components this w
  else Some w.

Definition initialize_ble_mode (this : instance) (w : world) : world :=
  let mode :=
    match ble_mode_preference w with
    | Some stored => stored
    | None => BLE_ONLY
    end in
  let w := on_this this (with_mode mode) w in
  emit (Log LOGCONFIG "BLE mode: %d" [mode]) w.

Definition set_ble_mode (this : instance) (newMode : Z) (w : world) : world :=
  if newMode >? WIFI_ONLY then
    emit (Log LOGI "Ignoring unsupported BLE mode %d" [newMode]) w
  else
    let w := emit (Log LOGI "Updating BLE mode to %d" [newMode]) w in
    let newBleMode := newMode in
    if negb (ble_mode (controllers w this) =? newBleMode) then
      let w := on_this this (with_mode newBleMode) w in
      let w := emit (PreferenceSave (ble_mode (controllers w this)))
                    (with_preference (Some (ble_mode (controllers w this))) w) in
      emit SafeReboot w
    else w.

Definition enable_ble_security (this : instance) (w : world) : world :=
  if negb (security_enabled (controllers w this)) then w
  else
    let w := emit (Log LOGD "  Setting up BLE security" []) w in
    let w := emit (External BLEDevice_setEncryptionLevel) w in
    let w := emit (External (BLEDevice_setSecurityCallbacks this)) w in
    let w := emit (External BLESecurity_setAuthenticationMode) w in
    let w := emit (External BLESecurity_setCapability) w in
    let w := emit (External BLESecurity_setInitEncryptionKey) w in
    let w := emit (External BLESecurity_setRespEncryptionKey) w in
    let w := emit (External (BLESecurity_setKeySize 16)) w in
    emit (External esp_ble_gap_set_security_param) w.

Definition setup (this : instance) (w : world) : option world :=
  let w := emit (Log LOGCONFIG "Setting up BLE controller..." []) w in
  let w := initialize_ble_mode this w in
  let '(started, w) := setup_ble this w in
  if negb started then Some w
  else
    let w :=
      match global_ble_controller w with
      | None => with_global (Some this) w
      | Some _ =>
          emit (Log LOGE "Already have an instance of the BLE controller" []) w
      end in
    let w := emit (External (BLEDevice_init (get_name App))) w in
    match setup_ble_server_and_services this w with
    | None => None
    | Some w =>
        let w := emit (External (Controller_setup_controller this)) w in
        let w := enable_ble_security this w in
        Some (emit (External BLEDevice_startAdvertising) w)
    end.

(** *** Run *)

(** [handler_for_component[object_id]]: [operator[]] of the map, which
    adds the key with a null pointer when it is absent. *)
Definition update_component_state (this : instance) (component : Nameable)
    (state : state_value) (w : world) : world :=
  let object_id := get_object_id component in
  let c := controllers w this in
  let '(handler, c) :=
    match handler_for_component c !! object_id with
    | Some pointer => (pointer, c)
    | None => (None, with_handlers (<[object_id := None]> (handler_for_component c)) c)
    end in
  let w := store this c w in
  match handler with
  | Some h => emit (SendValue h state) w
  | None => w
  end.

Definition on_binary_sensor_update this obj (state : bool) :=
  update_component_state this obj (BoolState state).
Definition on_sensor_update this component (state : Z) :=
  update_component_state this component (FloatState state).
Definition on_switch_update this obj (state : bool) :=
  update_component_state this obj (BoolState state).
Definition on_text_sensor_update this obj (state : string) :=
  update_component_state this obj (TextState state).

Definition execute_in_loop (this : instance) (deferred : deferred_function)
    (w : world) : world :=
  let c := controllers w this in
  let '(ok, q) := Queue.push (deferred_functions_for_loop c) deferred in
  let w := store this (with_queue q c) w in
  if ok then emit (Accepted this deferred) w
  else emit (Log LOGW "Deferred functions queue full" []) w.

(** [CallbackManager::call]: the registered functions, in the order of
    their registration. *)
Definition call (callbacks : list observer) (invocation : observer -> event)
    (w : world) : world :=
  fold_left (fun w o => emit (invocation o) w) callbacks w.

(** [deferred_function()] on the thread of [loop] of controller [this]. *)
Definition invoke (this : instance) (f : deferred_function) (w : world) : world :=
  match f with
  | ShowPassKey owner pass_key =>
      let w := emit (Log LOGI "BLE authentication - pass received" []) w in
      call (on_show_pass_key_callbacks (controllers w owner))
           (CallShowPassKey pass_key) w
  | AuthenticationComplete owner success =>
      let w :=
        if success
        then emit (Log LOGD "BLE authentication - completed succesfully" []) w
        else emit (Log LOGD "BLE authentication - failed" []) w in
      call (on_authentication_complete_callbacks (controllers w owner))
           (CallAuthenticationComplete success) w
  | LogDebug message => emit (Log LOGD message []) w
  | Connected owner =>
      let w := emit (Log LOGD "BLE server - connected" []) w in
      call (on_connected_callbacks (controllers w owner)) CallConnected w
  | Disconnected owner =>
      let w := emit (Log LOGD "BLE server - disconnected" []) w in
      let delay_millis := 500 in
      let w := emit (SetTimeout owner delay_millis) w in
      call (on_disconnected_callbacks (controllers w owner)) CallDisconnected w
  | Work _ then_enqueue =>
      fold_left (fun w g => execute_in_loop this g w) then_enqueue w
  end.

(** One turn of the [while] of [loop]: [None] when [take] fails. *)
Definition loop_iteration (this : instance) (w : world) : option world :=
  let c := controllers w this in
  match Queue.take (deferred_functions_for_loop c) with
  | None => None
  | Some (f, q) =>
      let w := store this (with_queue q c) w in
      Some (invoke this f (emit (Invoked this f) w))
  end.

Fixpoint loop_turns (turns : nat) (this : instance) (w : world) : world :=
  match turns with
  | O => w
  | S turns' =>
      match loop_iteration this w with
      | None => w
      | Some w' => loop_turns turns' this w'
      end
  end.

(** The number of closures a closure stands for: itself and all it will
    enqueue, directly or not. *)
Fixpoint weight (f : deferred_function) : nat :=
  match f with
  | Work _ then_enqueue => S (list_sum (map weight then_enqueue))
  | _ => 1
  end.

Definition pending (this : instance) (w : world) : list deferred_function :=
  items (deferred_functions_for_loop (controllers w this)).

(** [loop]: the [while] leaves when [take] fails; with closures that
    enqueue what they hold, no more turns than the weight of the queue are
    needed for that ([loop_drains]). [Open.loop] is [loop] for any
    closures. *)
Definition loop (this : instance) (w : world) : world :=
  loop_turns (list_sum (map weight (pending this w))) this w.

(** *** Callbacks of the BLE stack *)

Definition onPassKeyNotify (this : instance) (pass_key : Z) (w : world)
  : option world :=
  let pass_key_str := pass_key_str pass_key in
  match global_ble_controller w with
  | Some g => Some (execute_in_loop g (ShowPassKey this pass_key_str) w)
  | None => None
  end.

Definition onAuthenticationComplete (this : instance) (success : bool)
    (w : world) : option world :=
  match global_ble_controller w with
  | Some g => Some (execute_in_loop g (AuthenticationComplete this success) w)
  | None => None
  end.

Definition onPassKeyRequest (this : instance) (w : world) : option (Z * world) :=
  match global_ble_controller w with
  | Some g => Some (123456, execute_in_loop g (LogDebug "onPassKeyRequest") w)
  | None => None
  end.

Definition onSecurityRequest (this : instance) (w : world) : option (bool * world) :=
  match global_ble_controller w with
  | Some g => Some (true, execute_in_loop g (LogDebug "onSecurityRequest") w)
  | None => None
  end.

Definition onConfirmPIN (this : instance) (pin : Z) (w : world)
  : option (bool * world) :=
  match global_ble_controller w with
  | Some g => Some (true, execute_in_loop g (LogDebug "onConfirmPIN") w)
  | None => None
  end.

Definition onConnect (this : instance) (w : world) : option world :=
  match global_ble_controller w with
  | Some g => Some (execute_in_loop g (Connected this) w)
  | None => None
  end.

Definition onDisconnect (this : instance) (w : world) : option world :=
  match global_ble_controller w with
  | Some g => Some (execute_in_loop g (Disconnected this) w)
  | None => None
  end.

End Controller.

(** ** Observations on traces and worlds *)

(** The closures the queue of [q] took over, oldest first. *)
Definition accepted (q : instance) (tr : list event) : list deferred_function :=
  omap (fun e => match e with
                 | Accepted q' f => if decide (q' = q) then Some f else None
                 | _ => None
                 end) tr.

(** The closures [loop] of [q] ran, in the order it ran them. *)
Definition invoked (q : instance) (tr : list event) : list deferred_function :=
  omap (fun e => match e with
                 | Invoked q' f => if decide (q' = q) then Some f else None
                 | _ => None
                 end) tr.

Definition is_observer_call (e : event) : bool :=
  match e with
  | CallShowPassKey _ _ | CallAuthenticationComplete _ _
  | CallConnected _ | CallDisconnected _ => true
  | _ => false
  end.

(** The calls of registered observers, in the order they were made. *)
Definition observer_calls (tr : list event) : list event :=
  List.filter is_observer_call tr.

Definition is_bookkeeping (e : event) : bool :=
  match e with
  | Accepted _ _ | Invoked _ _ => true
  | _ => false
  end.

Definition queue_of (q : instance) (w : world) : ThreadSafeBoundedQueue :=
  deferred_functions_for_loop (controllers w q).

(** Everything but the trace is as before. *)
Definition same_state (w w' : world) : Prop :=
  global_ble_controller w' = global_ble_controller w /\
  (forall i, controllers w' i = controllers w i) /\
  ble_mode_preference w' = ble_mode_preference w /\
  bt_started w' = bt_started w /\
  btStart_result w' = btStart_result w /\
  esp_bt_controller_get_status w' = esp_bt_controller_get_status w /\
  esp_bluedroid_init_result w' = esp_bluedroid_init_result w /\
  esp_bluedroid_enable_result w' = esp_bluedroid_enable_result w /\
  servers_created w' = servers_created w.

(** [w'] comes from [w] by effects that neither touch an object nor the
    bookkeeping of a queue. *)
Definition quiet (w w' : world) : Prop :=
  same_state w w' /\
  exists evs, trace w' = trace w ++ evs /\
              Forall (fun e => is_bookkeeping e = false) evs.

(** The trace only grows, and no queue changes its capacity. *)
Definition evolves (w w' : world) : Prop :=
  (exists evs, trace w' = trace w ++ evs) /\
  (forall q, capacity (queue_of q w') = capacity (queue_of q w)).

(** The values written to the preference slot, and the restart requests. *)
Definition preference_writes (tr : list event) : list Z :=
  omap (fun e => match e with PreferenceSave v => Some v | _ => None end) tr.

Definition restart_requests (tr : list event) : nat :=
  length (List.filter (fun e => match e with SafeReboot => true | _ => false end) tr).

(** The weight of the closures waiting in the queue of [this]. *)
Definition waiting_weight (this : instance) (w : world) : nat :=
  list_sum (map weight (pending this w)).

(** The observer calls a closure makes when it is run in [w]: the
    callback list of its owner as it is at that moment, in order. *)
Definition deliveries (f : deferred_function) (w : world) : list event :=
  match f with
  | ShowPassKey owner pass_key =>
      map (CallShowPassKey pass_key) (on_show_pass_key_callbacks (controllers w owner))
  | AuthenticationComplete owner success =>
      map (CallAuthenticationComplete success)
          (on_authentication_complete_callbacks (controllers w owner))
  | Connected owner => map CallConnected (on_connected_callbacks (controllers w owner))
  | Disconnected owner =>
      map CallDisconnected (on_disconnected_callbacks (controllers w owner))
  | LogDebug _ | Work _ _ => []
  end.

(** The objects of [w'] are those of [w] up to the contents of their
    queues. *)
Definition same_but_queues (w w' : world) : Prop :=
  forall q, with_queue (queue_of q w) (controllers w' q) = controllers w q.

(** From [w] to [w'] no object other than [this] was written, and the
    global pointer was not. *)
Definition touches_only (this : instance) (w w' : world) : Prop :=
  global_ble_controller w' = global_ble_controller w /\
  forall q, q <> this -> controllers w' q = controllers w q.

(** [w'] comes from [w] by effects that write no object other than
    [this] and leave the global pointer alone; the trace only grows. *)
Definition confined (this : instance) (w w' : world) : Prop :=
  touches_only this w w' /\ exists evs, trace w' = trace w ++ evs.

(** No handler pointer in the registry of [c] is null. *)
Definition no_null_handler (c : ESP32BLEController) : Prop :=
  forall id, handler_for_component c !! id <> Some None.

Definition never_null (creator : handler_creator) : Prop :=
  forall component info, creator component info <> None.

(** The Bluetooth controller is running, or will start when asked to. *)
Definition bluetooth_starts (w : world) : Prop :=
  bt_started w = true \/
  (btStart_result w = true /\ esp_bluedroid_init_result w = ESP_OK /\
   esp_bluedroid_enable_result w = ESP_OK).

(** *** Interleavings of producers and the loop thread *)

(** What can happen to the queues, one step at a time: some thread hands a
    closure to [execute_in_loop] of a controller; the loop thread makes one
    turn of the [while] of [loop]; the loop thread runs [loop] to its end.
    A producer that enqueues while [loop] is draining is a [Produce]
    between two [Turn]s. *)
Inductive queue_step :=
  | Produce (q : instance) (f : deferred_function)
  | Turn (q : instance)
  | Drain (q : instance).

Definition run_step (s : queue_step) (w : world) : world :=
  match s with
  | Produce q f => execute_in_loop q f w
  | Turn q => default w (loop_iteration q w)
  | Drain q => loop q w
  end.

Definition run (steps : list queue_step) (w : world) : world :=
  fold_left (fun w s => run_step s w) steps w.

(** No queue holds more than its capacity. *)
Definition bounded (w : world) : Prop :=
  forall q, (length (pending q w) <= capacity (queue_of q w))%nat.

(** Every closure a queue took over either has been run or is waiting, the
    ones that ran first, each group in the order of acceptance. *)
Definition consistent (w : world) : Prop :=
  forall q, accepted q (trace w) = invoked q (trace w) ++ pending q w.

(** *** A concrete world *)

(** A controller before its setup. The initial values of the fields come
    from the header, which is not among the sources; the ones here are a
    choice. *)
Definition new_controller (queue_size : nat) : ESP32BLEController :=
  {| info_for_component := ∅;
     handler_for_component := ∅;
     on_show_pass_key_callbacks := [];
     on_authentication_complete_callbacks := [];
     on_connected_callbacks := [];
     on_disconnected_callbacks := [];
     security_enabled := true;
     ble_mode := 2;
     deferred_functions_for_loop := Queue.create queue_size;
     ble_server := None |}.

(** Before any [setup]: no controller registered, nothing stored, the
    Bluetooth controller stopped and willing to start. *)
Definition power_on (queue_size : nat) : world :=
  {| global_ble_controller := None;
     controllers := fun _ => new_controller queue_size;
     ble_mode_preference := None;
     bt_started := false;
     btStart_result := true;
     esp_bt_controller_get_status := 0;
     esp_bluedroid_init_result := ESP_OK;
     esp_bluedroid_enable_result := ESP_OK;
     servers_created := 0;
     trace := [] |}.

Definition outdoor : Nameable := {| get_object_id := "outdoor" |}.

Definition one_sensor : Application :=
  {| get_name := "node"; get_binary_sensors := []; get_sensors := [outdoor];
     get_switches := []; get_text_sensors := [] |}.

Definition bind_handler : handler_creator :=
  fun component info =>
    Some {| handler_component := component; handler_info := info |}.

Definition plain_factory : BLEComponentHandlerFactory :=
  {| create_binary_sensor_handler := bind_handler;
     create_sensor_handler := bind_handler;
     create_switch_handler := bind_handler;
     create_text_sensor_handler := bind_handler |}.

(** The controller at address 0 is registered and its Bluetooth
    controller runs; it has two observers on each callback list. The
    controller at address 1 has a descriptor for the sensor [outdoor]. *)
Definition serving : world :=
  on_this 1 (register_component outdoor "181A" "2A6E" true)
    (on_this 0
       (fun c =>
          add_on_show_pass_key_callback 12
            (add_on_show_pass_key_callback 11
               (add_on_authentication_complete_callback 22
                  (add_on_authentication_complete_callback 21
                     (add_on_connected_callback 32
                        (add_on_connected_callback 31
                           (add_on_disconnected_callback 42
                              (add_on_disconnected_callback 41 c))))))))
       (with_bt_started true (with_global (Some 0%nat) (power_on 4)))).

(** Two producers and the loop thread on a queue of two places: a closure
    that enqueues two more when run, a connection, a closure that finds the
    queue full, one turn of the loop, and a late closure. *)
Definition busy : list queue_step :=
  [Produce 0 (Work 1 [LogDebug "a"; Work 2 [LogDebug "b"]]);
   Produce 0 (Connected 0);
   Produce 0 (LogDebug "late");
   Turn 0;
   Produce 0 (LogDebug "mid")].

(** ** Further observations *)

(** The handlers [setup_ble_services_for_components] makes for the
    controller [c]: the components of each kind in turn, each kind with its
    factory. *)
Definition materialize (App : Application) (Factory : BLEComponentHandlerFactory)
    (c : ESP32BLEController) : ESP32BLEController :=
  setup_ble_services_for_components_of
    (get_text_sensors App) (create_text_sensor_handler Factory)
    (setup_ble_services_for_components_of
       (get_switches App) (create_switch_handler Factory)
       (setup_ble_services_for_components_of
          (get_sensors App) (create_sensor_handler Factory)
          (setup_ble_services_for_components_of
             (get_binary_sensors App) (create_binary_sensor_handler Factory) c))).

(** The mode [initialize_ble_mode] finds. *)
Definition stored_mode (BLE_ONLY : Z) (w : world) : Z :=
  match ble_mode_preference w with
  | Some stored => stored
  | None => BLE_ONLY
  end.

(** The mode in memory of [this] is the one a restart would load. *)
Definition mode_in_sync (BLE_ONLY : Z) (this : instance) (w : world) : Prop :=
  ble_mode (controllers w this) = stored_mode BLE_ONLY w.

(** Every identifier with an entry in the handler registry has a
    descriptor. *)
Definition handlers_have_descriptors (c : ESP32BLEController) : Prop :=
  forall id, is_Some (handler_for_component c !! id) ->
             is_Some (info_for_component c !! id).

(** What the configuration calls set, and the queue: all fields but the
    mode, the server and the handler registry. *)
Definition same_configuration (c c' : ESP32BLEController) : Prop :=
  info_for_component c' = info_for_component c /\
  on_show_pass_key_callbacks c' = on_show_pass_key_callbacks c /\
  on_authentication_complete_callbacks c' = on_authentication_complete_callbacks c /\
  on_connected_callbacks c' = on_connected_callbacks c /\
  on_disconnected_callbacks c' = on_disconnected_callbacks c /\
  security_enabled c' = security_enabled c /\
  deferred_functions_for_loop c' = deferred_functions_for_loop c.

(** From [w] to [w'] the trace grew by events that all satisfy [P]. *)
Definition emits (P : event -> bool) (w w' : world) : Prop :=
  exists evs, trace w' = trace w ++ evs /\ Forall (fun e => P e = true) evs.

(** The events by which security is set up. *)
Definition is_security_call (e : event) : bool :=
  match e with
  | External BLEDevice_setEncryptionLevel
  | External (BLEDevice_setSecurityCallbacks _)
  | External BLESecurity_setAuthenticationMode
  | External BLESecurity_setCapability
  | External BLESecurity_setInitEncryptionKey
  | External BLESecurity_setRespEncryptionKey
  | External (BLESecurity_setKeySize _)
  | External esp_ble_gap_set_security_param => true
  | _ => false
  end.

(** What running a closure of this file adds to the trace in [w]. *)
Definition effects (f : deferred_function) (w : world) : list event :=
  match f with
  | ShowPassKey _ _ =>
      Log LOGI "BLE authentication - pass received" [] :: deliveries f w
  | AuthenticationComplete _ true =>
      Log LOGD "BLE authentication - completed succesfully" [] :: deliveries f w
  | AuthenticationComplete _ false =>
      Log LOGD "BLE authentication - failed" [] :: deliveries f w
  | LogDebug message => [Log LOGD message []]
  | Connected _ => Log LOGD "BLE server - connected" [] :: deliveries f w
  | Disconnected owner =>
      Log LOGD "BLE server - disconnected" [] :: SetTimeout owner 500 :: deliveries f w
  | Work _ _ => []
  end.

(** From [w] to [w'] nothing was written but queues, and of the queues
    only the one of [this]. *)
Definition only_queue_of (this : instance) (w w' : world) : Prop :=
  global_ble_controller w' = global_ble_controller w /\
  ble_mode_preference w' = ble_mode_preference w /\
  bt_started w' = bt_started w /\
  servers_created w' = servers_created w /\
  same_but_queues w w' /\
  forall q, q <> this -> controllers w' q = controllers w q.

(** The events that report a failure: an error in the log, and the
    component marked as failed. *)
Definition is_failure (e : event) : bool :=
  match e with
  | Log LOGE _ _ | External (mark_failed _) => true
  | _ => false
  end.

(** [P] holds of every event that neither reports a failure nor sets up
    security. *)
Definition harmless (P : event -> bool) : Prop :=
  forall e, is_failure e = false -> is_security_call e = false -> P e = true.

(** The controller at address 0 has registered the sensor [outdoor] and
    made its handler. *)
Definition exposing : world :=
  store 0
    (setup_ble_services_for_components_of [outdoor] bind_handler
       (register_component outdoor "181A" "2A6E" true (new_controller 4)))
    (power_on 4).

(** [WIFI_ONLY], taken as 2, is the stored mode. *)
Definition wifi_stored : world := with_preference (Some 2) (power_on 4).

(** Security is disabled on the controller at address 0. *)
Definition unsecured : world := on_this 0 (set_security_enabled false) (power_on 4).

(** A world in which the Bluetooth controller will not start. *)
Definition no_radio : world :=
  {| global_ble_controller := None;
     controllers := fun _ => new_controller 4;
     ble_mode_preference := Some 1;
     bt_started := false;
     btStart_result := false;
     esp_bt_controller_get_status := 0;
     esp_bluedroid_init_result := ESP_OK;
     esp_bluedroid_enable_result := ESP_OK;
     servers_created := 0;
     trace := [] |}.

(** ** Functions of the application *)

(** A closure handed to [execute_in_loop] and a registered observer are
    functions of the application: any [std::function]. What such a function
    can do to a controller it does through the methods of the class; these
    are the calls below, each on the controller [target] the function holds
    a pointer to: the methods for configuration and for the run that the
    model of the controller has. [setup] and [loop] are called by the main
    loop of the application, and the callbacks of the stack by the stack: a
    function that calls them is not considered, nor is one that does not
    return. *)
Inductive api_call :=
  | Do_execute_in_loop (target : instance) (deferred : deferred_function)
  | Do_set_ble_mode (target : instance) (newMode : Z)
  | Do_update_component_state (target : instance) (component : Nameable)
      (state : state_value)
  | Do_register_component (target : instance) (component : Nameable)
      (serviceUUID characteristicUUID : string) (useBLE2902 : bool)
  | Do_add_on_show_pass_key_callback (target : instance) (trigger_function : observer)
  | Do_add_on_authentication_complete_callback (target : instance)
      (trigger_function : observer)
  | Do_add_on_connected_callback (target : instance) (trigger_function : observer)
  | Do_add_on_disconnected_callback (target : instance) (trigger_function : observer)
  | Do_set_security_enabled (target : instance) (enabled : bool).

(** [loop] with the functions of the application left open. *)
Module Open.

(** What can happen, one step at a time: some thread makes a call to a
    controller, [execute_in_loop] among them; the loop thread of [q] makes
    one turn of the [while] of [loop]. A producer that enqueues while
    [loop] is draining is a [Call] between two [Turn]s. *)
Inductive step :=
  | Call (c : api_call)
  | Turn (q : instance).

Section Functions.

Variable WIFI_ONLY : Z.

(** The code of the application. [closure_body id captured this w] is what
    the closure [Work id captured] does when [loop] of [this] runs it in the
    world [w]: the calls it makes, in order. [observer_body e w] is the same
    for the observer and the arguments of the call [e]. Both may depend on
    all of [w], and so stand for any code that decides by what it reads and
    by what its earlier calls returned. *)
Variable closure_body :
  nat -> list deferred_function -> instance -> world -> list api_call.
Variable observer_body : event -> world -> list api_call.

Definition perform_call (c : api_call) (w : world) : world :=
  match c with
  | Do_execute_in_loop target deferred => execute_in_loop target deferred w
  | Do_set_ble_mode target newMode => set_ble_mode WIFI_ONLY target newMode w
  | Do_update_component_state target component state =>
      update_component_state target component state w
  | Do_register_component target component serviceUUID characteristicUUID useBLE2902 =>
      on_this target
        (register_component component serviceUUID characteristicUUID useBLE2902) w
  | Do_add_on_show_pass_key_callback target trigger_function =>
      on_this target (add_on_show_pass_key_callback trigger_function) w
  | Do_add_on_authentication_complete_callback target trigger_function =>
      on_this target (add_on_authentication_complete_callback trigger_function) w
  | Do_add_on_connected_callback target trigger_function =>
      on_this target (add_on_connected_callback trigger_function) w
  | Do_add_on_disconnected_callback target trigger_function =>
      on_this target (add_on_disconnected_callback trigger_function) w
  | Do_set_security_enabled target enabled =>
      on_this target (set_security_enabled enabled) w
  end.

Definition perform (calls : list api_call) (w : world) : world :=
  fold_left (fun w c => perform_call c w) calls w.

(** [CallbackManager::call]: the registered functions, in the order of
    their registration, each one run to its end before the next. The
    range-for fixes its bounds before the first call: a function registered
    by an observer in the meantime is not called in this round (and should
    the vector have to grow for it, C++ leaves open what happens next; the
    model goes on with the list as it was). *)
Definition call (callbacks : list observer) (invocation : observer -> event)
    (w : world) : world :=
  fold_left
    (fun w o =>
       let w := emit (invocation o) w in
       perform (observer_body (invocation o) w) w)
    callbacks w.

(** [deferred_function()] on the thread of [loop] of controller [this]. *)
Definition invoke (this : instance) (f : deferred_function) (w : world) : world :=
  match f with
  | ShowPassKey owner pass_key =>
      let w := emit (Log LOGI "BLE authentication - pass received" []) w in
      call (on_show_pass_key_callbacks (controllers w owner))
           (CallShowPassKey pass_key) w
  | AuthenticationComplete owner success =>
      let w :=
        if success
        then emit (Log LOGD "BLE authentication - completed succesfully" []) w
        else emit (Log LOGD "BLE authentication - failed" []) w in
      call (on_authentication_complete_callbacks (controllers w owner))
           (CallAuthenticationComplete success) w
  | LogDebug message => emit (Log LOGD message []) w
  | Connected owner =>
      let w := emit (Log LOGD "BLE server - connected" []) w in
      call (on_connected_callbacks (controllers w owner)) CallConnected w
  | Disconnected owner =>
      let w := emit (Log LOGD "BLE server - disconnected" []) w in
      let delay_millis := 500 in
      let w := emit (SetTimeout owner delay_millis) w in
      call (on_disconnected_callbacks (controllers w owner)) CallDisconnected w
  | Work id captured => perform (closure_body id captured this w) w
  end.

(** One turn of the [while] of [loop]: [None] when [take] fails. *)
Definition loop_iteration (this : instance) (w : world) : option world :=
  let c := controllers w this in
  match Queue.take (deferred_functions_for_loop c) with
  | None => None
  | Some (f, q) =>
      let w := store this (with_queue q c) w in
      Some (invoke this f (emit (Invoked this f) w))
  end.

(** [loop]: turns of the [while] until [take] fails. Nothing bounds their
    number, as a closure may enqueue closures; [fuel] is the number of calls
    of [take] looked at, and [None] says that [loop] has not returned within
    them. *)
Fixpoint loop (fuel : nat) (this : instance) (w : world) : option world :=
  match fuel with
  | O => None
  | S fuel' =>
      match loop_iteration this w with
      | None => Some w
      | Some w' => loop fuel' this w'
      end
  end.

Definition run_step (s : step) (w : world) : world :=
  match s with
  | Call c => perform_call c w
  | Turn q => default w (loop_iteration q w)
  end.

Definition run (steps : list step) (w : world) : world :=
  fold_left (fun w s => run_step s w) steps w.

(** The closures settle on the queue of [q]: by the measure [size], running
    a closure puts less on this queue than the closure took off it. *)
Definition settles (size : deferred_function -> nat) (q : instance) : Prop :=
  forall f w,
    (S (list_sum (map size (pending q (invoke q f w))))
     <= list_sum (map size (pending q w)) + size f)%nat.

End Functions.

End Open.

(** From [w] to [w'] no queue changed, and the trace grew by events that
    are not bookkeeping of a queue. *)
Definition beside_queues (w w' : world) : Prop :=
  (forall q, queue_of q w' = queue_of q w) /\
  exists evs, trace w' = trace w ++ evs /\
              Forall (fun e => is_bookkeeping e = false) evs.

(** The closures [loop] ran, of whatever queue, in the order it ran them. *)
Definition ran (tr : list event) : list deferred_function :=
  omap (fun e => match e with Invoked _ f => Some f | _ => None end) tr.

(** From [w] to [w'] the observers called are the ones of the closures
    that were run, closure by closure in the order they were run and, for
    each closure, in the order of the callback list of its owner; nothing
    but queues was written. *)
Definition delivers (w w' : world) : Prop :=
  same_but_queues w w' /\
  exists during,
    trace w' = trace w ++ during /\
    observer_calls during = flat_map (fun f => deliveries f w) (ran during).

(** The queue of [q] in [w] with its oldest closure [f] taken out, at the
    moment [loop] is about to run [f]. *)
Definition taken (q : instance) (f : deferred_function)
    (rest : list deferred_function) (w : world) : world :=
  emit (Invoked q f)
    (store q (with_queue {| capacity := capacity (queue_of q w); items := rest |}
                         (controllers w q)) w).

(** *** Applications *)

(** Closures that only enqueue what they captured, and observers that make
    no call: the application [invoke] and [loop] above are written for. *)
Definition enqueuing : nat -> list deferred_function -> instance -> world -> list api_call :=
  fun _ captured this _ => map (Do_execute_in_loop this) captured.

Definition silent : event -> world -> list api_call := fun _ _ => [].

(** Closures that report a state of the sensor [outdoor], the number of
    closures waiting behind them, and then enqueue what they captured. *)
Definition reporting : nat -> list deferred_function -> instance -> world -> list api_call :=
  fun _ captured this w =>
    Do_update_component_state this outdoor
      (FloatState (Z.of_nat (length (pending this w))))
    :: map (Do_execute_in_loop this) captured.

(** A closure that enqueues itself again. *)
Definition restless : nat -> list deferred_function -> instance -> world -> list api_call :=
  fun id captured this _ => [Do_execute_in_loop this (Work id captured)].

(** An observer of connections that switches the mode to 1 and has a
    closure enqueued. *)
Definition reacting : event -> world -> list api_call :=
  fun e _ =>
    match e with
    | CallConnected o => [Do_set_ble_mode 0 1; Do_execute_in_loop 0 (Work o [])]
    | _ => []
    end.

(** [serving] with the closure of a disconnection waiting in the queue. *)
Definition disconnecting : world := execute_in_loop 0 (Disconnected 0) serving.

(** Producers and the loop thread on the controller of [exposing], which
    has a handler for [outdoor]. *)
Definition reports : list Open.step :=
  [Open.Call (Do_execute_in_loop 0 (Work 1 [Work 2 []; LogDebug "a"]));
   Open.Call (Do_execute_in_loop 0 (Work 3 []));
   Open.Turn 0;
   Open.Call (Do_execute_in_loop 0 (LogDebug "mid"))].

(** * Properties *)

(** ** Traces *)

Lemma accepted_app q tr1 tr2 :
  accepted q (tr1 ++ tr2) = accepted q tr1 ++ accepted q tr2.
Proof. apply omap_app. Qed.

Lemma invoked_app q tr1 tr2 :
  invoked q (tr1 ++ tr2) = invoked q tr1 ++ invoked q tr2.
Proof. apply omap_app. Qed.

Lemma observer_calls_app tr1 tr2 :
  observer_calls (tr1 ++ tr2) = observer_calls tr1 ++ observer_calls tr2.
Proof. apply List.filter_app. Qed.

Lemma observer_calls_all tr :
  Forall (fun e => is_observer_call e = true) tr -> observer_calls tr = tr.
Proof.
  induction 1 as [|e tr He _ IH]; [reflexivity|].
  unfold observer_calls in *. simpl. rewrite He. by rewrite IH.
Qed.

Lemma same_state_refl w : same_state w w.
Proof. by repeat split. Qed.

Lemma same_state_trans w1 w2 w3 :
  same_state w1 w2 -> same_state w2 w3 -> same_state w1 w3.
Proof.
  intros (G1 & C1 & P1 & B1 & R1 & T1 & I1 & E1 & S1)
         (G2 & C2 & P2 & B2 & R2 & T2 & I2 & E2 & S2).
  repeat split; try congruence; intros i; by rewrite C2.
Qed.

Lemma same_state_emit e w : same_state w (emit e w).
Proof. by repeat split. Qed.

(** ** [CallbackManager::call] *)

Lemma call_trace callbacks invocation w :
  trace (call callbacks invocation w) = trace w ++ map invocation callbacks.
Proof.
  unfold call. revert w.
  induction callbacks as [|o callbacks IH]; intros w; simpl.
  - by rewrite app_nil_r.
  - rewrite IH. simpl. by rewrite <- app_assoc.
Qed.

Lemma call_same_state callbacks invocation w :
  same_state w (call callbacks invocation w).
Proof.
  unfold call. revert w.
  induction callbacks as [|o callbacks IH]; intros w; simpl.
  - apply same_state_refl.
  - eapply same_state_trans; [apply (same_state_emit (invocation o))|apply IH].
Qed.

(** ** [execute_in_loop] *)

Lemma execute_in_loop_full this f w :
  Queue.full (queue_of this w) = true ->
  trace (execute_in_loop this f w)
    = trace w ++ [Log LOGW "Deferred functions queue full" []] /\
  same_state w (execute_in_loop this f w).
Proof.
  intros Hfull. unfold execute_in_loop, Queue.push.
  unfold queue_of in Hfull. rewrite Hfull. simpl. split; [reflexivity|].
  repeat split. intros i. simpl. case_decide; [subst|reflexivity].
  by destruct (controllers w this).
Qed.

Lemma execute_in_loop_room this f w :
  Queue.full (queue_of this w) = false ->
  trace (execute_in_loop this f w) = trace w ++ [Accepted this f] /\
  pending this (execute_in_loop this f w) = pending this w ++ [f] /\
  capacity (queue_of this (execute_in_loop this f w)) = capacity (queue_of this w).
Proof.
  intros Hroom. unfold execute_in_loop, Queue.push, pending, queue_of in *.
  rewrite Hroom. simpl. by rewrite decide_True.
Qed.

Lemma execute_in_loop_other this f w q :
  q <> this ->
  controllers (execute_in_loop this f w) q = controllers w q.
Proof.
  intros Hq. unfold execute_in_loop.
  destruct (Queue.push _ _) as [[] q']; simpl; by rewrite decide_False.
Qed.

Lemma execute_in_loop_global this f w :
  global_ble_controller (execute_in_loop this f w) = global_ble_controller w.
Proof.
  unfold execute_in_loop. by destruct (Queue.push _ _) as [[] q'].
Qed.

(** The fields of the controller other than the queue are out of reach of
    [execute_in_loop]. *)
Lemma execute_in_loop_fields this f w q :
  with_queue (queue_of q w) (controllers (execute_in_loop this f w) q)
  = controllers w q.
Proof.
  unfold execute_in_loop, queue_of.
  destruct (Queue.push _ _) as [[] q']; simpl;
    (case_decide; [subst|]); by destruct (controllers w _).
Qed.

Lemma execute_in_loop_observer_calls this f w :
  observer_calls (trace (execute_in_loop this f w)) = observer_calls (trace w).
Proof.
  unfold execute_in_loop.
  destruct (Queue.push _ _) as [[] q']; simpl;
    rewrite observer_calls_app; simpl; by rewrite app_nil_r.
Qed.

(** ** Steps that leave the queues alone *)

Lemma no_bookkeeping_accepted q evs :
  Forall (fun e => is_bookkeeping e = false) evs -> accepted q evs = [].
Proof.
  induction 1 as [|e evs He _ IH]; [reflexivity|].
  destruct e; try discriminate He; exact IH.
Qed.

Lemma no_bookkeeping_invoked q evs :
  Forall (fun e => is_bookkeeping e = false) evs -> invoked q evs = [].
Proof.
  induction 1 as [|e evs He _ IH]; [reflexivity|].
  destruct e; try discriminate He; exact IH.
Qed.

Lemma quiet_emit e w : is_bookkeeping e = false -> quiet w (emit e w).
Proof.
  intros He. split; [apply same_state_emit|].
  exists [e]. split; [reflexivity|]. by constructor.
Qed.

Lemma quiet_trans w1 w2 w3 : quiet w1 w2 -> quiet w2 w3 -> quiet w1 w3.
Proof.
  intros [S1 (e1 & T1 & F1)] [S2 (e2 & T2 & F2)].
  split; [by eapply same_state_trans|].
  exists (e1 ++ e2). split.
  - by rewrite T2, T1, <- app_assoc.
  - by apply Forall_app.
Qed.

Lemma quiet_call callbacks invocation w :
  (forall o, is_bookkeeping (invocation o) = false) ->
  quiet w (call callbacks invocation w).
Proof.
  intros Hinv. split; [apply call_same_state|].
  exists (map invocation callbacks). split; [apply call_trace|].
  induction callbacks as [|o callbacks IH]; simpl; by constructor.
Qed.

Lemma quiet_pending w w' q : quiet w w' -> pending q w' = pending q w.
Proof. intros [(_ & C & _) _]. unfold pending. by rewrite C. Qed.

Lemma quiet_queue_of w w' q : quiet w w' -> queue_of q w' = queue_of q w.
Proof. intros [(_ & C & _) _]. unfold queue_of. by rewrite C. Qed.

Lemma quiet_accepted w w' q :
  quiet w w' -> accepted q (trace w') = accepted q (trace w).
Proof.
  intros [_ (evs & -> & F)].
  by rewrite accepted_app, (no_bookkeeping_accepted q evs F), app_nil_r.
Qed.

Lemma quiet_invoked w w' q :
  quiet w w' -> invoked q (trace w') = invoked q (trace w).
Proof.
  intros [_ (evs & -> & F)].
  by rewrite invoked_app, (no_bookkeeping_invoked q evs F), app_nil_r.
Qed.

Lemma quiet_bounded w w' : quiet w w' -> bounded w -> bounded w'.
Proof.
  intros Q B q. rewrite (quiet_pending _ _ q Q), (quiet_queue_of _ _ q Q). apply B.
Qed.

Lemma quiet_consistent w w' : quiet w w' -> consistent w -> consistent w'.
Proof.
  intros Q C q.
  rewrite (quiet_pending _ _ q Q), (quiet_accepted _ _ q Q), (quiet_invoked _ _ q Q).
  apply C.
Qed.

(** The closures this file builds only log, set a timer and call
    observers when they run. *)
Lemma invoke_quiet this f w :
  (forall id fs, f <> Work id fs) -> quiet w (invoke this f w).
Proof.
  intros Hf. destruct f as [owner s|owner b|m|owner|owner|id fs]; simpl.
  - eapply quiet_trans; [|by apply quiet_call]. by apply quiet_emit.
  - destruct b; (eapply quiet_trans; [|by apply quiet_call]); by apply quiet_emit.
  - by apply quiet_emit.
  - eapply quiet_trans; [|by apply quiet_call]. by apply quiet_emit.
  - eapply quiet_trans; [|by apply quiet_call].
    eapply quiet_trans; [|by apply quiet_emit]. by apply quiet_emit.
  - by destruct (Hf id fs).
Qed.

(** ** The queue under [execute_in_loop] *)

(** What one call does to the queue of [q]: [new] is the closure when it
    was accepted and [q] is the receiver, and nothing otherwise. *)
Lemma execute_in_loop_effect this f w q :
  exists new,
    (new = [] \/ new = [f] /\ q = this /\ Queue.full (queue_of this w) = false) /\
    pending q (execute_in_loop this f w) = pending q w ++ new /\
    accepted q (trace (execute_in_loop this f w)) = accepted q (trace w) ++ new /\
    invoked q (trace (execute_in_loop this f w)) = invoked q (trace w) /\
    capacity (queue_of q (execute_in_loop this f w)) = capacity (queue_of q w).
Proof.
  unfold execute_in_loop, Queue.push, pending, queue_of.
  destruct (Queue.full _) eqn:Hfull; simpl.
  - exists []. rewrite accepted_app, invoked_app. simpl. rewrite !app_nil_r.
    split; [by left|]. case_decide; [subst|]; done.
  - rewrite accepted_app, invoked_app. simpl. rewrite app_nil_r.
    destruct (decide (q = this)) as [->|Hq].
    + exists [f]. rewrite !decide_True by done. simpl. split; [by right|]. done.
    + exists []. rewrite !decide_False by congruence.
      rewrite !app_nil_r. split; [by left|]. done.
Qed.

Lemma execute_in_loop_bounded this f w :
  bounded w -> bounded (execute_in_loop this f w).
Proof.
  intros B q.
  destruct (execute_in_loop_effect this f w q) as (new & Hnew & -> & _ & _ & ->).
  specialize (B q).
  destruct Hnew as [->|(-> & -> & Hroom)]; rewrite length_app; simpl; [lia|].
  unfold Queue.full, pending, queue_of in *.
  apply Nat.leb_gt in Hroom. lia.
Qed.

Lemma execute_in_loop_consistent this f w :
  consistent w -> consistent (execute_in_loop this f w).
Proof.
  intros C q.
  destruct (execute_in_loop_effect this f w q) as (new & _ & -> & -> & -> & _).
  by rewrite C, app_assoc.
Qed.

Lemma execute_in_loop_list_bounded this fs w :
  bounded w -> bounded (fold_left (fun w g => execute_in_loop this g w) fs w).
Proof.
  revert w. induction fs as [|g fs IH]; intros w B; simpl; [done|].
  by apply IH, execute_in_loop_bounded.
Qed.

Lemma execute_in_loop_list_consistent this fs w :
  consistent w -> consistent (fold_left (fun w g => execute_in_loop this g w) fs w).
Proof.
  revert w. induction fs as [|g fs IH]; intros w C; simpl; [done|].
  by apply IH, execute_in_loop_consistent.
Qed.

Lemma invoke_bounded this f w : bounded w -> bounded (invoke this f w).
Proof.
  intros B. destruct f as [owner s|owner b|m|owner|owner|id fs];
    try (eapply quiet_bounded; [apply invoke_quiet; congruence|done]).
  by apply execute_in_loop_list_bounded.
Qed.

Lemma invoke_consistent this f w : consistent w -> consistent (invoke this f w).
Proof.
  intros C. destruct f as [owner s|owner b|m|owner|owner|id fs];
    try (eapply quiet_consistent; [apply invoke_quiet; congruence|done]).
  by apply execute_in_loop_list_consistent.
Qed.

(** ** One turn of the loop *)

Lemma loop_iteration_None this w :
  loop_iteration this w = None <-> pending this w = [].
Proof.
  unfold loop_iteration, Queue.take, pending.
  destruct (items _); split; intros; done.
Qed.

(** A turn takes the oldest closure [f] out of the queue, and runs it. *)
Lemma loop_iteration_Some this w w' :
  loop_iteration this w = Some w' ->
  exists f rest w0,
    pending this w = f :: rest /\
    pending this w0 = rest /\
    (forall q, q <> this -> controllers w0 q = controllers w q) /\
    capacity (queue_of this w0) = capacity (queue_of this w) /\
    trace w0 = trace w ++ [Invoked this f] /\
    w' = invoke this f w0 /\
    same_but_queues w w0.
Proof.
  unfold loop_iteration, Queue.take, pending, queue_of.
  destruct (items _) as [|f rest] eqn:Hitems; [done|]. intros [= <-].
  eexists f, rest, _. split; [done|]. split; [|split; [|split; [|split; [|split]]]];
    [| | | |reflexivity|]; simpl; try done.
  - by rewrite decide_True.
  - intros q Hq. by rewrite decide_False.
  - by rewrite decide_True.
  - intros q. unfold queue_of. simpl. clear Hitems.
    case_decide; [subst|]; by destruct (controllers w _).
Qed.

Lemma loop_iteration_bounded this w w' :
  loop_iteration this w = Some w' -> bounded w -> bounded w'.
Proof.
  intros (f & rest & w0 & Hw & Hw0 & Hother & Hcap & _ & -> & _)%loop_iteration_Some B.
  apply invoke_bounded. intros q. destruct (decide (q = this)) as [->|Hq].
  - specialize (B this). rewrite Hw in B. rewrite Hw0, Hcap. simpl in B. lia.
  - unfold pending, queue_of. rewrite (Hother q Hq). apply B.
Qed.

Lemma loop_iteration_consistent this w w' :
  loop_iteration this w = Some w' -> consistent w -> consistent w'.
Proof.
  intros (f & rest & w0 & Hw & Hw0 & Hother & _ & Htr & -> & _)%loop_iteration_Some C.
  apply invoke_consistent. intros q. rewrite Htr, accepted_app, invoked_app. simpl.
  rewrite app_nil_r. destruct (decide (q = this)) as [->|Hq].
  - rewrite decide_True by done. rewrite Hw0, (C this), Hw.
    by rewrite <- app_assoc.
  - rewrite decide_False by congruence. rewrite app_nil_r.
    unfold pending. rewrite (Hother q Hq). apply C.
Qed.

(** ** [loop] comes to its end *)

Lemma weight_pos f : (1 <= weight f)%nat.
Proof. destruct f; simpl; lia. Qed.

Lemma list_sum_snoc l n : list_sum (l ++ [n]) = (list_sum l + n)%nat.
Proof. induction l as [|m l IH]; simpl; lia. Qed.

Lemma waiting_weight_0 this w :
  waiting_weight this w = 0%nat -> pending this w = [].
Proof.
  unfold waiting_weight. destruct (pending this w) as [|f rest]; [done|].
  simpl. pose proof (weight_pos f). lia.
Qed.

Lemma execute_in_loop_weight this g w :
  (waiting_weight this (execute_in_loop this g w)
   <= waiting_weight this w + weight g)%nat.
Proof.
  unfold waiting_weight.
  destruct (execute_in_loop_effect this g w this) as (new & Hnew & -> & _).
  destruct Hnew as [->|(-> & _)].
  - rewrite app_nil_r. lia.
  - rewrite map_app. change (map weight [g]) with [weight g].
    rewrite list_sum_snoc. lia.
Qed.

Lemma execute_in_loop_list_weight this fs w :
  (waiting_weight this (fold_left (fun w g => execute_in_loop this g w) fs w)
   <= waiting_weight this w + list_sum (map weight fs))%nat.
Proof.
  revert w. induction fs as [|g fs IH]; intros w; simpl; [lia|].
  specialize (IH (execute_in_loop this g w)).
  pose proof (execute_in_loop_weight this g w). lia.
Qed.

Lemma invoke_weight this f w :
  (S (waiting_weight this (invoke this f w)) <= waiting_weight this w + weight f)%nat.
Proof.
  destruct f as [owner s|owner b|m|owner|owner|id fs];
    try (unfold waiting_weight;
         rewrite (quiet_pending w _ this) by (apply invoke_quiet; congruence);
         simpl; lia).
  pose proof (execute_in_loop_list_weight this fs w). simpl. lia.
Qed.

Lemma loop_iteration_weight this w w' :
  loop_iteration this w = Some w' ->
  (waiting_weight this w' < waiting_weight this w)%nat.
Proof.
  intros (f & rest & w0 & Hw & Hw0 & _ & _ & _ & -> & _)%loop_iteration_Some.
  pose proof (invoke_weight this f w0) as Hinv.
  unfold waiting_weight in *. rewrite Hw0 in Hinv. rewrite Hw. simpl. lia.
Qed.

Lemma loop_turns_drains turns this w :
  (waiting_weight this w <= turns)%nat ->
  pending this (loop_turns turns this w) = [].
Proof.
  revert w. induction turns as [|turns IH]; intros w Hw; simpl.
  - apply waiting_weight_0. lia.
  - destruct (loop_iteration this w) as [w'|] eqn:Hit.
    + apply IH. pose proof (loop_iteration_weight _ _ _ Hit). lia.
    + by apply loop_iteration_None.
Qed.

(** More turns than needed change nothing: the [while] has left. *)
Lemma loop_turns_enough turns turns' this w :
  (waiting_weight this w <= turns)%nat ->
  (waiting_weight this w <= turns')%nat ->
  loop_turns turns this w = loop_turns turns' this w.
Proof.
  revert turns' w. induction turns as [|turns IH]; intros turns' w H H'.
  - assert (pending this w = []) as Hempty by (apply waiting_weight_0; lia).
    apply loop_iteration_None in Hempty.
    destruct turns'; simpl; [done|]. by rewrite Hempty.
  - destruct turns' as [|turns'].
    + assert (pending this w = []) as Hempty by (apply waiting_weight_0; lia).
      apply loop_iteration_None in Hempty. simpl. by rewrite Hempty.
    + simpl. destruct (loop_iteration this w) as [w'|] eqn:Hit; [|done].
      pose proof (loop_iteration_weight _ _ _ Hit). apply IH; lia.
Qed.

(** [loop] is the [while] of the source: it stops when [take] fails, and
    otherwise runs the closure and goes on. *)
Lemma loop_unfold this w :
  loop this w =
  match loop_iteration this w with
  | None => w
  | Some w' => loop this w'
  end.
Proof.
  unfold loop. fold (waiting_weight this w).
  destruct (loop_iteration this w) as [w'|] eqn:Hit.
  - fold (waiting_weight this w').
    pose proof (loop_iteration_weight _ _ _ Hit) as Hlt.
    destruct (waiting_weight this w) as [|n]; [lia|].
    simpl. rewrite Hit. apply loop_turns_enough; lia.
  - destruct (waiting_weight this w); simpl; [done|]. by rewrite Hit.
Qed.

Lemma loop_drains this w : pending this (loop this w) = [].
Proof. by apply loop_turns_drains. Qed.

Lemma loop_turns_bounded turns this w :
  bounded w -> bounded (loop_turns turns this w).
Proof.
  revert w. induction turns as [|turns IH]; intros w B; simpl; [done|].
  destruct (loop_iteration this w) as [w'|] eqn:Hit; [|done].
  by eapply IH, loop_iteration_bounded.
Qed.

Lemma loop_turns_consistent turns this w :
  consistent w -> consistent (loop_turns turns this w).
Proof.
  revert w. induction turns as [|turns IH]; intros w C; simpl; [done|].
  destruct (loop_iteration this w) as [w'|] eqn:Hit; [|done].
  by eapply IH, loop_iteration_consistent.
Qed.

(** ** Any interleaving *)

Lemma run_step_bounded s w : bounded w -> bounded (run_step s w).
Proof.
  intros B. destruct s as [q f|q|q]; simpl.
  - by apply execute_in_loop_bounded.
  - destruct (loop_iteration q w) as [w'|] eqn:Hit; simpl; [|done].
    by eapply loop_iteration_bounded.
  - by apply loop_turns_bounded.
Qed.

Lemma run_step_consistent s w : consistent w -> consistent (run_step s w).
Proof.
  intros C. destruct s as [q f|q|q]; simpl.
  - by apply execute_in_loop_consistent.
  - destruct (loop_iteration q w) as [w'|] eqn:Hit; simpl; [|done].
    by eapply loop_iteration_consistent.
  - by apply loop_turns_consistent.
Qed.

Lemma run_bounded steps w : bounded w -> bounded (run steps w).
Proof.
  revert w. induction steps as [|s steps IH]; intros w B; simpl; [done|].
  by apply IH, run_step_bounded.
Qed.

Lemma run_consistent steps w : consistent w -> consistent (run steps w).
Proof.
  revert w. induction steps as [|s steps IH]; intros w C; simpl; [done|].
  by apply IH, run_step_consistent.
Qed.

(** ** What a step cannot undo *)

Lemma evolves_refl w : evolves w w.
Proof. split; [exists []; by rewrite app_nil_r|done]. Qed.

Lemma evolves_trans w1 w2 w3 : evolves w1 w2 -> evolves w2 w3 -> evolves w1 w3.
Proof.
  intros [(e1 & T1) C1] [(e2 & T2) C2]. split.
  - exists (e1 ++ e2). by rewrite T2, T1, <- app_assoc.
  - intros q. by rewrite C2.
Qed.

Lemma quiet_evolves w w' : quiet w w' -> evolves w w'.
Proof.
  intros Q. split.
  - destruct Q as [_ (evs & T & _)]. by exists evs.
  - intros q. by rewrite (quiet_queue_of _ _ q Q).
Qed.

Lemma execute_in_loop_evolves this f w : evolves w (execute_in_loop this f w).
Proof.
  split.
  - unfold execute_in_loop. destruct (Queue.push _ _) as [[] q']; by eexists.
  - intros q. by destruct (execute_in_loop_effect this f w q) as (_ & _ & _ & _ & _ & ->).
Qed.

Lemma invoke_evolves this f w : evolves w (invoke this f w).
Proof.
  destruct f as [owner s|owner b|m|owner|owner|id fs];
    try (apply quiet_evolves, invoke_quiet; congruence).
  simpl. revert w. induction fs as [|g fs IH]; intros w; simpl.
  - apply evolves_refl.
  - eapply evolves_trans; [apply execute_in_loop_evolves|apply IH].
Qed.

Lemma loop_iteration_evolves this w w' :
  loop_iteration this w = Some w' -> evolves w w'.
Proof.
  intros (f & rest & w0 & _ & _ & Hother & Hcap & Htr & -> & _)%loop_iteration_Some.
  eapply evolves_trans; [|apply invoke_evolves]. split; [by eexists|].
  intros q. destruct (decide (q = this)) as [->|Hq]; [done|].
  unfold queue_of. by rewrite (Hother q Hq).
Qed.

Lemma loop_turns_evolves turns this w : evolves w (loop_turns turns this w).
Proof.
  revert w. induction turns as [|turns IH]; intros w; simpl.
  - apply evolves_refl.
  - destruct (loop_iteration this w) as [w'|] eqn:Hit; [|apply evolves_refl].
    eapply evolves_trans; [by eapply loop_iteration_evolves|apply IH].
Qed.

Lemma run_step_evolves s w : evolves w (run_step s w).
Proof.
  destruct s as [q f|q|q]; simpl.
  - apply execute_in_loop_evolves.
  - destruct (loop_iteration q w) as [w'|] eqn:Hit; simpl.
    + by eapply loop_iteration_evolves.
    + apply evolves_refl.
  - apply loop_turns_evolves.
Qed.

Lemma run_evolves steps w : evolves w (run steps w).
Proof.
  revert w. induction steps as [|s steps IH]; intros w; simpl.
  - apply evolves_refl.
  - eapply evolves_trans; [apply run_step_evolves|apply IH].
Qed.

(** ** Calls that leave the queues alone *)

Lemma beside_queues_refl w : beside_queues w w.
Proof. split; [done|]. exists []. by rewrite app_nil_r. Qed.

Lemma beside_queues_trans w1 w2 w3 :
  beside_queues w1 w2 -> beside_queues w2 w3 -> beside_queues w1 w3.
Proof.
  intros [Q1 (e1 & T1 & F1)] [Q2 (e2 & T2 & F2)]. split.
  - intros q. by rewrite Q2.
  - exists (e1 ++ e2). split; [by rewrite T2, T1, <- app_assoc|by apply Forall_app].
Qed.

Lemma beside_queues_emit e w : is_bookkeeping e = false -> beside_queues w (emit e w).
Proof. intros He. split; [done|]. exists [e]. split; [done|]. by constructor. Qed.

Lemma beside_queues_store this c w :
  deferred_functions_for_loop c = queue_of this w ->
  beside_queues w (store this c w).
Proof.
  intros Hc. split.
  - intros q. unfold queue_of in *. simpl. case_decide; [by subst|done].
  - exists []. simpl. by rewrite app_nil_r.
Qed.

Lemma beside_queues_with_preference p w : beside_queues w (with_preference p w).
Proof. split; [done|]. exists []. simpl. by rewrite app_nil_r. Qed.

Lemma quiet_beside_queues w w' : quiet w w' -> beside_queues w w'.
Proof.
  intros Q. split; [|apply Q]. intros q. by apply quiet_queue_of.
Qed.

Lemma set_ble_mode_beside_queues WIFI_ONLY this newMode w :
  beside_queues w (set_ble_mode WIFI_ONLY this newMode w).
Proof.
  unfold set_ble_mode. destruct (newMode >? WIFI_ONLY); [by apply beside_queues_emit|].
  destruct (negb _); [|by apply beside_queues_emit].
  split.
  - intros q. unfold queue_of, on_this. simpl. case_decide; [subst|done].
    by destruct (controllers w this).
  - eexists [_; _; _]. simpl. split; [by rewrite <- !app_assoc|by repeat constructor].
Qed.

Lemma update_component_state_beside_queues this component state w :
  beside_queues w (update_component_state this component state w).
Proof.
  unfold update_component_state.
  destruct (handler_for_component (controllers w this) !! get_object_id component)
    as [[h|]|].
  - eapply beside_queues_trans; [by apply beside_queues_store|].
    by apply beside_queues_emit.
  - by apply beside_queues_store.
  - apply beside_queues_store. unfold queue_of. by destruct (controllers w this).
Qed.

Lemma beside_queues_pending w w' q : beside_queues w w' -> pending q w' = pending q w.
Proof. intros [Q _]. unfold pending. fold (queue_of q w'). by rewrite Q. Qed.

Lemma beside_queues_consistent w w' : beside_queues w w' -> consistent w -> consistent w'.
Proof.
  intros B C q. rewrite (beside_queues_pending _ _ q B).
  destruct B as [_ (evs & -> & F)].
  rewrite accepted_app, invoked_app.
  rewrite (no_bookkeeping_accepted q evs F), (no_bookkeeping_invoked q evs F).
  rewrite !app_nil_r. apply C.
Qed.

Lemma beside_queues_grows w w' :
  beside_queues w w' -> exists evs, trace w' = trace w ++ evs.
Proof. intros [_ (evs & T & _)]. by exists evs. Qed.

(** ** The functions of the application *)

Section Open_functions.

Variable WIFI_ONLY : Z.
Variable closure_body :
  nat -> list deferred_function -> instance -> world -> list api_call.
Variable observer_body : event -> world -> list api_call.

Local Abbreviation perform_call := (Open.perform_call WIFI_ONLY).
Local Abbreviation perform := (Open.perform WIFI_ONLY).
Local Abbreviation open_call := (Open.call WIFI_ONLY observer_body).
Local Abbreviation open_invoke := (Open.invoke WIFI_ONLY closure_body observer_body).
Local Abbreviation open_turn := (Open.loop_iteration WIFI_ONLY closure_body observer_body).
Local Abbreviation open_loop := (Open.loop WIFI_ONLY closure_body observer_body).
Local Abbreviation open_run := (Open.run WIFI_ONLY closure_body observer_body).

(** A call is [execute_in_loop], or leaves the queues alone. *)
Lemma perform_call_cases c w :
  (exists target f, c = Do_execute_in_loop target f) \/
  beside_queues w (perform_call c w).
Proof.
  destruct c; simpl; [left; by eauto|right..].
  - apply set_ble_mode_beside_queues.
  - apply update_component_state_beside_queues.
  - apply beside_queues_store. unfold queue_of. by destruct (controllers w target).
  - apply beside_queues_store. unfold queue_of. by destruct (controllers w target).
  - apply beside_queues_store. unfold queue_of. by destruct (controllers w target).
  - apply beside_queues_store. unfold queue_of. by destruct (controllers w target).
  - apply beside_queues_store. unfold queue_of. by destruct (controllers w target).
  - apply beside_queues_store. unfold queue_of. by destruct (controllers w target).
Qed.

Lemma perform_call_consistent c w : consistent w -> consistent (perform_call c w).
Proof.
  intros C. destruct (perform_call_cases c w) as [(target & f & ->)|B].
  - by apply execute_in_loop_consistent.
  - by eapply beside_queues_consistent.
Qed.

Lemma perform_call_grows c w : exists evs, trace (perform_call c w) = trace w ++ evs.
Proof.
  destruct (perform_call_cases c w) as [(target & f & ->)|B].
  - apply execute_in_loop_evolves.
  - by apply beside_queues_grows.
Qed.

Lemma perform_consistent calls w : consistent w -> consistent (perform calls w).
Proof.
  revert w. induction calls as [|c calls IH]; intros w C; simpl; [done|].
  by apply IH, perform_call_consistent.
Qed.

Lemma perform_grows calls w : exists evs, trace (perform calls w) = trace w ++ evs.
Proof.
  revert w. induction calls as [|c calls IH]; intros w; simpl.
  - exists []. by rewrite app_nil_r.
  - destruct (IH (perform_call c w)) as (e2 & ->).
    destruct (perform_call_grows c w) as (e1 & ->).
    exists (e1 ++ e2). by rewrite app_assoc.
Qed.

Lemma emit_consistent e w :
  is_bookkeeping e = false -> consistent w -> consistent (emit e w).
Proof. intros He. apply beside_queues_consistent. by apply beside_queues_emit. Qed.

Lemma open_call_consistent callbacks invocation w :
  (forall o, is_bookkeeping (invocation o) = false) ->
  consistent w -> consistent (open_call callbacks invocation w).
Proof.
  intros Hinv. unfold Open.call. revert w.
  induction callbacks as [|o callbacks IH]; intros w C; simpl; [done|].
  apply IH, perform_consistent. by apply emit_consistent.
Qed.

Lemma open_call_grows callbacks invocation w :
  exists evs, trace (open_call callbacks invocation w) = trace w ++ evs.
Proof.
  unfold Open.call. revert w.
  induction callbacks as [|o callbacks IH]; intros w; simpl.
  - exists []. by rewrite app_nil_r.
  - destruct (IH (perform (observer_body (invocation o) (emit (invocation o) w))
                    (emit (invocation o) w))) as (e2 & ->).
    destruct (perform_grows (observer_body (invocation o) (emit (invocation o) w))
                (emit (invocation o) w)) as (e1 & ->).
    simpl. exists ([invocation o] ++ e1 ++ e2). by rewrite !app_assoc.
Qed.

Lemma open_invoke_consistent this f w :
  consistent w -> consistent (open_invoke this f w).
Proof.
  intros C. destruct f as [owner s|owner b|m|owner|owner|id captured]; simpl.
  - apply open_call_consistent; [done|]. by apply emit_consistent.
  - apply open_call_consistent; [done|]. destruct b; by apply emit_consistent.
  - by apply emit_consistent.
  - apply open_call_consistent; [done|]. by apply emit_consistent.
  - apply open_call_consistent; [done|]. by repeat apply emit_consistent.
  - by apply perform_consistent.
Qed.

Lemma open_invoke_grows this f w :
  exists evs, trace (open_invoke this f w) = trace w ++ evs.
Proof.
  destruct f as [owner s|owner b|m|owner|owner|id captured]; simpl;
    try match goal with
        | |- context [open_call ?l ?i ?w0] =>
            destruct (open_call_grows l i w0) as (evs & ->); simpl;
            eexists; rewrite <- ?app_assoc; reflexivity
        end.
  - destruct b;
      match goal with
      | |- context [open_call ?l ?i ?w0] =>
          destruct (open_call_grows l i w0) as (evs & ->); simpl;
          eexists; rewrite <- ?app_assoc; reflexivity
      end.
  - by eexists.
  - apply perform_grows.
Qed.

(** The queue with its oldest closure taken out. *)
Lemma taken_pending q f rest w : pending q (taken q f rest w) = rest.
Proof. unfold taken, pending. simpl. by rewrite decide_True. Qed.

Lemma taken_consistent q f rest w :
  pending q w = f :: rest -> consistent w -> consistent (taken q f rest w).
Proof.
  intros Hw C q'. unfold taken. simpl. rewrite accepted_app, invoked_app. simpl.
  rewrite app_nil_r. unfold pending. simpl.
  destruct (decide (q' = q)) as [->|Hq].
  - rewrite !decide_True by done. simpl. rewrite (C q), Hw. by rewrite <- app_assoc.
  - rewrite !decide_False by congruence. rewrite app_nil_r. apply C.
Qed.

(** A turn takes the oldest closure out of the queue, and runs it. *)
Lemma open_turn_Some q f rest w :
  pending q w = f :: rest ->
  open_turn q w = Some (open_invoke q f (taken q f rest w)).
Proof.
  unfold Open.loop_iteration, Queue.take, pending, taken, queue_of.
  by intros ->.
Qed.

Lemma open_turn_None q w : open_turn q w = None <-> pending q w = [].
Proof.
  unfold Open.loop_iteration, Queue.take, pending.
  destruct (items _); split; intros; done.
Qed.

Lemma open_turn_consistent q w w' :
  open_turn q w = Some w' -> consistent w -> consistent w'.
Proof.
  destruct (pending q w) as [|f rest] eqn:Hw.
  - apply open_turn_None in Hw. congruence.
  - rewrite (open_turn_Some q f rest w Hw). intros [= <-] C.
    by apply open_invoke_consistent, taken_consistent.
Qed.

Lemma open_turn_grows q w w' :
  open_turn q w = Some w' -> exists evs, trace w' = trace w ++ evs.
Proof.
  destruct (pending q w) as [|f rest] eqn:Hw.
  - apply open_turn_None in Hw. congruence.
  - rewrite (open_turn_Some q f rest w Hw). intros [= <-].
    destruct (open_invoke_grows q f (taken q f rest w)) as (evs & ->).
    simpl. eexists. by rewrite <- app_assoc.
Qed.

Lemma open_run_consistent steps w : consistent w -> consistent (open_run steps w).
Proof.
  unfold Open.run. revert w. induction steps as [|s steps IH]; intros w C; simpl; [done|].
  apply IH. destruct s as [c|q]; simpl.
  - by apply perform_call_consistent.
  - destruct (open_turn q w) as [w'|] eqn:Hit; simpl; [|done].
    by eapply open_turn_consistent.
Qed.

(** No call to a controller calls an observer. *)
Lemma perform_call_observer_calls c w :
  observer_calls (trace (perform_call c w)) = observer_calls (trace w).
Proof.
  destruct c; simpl; try done.
  - apply execute_in_loop_observer_calls.
  - unfold set_ble_mode. destruct (newMode >? WIFI_ONLY); simpl.
    + rewrite observer_calls_app. simpl. by rewrite app_nil_r.
    + destruct (negb _); simpl; rewrite !observer_calls_app; simpl;
        by rewrite !app_nil_r.
  - unfold update_component_state.
    destruct (handler_for_component (controllers w target) !! get_object_id component)
      as [[h|]|]; simpl; try done.
    rewrite observer_calls_app. simpl. by rewrite app_nil_r.
Qed.

Lemma perform_observer_calls calls w :
  observer_calls (trace (perform calls w)) = observer_calls (trace w).
Proof.
  unfold Open.perform. revert w. induction calls as [|c calls IH]; intros w; simpl; [done|].
  by rewrite IH, perform_call_observer_calls.
Qed.

Lemma open_call_observer_calls callbacks invocation w :
  (forall o, is_observer_call (invocation o) = true) ->
  observer_calls (trace (open_call callbacks invocation w))
  = observer_calls (trace w) ++ map invocation callbacks.
Proof.
  intros Hinv. unfold Open.call. revert w.
  induction callbacks as [|o callbacks IH]; intros w; simpl.
  - by rewrite app_nil_r.
  - rewrite IH, perform_observer_calls. simpl. rewrite observer_calls_app.
    unfold observer_calls at 2. simpl. rewrite Hinv. by rewrite <- app_assoc.
Qed.

(** Running a closure calls the observers of its owner, in the order of
    the callback list as it is when the closure is run, whatever the
    observers do. *)
Lemma open_invoke_observer_calls this f w :
  observer_calls (trace (open_invoke this f w))
  = observer_calls (trace w) ++ deliveries f w.
Proof.
  destruct f as [owner s|owner b|m|owner|owner|id captured]; simpl.
  - rewrite open_call_observer_calls by done. simpl. rewrite observer_calls_app.
    simpl. by rewrite app_nil_r.
  - rewrite open_call_observer_calls by done.
    destruct b; simpl; rewrite observer_calls_app; simpl; by rewrite app_nil_r.
  - rewrite observer_calls_app. reflexivity.
  - rewrite open_call_observer_calls by done. simpl. rewrite observer_calls_app.
    simpl. by rewrite app_nil_r.
  - rewrite open_call_observer_calls by done. simpl. rewrite !observer_calls_app.
    simpl. by rewrite !app_nil_r.
  - rewrite app_nil_r. apply perform_observer_calls.
Qed.

Lemma taken_deliveries q f rest g w : deliveries g (taken q f rest w) = deliveries g w.
Proof.
  unfold taken. destruct g as [owner s|owner b|m|owner|owner|id captured]; simpl;
    try done; (case_decide; [subst|done]); by destruct (controllers w q).
Qed.

(** [loop] returns when a [take] fails, and only then: it has made some
    turns, and the queue is empty. *)
Lemma open_loop_Some fuel q w w'' :
  open_loop fuel q w = Some w'' ->
  pending q w'' = [] /\
  (exists turns, (turns < fuel)%nat /\
                 w'' = open_run (repeat (Open.Turn q) turns) w) /\
  exists during, trace w'' = trace w ++ during.
Proof.
  revert w. induction fuel as [|fuel IH]; intros w; simpl; [done|].
  destruct (open_turn q w) as [w'|] eqn:Hit.
  - intros (Hempty & (turns & Hturns & Hrun) & (during & Hd))%IH.
    split; [done|]. split.
    + exists (S turns). split; [lia|]. simpl. unfold Open.run in *. simpl.
      by rewrite Hit.
    + destruct (open_turn_grows _ _ _ Hit) as (evs & Hevs).
      exists (evs ++ during). by rewrite Hd, Hevs, app_assoc.
  - intros [= <-]. split; [by apply open_turn_None|]. split.
    + exists 0%nat. split; [lia|done].
    + exists []. by rewrite app_nil_r.
Qed.

(** [loop] returns as soon as its turns have emptied the queue. *)
Lemma open_run_turns_idle turns q w :
  open_turn q w = None -> open_run (repeat (Open.Turn q) turns) w = w.
Proof.
  intros Hit. unfold Open.run. induction turns as [|turns IH]; simpl; [done|].
  rewrite Hit. simpl. exact IH.
Qed.

Lemma open_loop_turns turns q w :
  pending q (open_run (repeat (Open.Turn q) turns) w) = [] ->
  open_loop (S turns) q w = Some (open_run (repeat (Open.Turn q) turns) w).
Proof.
  revert w. induction turns as [|turns IH]; intros w Hempty.
  - simpl in *. by apply open_turn_None in Hempty as ->.
  - change (open_loop (S (S turns)) q w)
      with (match open_turn q w with
            | None => Some w
            | Some w1 => open_loop (S turns) q w1
            end).
    destruct (open_turn q w) as [w1|] eqn:Hit.
    + assert (open_run (repeat (Open.Turn q) (S turns)) w
              = open_run (repeat (Open.Turn q) turns) w1) as Hrun
        by (unfold Open.run; simpl; by rewrite Hit).
      rewrite Hrun in *. by apply IH.
    + by rewrite open_run_turns_idle.
Qed.

Lemma open_loop_consistent fuel q w w'' :
  open_loop fuel q w = Some w'' -> consistent w -> consistent w''.
Proof.
  intros (_ & (turns & _ & ->) & _)%open_loop_Some. apply open_run_consistent.
Qed.

(** With closures that settle, [loop] returns. *)
Lemma open_loop_returns size q fuel w :
  Open.settles WIFI_ONLY closure_body observer_body size q ->
  (list_sum (map size (pending q w)) < fuel)%nat ->
  exists w'', open_loop fuel q w = Some w''.
Proof.
  intros Hsettles. revert w. induction fuel as [|fuel IH]; intros w Hw; [lia|].
  simpl. destruct (pending q w) as [|f rest] eqn:Hpend.
  - apply open_turn_None in Hpend as ->. by eexists.
  - rewrite (open_turn_Some q f rest w Hpend). apply IH.
    pose proof (Hsettles f (taken q f rest w)) as H.
    rewrite taken_pending in H. simpl in Hw. lia.
Qed.

End Open_functions.

(** *** Closures that enqueue what they captured *)

Lemma perform_enqueue WIFI_ONLY this fs w :
  Open.perform WIFI_ONLY (map (Do_execute_in_loop this) fs) w
  = fold_left (fun w g => execute_in_loop this g w) fs w.
Proof.
  unfold Open.perform. revert w. induction fs as [|g fs IH]; intros w; simpl; [done|].
  apply IH.
Qed.

Lemma call_of_silent WIFI_ONLY callbacks invocation w :
  Open.call WIFI_ONLY silent callbacks invocation w = call callbacks invocation w.
Proof.
  unfold Open.call, call. revert w.
  induction callbacks as [|o callbacks IH]; intros w; simpl; [done|]. apply IH.
Qed.

(** With such closures and observers that make no call, [Open.invoke] is
    [invoke], a turn is a turn, and [Open.loop] returns what [loop] does. *)
Lemma invoke_of_enqueuing WIFI_ONLY this f w :
  Open.invoke WIFI_ONLY enqueuing silent this f w = invoke this f w.
Proof.
  destruct f as [owner s|owner b|m|owner|owner|id captured]; simpl;
    rewrite ?call_of_silent; try done.
  apply perform_enqueue.
Qed.

Lemma loop_iteration_of_enqueuing WIFI_ONLY this w :
  Open.loop_iteration WIFI_ONLY enqueuing silent this w = loop_iteration this w.
Proof.
  unfold Open.loop_iteration, loop_iteration.
  destruct (Queue.take _) as [[f q]|]; [|done]. by rewrite invoke_of_enqueuing.
Qed.

Lemma loop_of_enqueuing WIFI_ONLY fuel this w :
  (waiting_weight this w < fuel)%nat ->
  Open.loop WIFI_ONLY enqueuing silent fuel this w = Some (loop this w).
Proof.
  revert w. induction fuel as [|fuel IH]; intros w Hw; [lia|].
  simpl. rewrite loop_iteration_of_enqueuing, (loop_unfold this w).
  destruct (loop_iteration this w) as [w'|] eqn:Hit; [|done].
  apply IH. pose proof (loop_iteration_weight _ _ _ Hit). lia.
Qed.

(** *** Closures that report and enqueue *)

Lemma reporting_settles WIFI_ONLY q :
  Open.settles WIFI_ONLY reporting silent weight q.
Proof.
  intros f w. fold (waiting_weight q w).
  destruct f as [owner s|owner b|m|owner|owner|id captured];
    try (match goal with
         | |- context [Open.invoke _ _ _ _ ?f _] =>
             pose proof (invoke_weight q f w) as H
         end;
         rewrite <- (invoke_of_enqueuing WIFI_ONLY) in H; exact H).
  change (Open.invoke WIFI_ONLY reporting silent q (Work id captured) w)
    with (Open.perform WIFI_ONLY (map (Do_execute_in_loop q) captured)
            (update_component_state q outdoor
               (FloatState (Z.of_nat (length (pending q w)))) w)).
  rewrite perform_enqueue.
  match goal with |- context [fold_left _ captured ?w1] =>
    pose proof (execute_in_loop_list_weight q captured w1) as H;
    assert (waiting_weight q w1 = waiting_weight q w) as Hsame
      by (unfold waiting_weight;
          by rewrite (beside_queues_pending w w1 q)
            by apply update_component_state_beside_queues)
  end.
  unfold waiting_weight in *. simpl. lia.
Qed.

(** *** A closure that enqueues itself *)

(** With room for it the closure is back in the queue after every turn, and
    [loop] does not return. *)
Lemma restless_loop WIFI_ONLY observer_body fuel q id captured w :
  pending q w = [Work id captured] ->
  (0 < capacity (queue_of q w))%nat ->
  Open.loop WIFI_ONLY restless observer_body fuel q w = None.
Proof.
  revert w. induction fuel as [|fuel IH]; intros w Hw Hcap; [done|].
  simpl. rewrite (open_turn_Some _ _ _ q _ [] w Hw).
  change (Open.invoke WIFI_ONLY restless observer_body q (Work id captured)
            (taken q (Work id captured) [] w))
    with (execute_in_loop q (Work id captured) (taken q (Work id captured) [] w)).
  assert (Queue.full (queue_of q (taken q (Work id captured) [] w)) = false) as Hroom.
  { unfold Queue.full, taken, queue_of. simpl. rewrite decide_True by done. simpl.
    apply Nat.leb_gt. exact Hcap. }
  destruct (execute_in_loop_room q (Work id captured) _ Hroom) as (_ & Hpend & Hcap').
  apply IH.
  - by rewrite Hpend, taken_pending.
  - rewrite Hcap'. unfold taken, queue_of. simpl. by rewrite decide_True.
Qed.

(** ** The deferred queue *)

(** C1. The closures handed to [execute_in_loop] and the observers are any
    functions of the application, given by the calls they make to the
    controllers ([closure_body], [observer_body]). Over every interleaving
    of calls by any thread, [execute_in_loop] among them, and turns of the
    [while] of [loop], the closures a queue has accepted are, in the order
    of acceptance, first the ones that were run and then the ones still
    waiting: none is lost, none is run twice, and the closures of any one
    producer are run in the order that producer enqueued them. A turn takes
    the oldest closure out of the queue and runs it, once, before anything
    else is taken: for a closure of the application the calls of its code
    are made, for a closure that logs the line is logged, and the observers
    called are those of the closure, in the order of their list. With the
    queue empty the turn ends the [while]. A call of [loop] that returns
    has made turns until the queue was empty, and has then run every
    closure accepted so far exactly once and oldest first: the ones that
    waited when it was called, and [during], the ones accepted while it was
    draining. It returns as soon as its turns have emptied the queue. That
    happens whenever the closures settle, that is when by some measure each
    closure enqueues less than itself; it does not happen when a closure
    enqueues itself again and there is room for it. *)
Theorem deferred_functions_run_once_in_order
    (WIFI_ONLY : Z)
    (closure_body : nat -> list deferred_function -> instance -> world -> list api_call)
    (observer_body : event -> world -> list api_call)
    (steps : list Open.step) (w : world) (q : instance) :
  consistent w ->
  let turn := Open.loop_iteration WIFI_ONLY closure_body observer_body in
  let loop := Open.loop WIFI_ONLY closure_body observer_body in
  let run := Open.run WIFI_ONLY closure_body observer_body in
  let w' := run steps w in
  accepted q (trace w') = invoked q (trace w') ++ pending q w' /\
  (forall from_producer : deferred_function -> bool,
     List.filter from_producer (accepted q (trace w'))
     = List.filter from_producer (invoked q (trace w'))
       ++ List.filter from_producer (pending q w')) /\
  (forall id captured rest,
     pending q w' = Work id captured :: rest ->
     let w0 := taken q (Work id captured) rest w' in
     turn q w' = Some (Open.perform WIFI_ONLY (closure_body id captured q w0) w0)) /\
  (forall message rest,
     pending q w' = LogDebug message :: rest ->
     turn q w' = Some (emit (Log LOGD message []) (taken q (LogDebug message) rest w'))) /\
  (forall f rest w1,
     pending q w' = f :: rest ->
     turn q w' = Some w1 ->
     observer_calls (trace w1) = observer_calls (trace w') ++ deliveries f w') /\
  (pending q w' = [] -> turn q w' = None) /\
  (forall fuel w'',
     loop fuel q w' = Some w'' ->
     pending q w'' = [] /\
     invoked q (trace w'') = accepted q (trace w'') /\
     (exists turns, (turns < fuel)%nat /\ w'' = run (repeat (Open.Turn q) turns) w') /\
     exists during,
       trace w'' = trace w' ++ during /\
       invoked q (trace w'') = invoked q (trace w') ++ pending q w' ++ accepted q during) /\
  (forall turns,
     pending q (run (repeat (Open.Turn q) turns) w') = [] ->
     loop (S turns) q w' = Some (run (repeat (Open.Turn q) turns) w')) /\
  (forall size,
     Open.settles WIFI_ONLY closure_body observer_body size q ->
     exists fuel w'', loop fuel q w' = Some w'') /\
  (forall fuel,
     Open.loop WIFI_ONLY restless observer_body fuel q
       (execute_in_loop q (Work 0 []) (power_on 1)) = None).
Proof.
  intros C turn loop run w'.
  assert (consistent w') as C' by by apply open_run_consistent.
  split; [apply C'|]. split.
  { intros P. by rewrite (C' q), List.filter_app. }
  split.
  { intros id captured rest Hpend w0. unfold turn.
    by rewrite (open_turn_Some _ _ _ q _ rest w' Hpend). }
  split.
  { intros message rest Hpend. unfold turn.
    by rewrite (open_turn_Some _ _ _ q _ rest w' Hpend). }
  split.
  { intros f rest w1 Hpend. unfold turn.
    rewrite (open_turn_Some _ _ _ q _ rest w' Hpend). intros [= <-].
    rewrite open_invoke_observer_calls, taken_deliveries. unfold taken. simpl.
    rewrite observer_calls_app. simpl. by rewrite app_nil_r. }
  split; [by apply open_turn_None|]. split; [|split; [|split]].
  - intros fuel w'' Hloop.
    pose proof (open_loop_consistent _ _ _ _ _ _ _ Hloop C') as CL.
    apply open_loop_Some in Hloop as (Hempty & Hturns & (during & Hd)).
    assert (invoked q (trace w'') = accepted q (trace w'')) as Hall.
    { rewrite (CL q), Hempty. by rewrite app_nil_r. }
    split; [done|]. split; [done|]. split; [done|].
    exists during. split; [done|].
    rewrite Hall, Hd, accepted_app, (C' q). by rewrite <- app_assoc.
  - intros turns. apply open_loop_turns.
  - intros size Hsettles. exists (S (list_sum (map size (pending q w')))).
    eapply open_loop_returns; [done|lia].
  - intros fuel. assert (Queue.full (queue_of q (power_on 1)) = false) as Hroom by done.
    destruct (execute_in_loop_room q (Work 0 []) _ Hroom) as (_ & Hpend & Hcap).
    apply (restless_loop _ _ _ _ 0%nat []); [done|]. rewrite Hcap. simpl. lia.
Qed.

(** C2. The deferred queue is bounded. Over every interleaving of enqueue
    and loop steps no queue holds more closures than the capacity it was
    configured with, which never changes. On a full queue [push] returns
    false and leaves the queue as it was; [execute_in_loop] then returns
    with nothing changed, the closure dropped, and a warning logged. Both
    are total functions: the caller is never made to wait. *)
Theorem deferred_queue_is_bounded
    (steps : list queue_step) (w : world) (this : instance) (f : deferred_function) :
  bounded w ->
  let w' := run steps w in
  (forall q, (length (pending q w') <= capacity (queue_of q w'))%nat /\
             capacity (queue_of q w') = capacity (queue_of q w)) /\
  (Queue.full (queue_of this w') = true ->
   Queue.push (queue_of this w') f = (false, queue_of this w') /\
   same_state w' (execute_in_loop this f w') /\
   trace (execute_in_loop this f w')
   = trace w' ++ [Log LOGW "Deferred functions queue full" []]).
Proof.
  intros B w'. split.
  - intros q. split; [by apply run_bounded|]. apply run_evolves.
  - intros Hfull. split.
    + unfold Queue.push. by rewrite Hfull.
    + destruct (execute_in_loop_full this f w' Hfull). done.
Qed.

(** ** The operating mode *)

(** C3. [set_ble_mode], for every current mode and requested value. A
    value equal to the current mode writes nothing and requests no restart.
    A different value not above [WIFI_ONLY] becomes the mode in memory and
    the stored mode, with one write and one restart request. A value above
    [WIFI_ONLY] is rejected with a log line and changes nothing. In every
    case the mode in memory and the stored mode are either both left alone
    or both set to the requested value. *)
Theorem set_ble_mode_cases
    (WIFI_ONLY : Z) (this : instance) (newMode : Z) (w : world) :
  let current := ble_mode (controllers w this) in
  let w' := set_ble_mode WIFI_ONLY this newMode w in
  (newMode = current ->
     same_state w w' /\
     preference_writes (trace w') = preference_writes (trace w) /\
     restart_requests (trace w') = restart_requests (trace w)) /\
  (newMode <> current -> newMode <= WIFI_ONLY ->
     controllers w' this = with_mode newMode (controllers w this) /\
     ble_mode_preference w' = Some newMode /\
     trace w' = trace w ++ [Log LOGI "Updating BLE mode to %d" [newMode];
                            PreferenceSave newMode; SafeReboot] /\
     preference_writes (trace w') = preference_writes (trace w) ++ [newMode] /\
     restart_requests (trace w') = S (restart_requests (trace w))) /\
  (newMode > WIFI_ONLY ->
     same_state w w' /\
     trace w' = trace w ++ [Log LOGI "Ignoring unsupported BLE mode %d" [newMode]]) /\
  ((ble_mode (controllers w' this) = current /\
    ble_mode_preference w' = ble_mode_preference w /\
    preference_writes (trace w') = preference_writes (trace w)) \/
   (newMode <> current /\
    ble_mode (controllers w' this) = newMode /\
    ble_mode_preference w' = Some newMode)).
Proof.
  intros current w'. subst current w'. unfold set_ble_mode.
  unfold preference_writes, restart_requests.
  destruct (newMode >? WIFI_ONLY) eqn:Hrange.
  - apply Z.gtb_lt in Hrange.
    repeat split; try (intros; lia); try apply same_state_emit.
    + simpl. rewrite omap_app. simpl. by rewrite app_nil_r.
    + simpl. rewrite List.filter_app, length_app. simpl. lia.
    + left. simpl. rewrite omap_app. simpl. by rewrite app_nil_r.
  - assert (newMode <= WIFI_ONLY) as Hle.
    { destruct (Z.gtb_spec newMode WIFI_ONLY); [done|lia]. }
    simpl.
    destruct (ble_mode (controllers w this) =? newMode) eqn:Hsame; simpl.
    + apply Z.eqb_eq in Hsame.
      repeat split; try (intros; lia); try apply same_state_emit.
      * rewrite omap_app. simpl. by rewrite app_nil_r.
      * rewrite List.filter_app, length_app. simpl. lia.
      * left. simpl. rewrite omap_app. simpl. by rewrite app_nil_r.
    + apply Z.eqb_neq in Hsame. rewrite !decide_True by done. simpl.
      repeat split; try (intros; lia).
      * by rewrite <- !app_assoc.
      * rewrite !omap_app. simpl. by rewrite !app_nil_r.
      * rewrite !List.filter_app, !length_app. simpl. lia.
      * right. split; [lia|done].
Qed.

(** C9. When nothing is stored for the mode, [initialize_ble_mode] makes
    [BLE_ONLY] the mode in memory; it logs the mode and writes nothing to
    the preferences. *)
Theorem initialize_ble_mode_default (BLE_ONLY : Z) (this : instance) (w : world) :
  ble_mode_preference w = None ->
  let w' := initialize_ble_mode BLE_ONLY this w in
  ble_mode (controllers w' this) = BLE_ONLY /\
  ble_mode_preference w' = None /\
  trace w' = trace w ++ [Log LOGCONFIG "BLE mode: %d" [BLE_ONLY]] /\
  preference_writes (trace w') = preference_writes (trace w).
Proof.
  intros Hnone. unfold initialize_ble_mode. rewrite Hnone. simpl.
  rewrite decide_True by done. repeat split; try done.
  unfold preference_writes. rewrite omap_app. simpl. by rewrite app_nil_r.
Qed.

(** A stored mode is taken as it is, whatever its value. *)
Lemma initialize_ble_mode_stored (BLE_ONLY : Z) (this : instance) (w : world) stored :
  ble_mode_preference w = Some stored ->
  ble_mode (controllers (initialize_ble_mode BLE_ONLY this w) this) = stored.
Proof.
  intros Hsome. unfold initialize_ble_mode. rewrite Hsome. simpl.
  by rewrite decide_True.
Qed.

(** ** The registries *)

(** Materialisation reads the descriptors and does not write them. *)
Lemma setup_ble_service_for_component_info component creator c :
  info_for_component (setup_ble_service_for_component component creator c)
  = info_for_component c.
Proof.
  unfold setup_ble_service_for_component.
  by destruct (info_for_component c !! get_object_id component).
Qed.

(** Once the handler of a component is made from its descriptor, going
    through more components does not change it. *)
Lemma materialized_stays components component creator info c :
  info_for_component c !! get_object_id component = Some info ->
  handler_for_component c !! get_object_id component = Some (creator component info) ->
  handler_for_component (setup_ble_services_for_components_of components creator c)
    !! get_object_id component = Some (creator component info).
Proof.
  unfold setup_ble_services_for_components_of. revert c.
  induction components as [|other components IH]; intros c Hinfo Hhandler; [done|].
  simpl. apply IH.
  - by rewrite setup_ble_service_for_component_info.
  - unfold setup_ble_service_for_component.
    destruct (decide (get_object_id other = get_object_id component)) as [Hid|Hid].
    + rewrite Hid, Hinfo. simpl. rewrite lookup_insert_eq.
      destruct other, component; simpl in *; by subst.
    + destruct (info_for_component c !! get_object_id other); [|done].
      simpl. by rewrite lookup_insert_ne.
Qed.

(** Materialisation over the components of a kind: a component of the list
    that has a descriptor gets the handler the factory makes from it. *)
Lemma materialized components component creator info c :
  info_for_component c !! get_object_id component = Some info ->
  In component components ->
  handler_for_component (setup_ble_services_for_components_of components creator c)
    !! get_object_id component = Some (creator component info).
Proof.
  revert c. induction components as [|other components IH]; intros c Hinfo Hin;
    [by destruct Hin|].
  destruct Hin as [->|Hin].
  - change (setup_ble_services_for_components_of (component :: components) creator c)
      with (setup_ble_services_for_components_of components creator
              (setup_ble_service_for_component component creator c)).
    apply materialized_stays.
    + by rewrite setup_ble_service_for_component_info.
    + unfold setup_ble_service_for_component. rewrite Hinfo. simpl.
      by rewrite lookup_insert_eq.
  - change (setup_ble_services_for_components_of (other :: components) creator c)
      with (setup_ble_services_for_components_of components creator
              (setup_ble_service_for_component other creator c)).
    apply IH; [|done]. by rewrite setup_ble_service_for_component_info.
Qed.

(** C7. Registering a descriptor twice for one component identifier: the
    second call overwrites the entry of the first and nothing else, without
    any error, and when the handler of the component is made, alone or
    among the components of its kind, the factory is given the second
    descriptor: its service UUID, its characteristic UUID and its notify
    flag. *)
Theorem register_component_last_write_wins
    (component : Nameable) (service1 characteristic1 : string) (notify1 : bool)
    (service2 characteristic2 : string) (notify2 : bool)
    (creator : handler_creator) (c : ESP32BLEController) :
  let second := {| service_UUID := service2;
                   characteristic_UUID := characteristic2;
                   use_BLE2902 := notify2 |} in
  let c' := register_component component service2 characteristic2 notify2
              (register_component component service1 characteristic1 notify1 c) in
  c' = register_component component service2 characteristic2 notify2 c /\
  info_for_component c' !! get_object_id component = Some second /\
  handler_for_component (setup_ble_service_for_component component creator c')
    !! get_object_id component = Some (creator component second) /\
  (forall components,
     In component components ->
     handler_for_component (setup_ble_services_for_components_of components creator c')
       !! get_object_id component = Some (creator component second)).
Proof.
  intros second c'.
  assert (info_for_component c' !! get_object_id component = Some second) as Hinfo.
  { subst c'. unfold register_component. simpl. by rewrite lookup_insert_eq. }
  split; [|split; [done|split]].
  - subst c'. unfold register_component, with_info. simpl. by rewrite insert_insert_eq.
  - unfold setup_ble_service_for_component. rewrite Hinfo. simpl.
    by rewrite lookup_insert_eq.
  - intros components Hin. by apply materialized.
Qed.

(** Materialisation over a list of components: a component without a
    descriptor gets no handler, and handlers of other identifiers stay. *)
Lemma setup_ble_service_for_component_skips component creator c :
  info_for_component c !! get_object_id component = None ->
  setup_ble_service_for_component component creator c = c.
Proof. intros H. unfold setup_ble_service_for_component. by rewrite H. Qed.

(** What [update_component_state] does for an identifier that has no entry
    in the handler registry: nothing is sent, no other field and no other
    object changes, but the registry gets an entry for the identifier,
    holding a null pointer. *)
Lemma update_component_state_absent this component state w :
  handler_for_component (controllers w this) !! get_object_id component = None ->
  let w' := update_component_state this component state w in
  trace w' = trace w /\
  controllers w' this
  = with_handlers (<[get_object_id component := None]>
                     (handler_for_component (controllers w this)))
                  (controllers w this) /\
  handler_for_component (controllers w' this) !! get_object_id component = Some None /\
  size (handler_for_component (controllers w' this))
  = S (size (handler_for_component (controllers w this))).
Proof.
  intros Habsent. unfold update_component_state. rewrite Habsent. simpl.
  rewrite decide_True by done. simpl. rewrite lookup_insert_eq.
  repeat split. by apply map_size_insert_None.
Qed.

(** With a handler registered the state is sent to it and nothing else
    happens to the registry. *)
Lemma update_component_state_present this component state w h :
  handler_for_component (controllers w this) !! get_object_id component = Some (Some h) ->
  let w' := update_component_state this component state w in
  trace w' = trace w ++ [SendValue h state] /\
  handler_for_component (controllers w' this) = handler_for_component (controllers w this).
Proof.
  intros Hh. unfold update_component_state. rewrite Hh. simpl.
  by rewrite decide_True.
Qed.

(** C4 (the code departs from it). A state update for a component whose
    identifier has no entry in the handler registry sends nothing, but it
    does not leave the registry unchanged: on a controller with an empty
    registry, an update of the sensor [outdoor] leaves a registry of one
    entry, which maps [outdoor] to a null pointer. *)
Theorem update_component_state_adds_null_entry :
  let w := power_on 4 in
  let w' := on_sensor_update 0%nat outdoor 0x41A80000 w in
  handler_for_component (controllers w 0%nat) !! get_object_id outdoor = None /\
  trace w' = trace w /\
  handler_for_component (controllers w' 0%nat) !! get_object_id outdoor = Some None /\
  size (handler_for_component (controllers w 0%nat)) = 0%nat /\
  size (handler_for_component (controllers w' 0%nat)) = 1%nat /\
  handler_for_component (controllers w' 0%nat)
  <> handler_for_component (controllers w 0%nat).
Proof.
  intros w w'.
  assert (handler_for_component (controllers w 0%nat) !! get_object_id outdoor = None)
    as Habsent by reflexivity.
  destruct (update_component_state_absent 0%nat outdoor
              (FloatState 0x41A80000) w Habsent) as (Htr & _ & Hnull & Hsize).
  repeat split; done.
Qed.

(** ** Pass keys *)

Example pass_key_str_123456 : pass_key_str 123456 = "123456"%string.
Proof. reflexivity. Qed.

Example pass_key_str_42 : pass_key_str 42 = "000042"%string.
Proof. reflexivity. Qed.

Example pass_key_str_7 : pass_key_str 1234567 = "123456"%string.
Proof. reflexivity. Qed.

Example pass_key_str_max : pass_key_str 4294967295 = "-00001"%string.
Proof. reflexivity. Qed.

Example pass_key_str_min : pass_key_str 2147483648 = "-21474"%string.
Proof. reflexivity. Qed.

Lemma length_append (s1 s2 : string) :
  String.length (s1 ++ s2) = (String.length s1 + String.length s2)%nat.
Proof. induction s1 as [|c s1 IH]; simpl; [done|]. by rewrite IH. Qed.

Lemma length_zeros n : String.length (Printf.zeros n) = n.
Proof. induction n as [|n IH]; simpl; [done|]. by rewrite IH. Qed.

Lemma length_pad width s : (width <= String.length (Printf.pad width s))%nat.
Proof. unfold Printf.pad. rewrite length_append, length_zeros. lia. Qed.

Lemma length_substring_0 n s :
  (n <= String.length s)%nat -> String.length (String.substring 0 n s) = n.
Proof.
  revert s. induction n as [|n IH]; intros s Hn.
  - by destruct s.
  - destruct s as [|c s]; simpl in *; [lia|]. rewrite IH; [done|lia].
Qed.

Lemma length_format_0d width v :
  (width <= String.length (Printf.format_0d width v))%nat.
Proof.
  unfold Printf.format_0d. destruct (v <? 0).
  - simpl. pose proof (length_pad (width - 1) (Printf.decimal (- v))). lia.
  - apply length_pad.
Qed.

(** The digits printed for a number stand for that number. *)
Lemma digits_acc fuel v acc :
  Printf.digits fuel v acc = (Printf.digits fuel v EmptyString ++ acc)%string.
Proof.
  revert v acc. induction fuel as [|fuel IH]; intros v acc; simpl; [done|].
  destruct (v / 10 =? 0); [done|].
  rewrite (IH _ (String _ acc)), (IH _ (String _ EmptyString)).
  generalize (Printf.digits fuel (v / 10) EmptyString). intros s.
  induction s as [|c s IHs]; [done|].
  change (String c (s ++ String (Printf.digit (v mod 10)) acc)
          = String c ((s ++ String (Printf.digit (v mod 10)) EmptyString) ++ acc))%string.
  by rewrite IHs.
Qed.

Lemma number_from_append acc s1 s2 :
  Printf.number_from acc (s1 ++ s2)
  = Printf.number_from (Printf.number_from acc s1) s2.
Proof.
  revert acc. induction s1 as [|c s1 IH]; intros acc; [done|].
  change (String c s1 ++ s2)%string with (String c (s1 ++ s2)%string).
  simpl. apply IH.
Qed.

Lemma number_digit d :
  0 <= d < 10 -> Z.of_nat (nat_of_ascii (Printf.digit d)) - 48 = d.
Proof.
  intros Hd. unfold Printf.digit. rewrite nat_ascii_embedding by lia. lia.
Qed.

Lemma number_digits fuel v :
  0 <= v < 10 ^ Z.of_nat fuel ->
  Printf.number (Printf.digits fuel v EmptyString) = v.
Proof.
  revert v. induction fuel as [|fuel IH]; intros v Hv.
  - simpl in *. unfold Printf.number. simpl. lia.
  - rewrite Nat2Z.inj_succ, Z.pow_succ_r in Hv by lia.
    pose proof (Z.div_mod v 10 ltac:(lia)) as Hdiv.
    pose proof (Z.mod_pos_bound v 10 ltac:(lia)) as Hmod.
    simpl. destruct (Z.eqb_spec (v / 10) 0) as [Hzero|Hnonzero].
    + unfold Printf.number. simpl. rewrite number_digit by done. lia.
    + rewrite digits_acc. unfold Printf.number.
      rewrite number_from_append. fold (Printf.number (Printf.digits fuel (v / 10) "")).
      rewrite IH.
      * simpl. rewrite number_digit by done. lia.
      * split; [apply Z.div_pos; lia|]. apply Z.div_lt_upper_bound; lia.
Qed.

Lemma decimal_number v : 0 <= v -> Printf.number (Printf.decimal v) = v.
Proof.
  intros Hv. unfold Printf.decimal. apply number_digits. split; [done|].
  rewrite Nat2Z.inj_succ, Z2Nat.id by apply Z.log2_nonneg.
  destruct (Z.eq_dec v 0) as [->|Hpos]; [done|].
  pose proof (Z.log2_spec v ltac:(lia)) as [_ Hlog].
  pose proof (Z.log2_nonneg v) as Hnonneg.
  assert (2 ^ Z.succ (Z.log2 v) <= 10 ^ Z.succ (Z.log2 v)) as Hpow
    by (apply Z.pow_le_mono_l; lia).
  lia.
Qed.

(** Whatever the pass key, six characters are delivered. *)
Lemma pass_key_str_length pass_key : String.length (pass_key_str pass_key) = 6%nat.
Proof.
  unfold pass_key_str, Printf.snprintf_0d, PASS_KEY_LENGTH.
  apply length_substring_0.
  apply (length_format_0d 6).
Qed.

(** A pass key below [2 ^ 31] is rendered by its decimal digits, with zeros
    in front when they are fewer than six, and cut after the sixth. *)
Lemma pass_key_str_digits pass_key :
  0 <= pass_key < 2 ^ 31 ->
  pass_key_str pass_key
  = String.substring 0 6 (Printf.pad 6 (Printf.decimal pass_key)).
Proof.
  intros [Hlo Hhi].
  unfold pass_key_str, Printf.snprintf_0d, Printf.format_0d, Printf.int_of_uint32,
    PASS_KEY_LENGTH.
  destruct (Z.ltb_spec pass_key (2 ^ 31)); [|lia].
  destruct (Z.ltb_spec pass_key 0); [lia|]. reflexivity.
Qed.

(** A pass key from [2 ^ 31] on is rendered as a negative number. *)
Lemma pass_key_str_sign pass_key :
  2 ^ 31 <= pass_key < 2 ^ 32 ->
  exists digits, pass_key_str pass_key = String "-"%char digits.
Proof.
  intros [Hlo Hhi].
  unfold pass_key_str, Printf.snprintf_0d, Printf.format_0d, Printf.int_of_uint32,
    PASS_KEY_LENGTH.
  destruct (Z.ltb_spec pass_key (2 ^ 31)); [lia|].
  destruct (Z.ltb_spec (pass_key - 2 ^ 32) 0); [|lia].
  simpl. by eexists.
Qed.

(** ** Observers *)

Lemma observer_calls_deliveries f w : observer_calls (deliveries f w) = deliveries f w.
Proof.
  apply observer_calls_all.
  destruct f; simpl; try constructor;
    match goal with |- Forall _ (map _ ?l) => induction l; by constructor end.
Qed.

(** Running a closure calls the observers of its owner, in the order of
    the callback list, and no other observer. *)
Lemma invoke_observer_calls this f w :
  observer_calls (trace (invoke this f w))
  = observer_calls (trace w) ++ deliveries f w.
Proof.
  destruct f as [owner s|owner b|m|owner|owner|id fs]; simpl.
  - rewrite call_trace. simpl. rewrite !observer_calls_app. simpl.
    rewrite app_nil_r. f_equal.
    apply (observer_calls_deliveries (ShowPassKey owner s) w).
  - rewrite call_trace. destruct b; simpl; rewrite !observer_calls_app; simpl;
      rewrite app_nil_r; f_equal;
      apply (observer_calls_deliveries (AuthenticationComplete owner _) w).
  - rewrite observer_calls_app. reflexivity.
  - rewrite call_trace. simpl. rewrite !observer_calls_app. simpl.
    rewrite app_nil_r. f_equal.
    apply (observer_calls_deliveries (Connected owner) w).
  - rewrite call_trace. simpl. rewrite !observer_calls_app. simpl.
    rewrite !app_nil_r. f_equal.
    apply (observer_calls_deliveries (Disconnected owner) w).
  - rewrite app_nil_r. revert w. induction fs as [|g fs IH]; intros w; simpl; [done|].
    by rewrite IH, execute_in_loop_observer_calls.
Qed.

Lemma same_but_queues_deliveries f w w' :
  same_but_queues w w' -> deliveries f w' = deliveries f w.
Proof.
  intros H. destruct f as [owner s|owner b|m|owner|owner|id fs]; simpl; try done;
    specialize (H owner).
  - apply (f_equal on_show_pass_key_callbacks) in H. simpl in H. by rewrite H.
  - apply (f_equal on_authentication_complete_callbacks) in H. simpl in H.
    by rewrite H.
  - apply (f_equal on_connected_callbacks) in H. simpl in H. by rewrite H.
  - apply (f_equal on_disconnected_callbacks) in H. simpl in H. by rewrite H.
Qed.

Lemma same_but_queues_trans w1 w2 w3 :
  same_but_queues w1 w2 -> same_but_queues w2 w3 -> same_but_queues w1 w3.
Proof.
  intros H12 H23 q. specialize (H12 q). specialize (H23 q).
  rewrite <- H12, <- H23. by destruct (controllers w3 q).
Qed.

Lemma execute_in_loop_same_but_queues this f w :
  same_but_queues w (execute_in_loop this f w).
Proof. intros q. apply execute_in_loop_fields. Qed.

(** ** What a step writes *)

Lemma same_but_queues_refl w : same_but_queues w w.
Proof. intros q. unfold queue_of. by destruct (controllers w q). Qed.

Lemma only_queue_of_refl this w : only_queue_of this w w.
Proof. repeat split. apply same_but_queues_refl. Qed.

Lemma only_queue_of_trans this w1 w2 w3 :
  only_queue_of this w1 w2 -> only_queue_of this w2 w3 -> only_queue_of this w1 w3.
Proof.
  intros (G1 & P1 & B1 & S1 & Q1 & O1) (G2 & P2 & B2 & S2 & Q2 & O2).
  repeat split; try congruence.
  - by eapply same_but_queues_trans.
  - intros q Hq. by rewrite O2, O1.
Qed.

Lemma same_state_only_queue_of this w w' : same_state w w' -> only_queue_of this w w'.
Proof.
  intros (G & C & P & B & _ & _ & _ & _ & S).
  split; [done|]. split; [done|]. split; [done|]. split; [done|]. split.
  - intros q. rewrite C. apply same_but_queues_refl.
  - intros q _. apply C.
Qed.

(** Replacing the queue of [this] and adding an event. *)
Lemma requeue_only_queue_of this q e w :
  only_queue_of this w (emit e (store this (with_queue q (controllers w this)) w)).
Proof.
  split; [done|]. split; [done|]. split; [done|]. split; [done|]. split.
  - intros q0. unfold queue_of. simpl.
    case_decide; [subst|]; by destruct (controllers w _).
  - intros q0 Hq0. simpl. by rewrite decide_False.
Qed.

Lemma execute_in_loop_only_queue_of this f w :
  only_queue_of this w (execute_in_loop this f w).
Proof.
  unfold execute_in_loop.
  destruct (Queue.push _ _) as [[] q']; apply requeue_only_queue_of.
Qed.

Lemma invoke_only_queue_of this f w : only_queue_of this w (invoke this f w).
Proof.
  destruct f as [owner s|owner b|m|owner|owner|id fs];
    try (apply same_state_only_queue_of, invoke_quiet; congruence).
  simpl. revert w. induction fs as [|g fs IH]; intros w; simpl.
  - apply only_queue_of_refl.
  - eapply only_queue_of_trans; [apply execute_in_loop_only_queue_of|apply IH].
Qed.

Lemma loop_iteration_only_queue_of this w w' :
  loop_iteration this w = Some w' -> only_queue_of this w w'.
Proof.
  unfold loop_iteration. destruct (Queue.take _) as [[f q]|]; [|done].
  intros [= <-].
  eapply only_queue_of_trans; [apply requeue_only_queue_of|apply invoke_only_queue_of].
Qed.

Lemma loop_turns_only_queue_of turns this w :
  only_queue_of this w (loop_turns turns this w).
Proof.
  revert w. induction turns as [|turns IH]; intros w; simpl.
  - apply only_queue_of_refl.
  - destruct (loop_iteration this w) as [w'|] eqn:Hit; [|apply only_queue_of_refl].
    eapply only_queue_of_trans; [by eapply loop_iteration_only_queue_of|apply IH].
Qed.

(** A closure of this file, enqueued on an empty queue and drained: the
    observers are called by [loop], and by then only. *)
Lemma deferred_delivery g f w :
  (forall id fs, f <> Work id fs) ->
  pending g w = [] -> (0 < capacity (queue_of g w))%nat ->
  let w1 := execute_in_loop g f w in
  observer_calls (trace w1) = observer_calls (trace w) /\
  pending g w1 = [f] /\
  pending g (loop g w1) = [] /\
  observer_calls (trace (loop g w1)) = observer_calls (trace w) ++ deliveries f w.
Proof.
  intros Hf Hempty Hcap w1.
  assert (Queue.full (queue_of g w) = false) as Hroom.
  { unfold Queue.full. apply Nat.leb_gt. unfold pending, queue_of in *.
    rewrite Hempty. simpl. lia. }
  destruct (execute_in_loop_room g f w Hroom) as (Htr & Hpend & _).
  fold w1 in Htr, Hpend. rewrite Hempty in Hpend. simpl in Hpend.
  split; [apply execute_in_loop_observer_calls|]. split; [done|].
  split; [apply loop_drains|].
  rewrite loop_unfold.
  destruct (loop_iteration g w1) as [w2|] eqn:Hit;
    [|apply loop_iteration_None in Hit; congruence].
  apply loop_iteration_Some in Hit
    as (f' & rest & w0 & Hw1 & Hw0 & _ & _ & Htr0 & -> & Hsame).
  rewrite Hpend in Hw1. injection Hw1 as <- <-.
  assert (same_but_queues w w0) as Hsame'.
  { eapply same_but_queues_trans; [apply execute_in_loop_same_but_queues|done]. }
  rewrite loop_unfold.
  assert (loop_iteration g (invoke g f w0) = None) as ->.
  { apply loop_iteration_None.
    by rewrite (quiet_pending w0 _ g) by (by apply invoke_quiet). }
  rewrite invoke_observer_calls, Htr0, observer_calls_app. simpl.
  rewrite app_nil_r. unfold w1. rewrite execute_in_loop_observer_calls.
  by rewrite (same_but_queues_deliveries f w w0).
Qed.

(** ** Who calls the observers *)

Lemma ran_app tr1 tr2 : ran (tr1 ++ tr2) = ran tr1 ++ ran tr2.
Proof. apply omap_app. Qed.

Lemma no_bookkeeping_ran evs :
  Forall (fun e => is_bookkeeping e = false) evs -> ran evs = [].
Proof.
  induction 1 as [|e evs He _ IH]; [reflexivity|].
  destruct e; try discriminate He; exact IH.
Qed.

Lemma delivers_refl w : delivers w w.
Proof. split; [apply same_but_queues_refl|]. exists []. by rewrite app_nil_r. Qed.

Lemma delivers_trans w1 w2 w3 : delivers w1 w2 -> delivers w2 w3 -> delivers w1 w3.
Proof.
  intros [S1 (d1 & T1 & O1)] [S2 (d2 & T2 & O2)].
  split; [by eapply same_but_queues_trans|].
  exists (d1 ++ d2). split; [by rewrite T2, T1, <- app_assoc|].
  rewrite observer_calls_app, ran_app, flat_map_app, O1, O2. f_equal.
  apply flat_map_ext. intros f. by apply same_but_queues_deliveries.
Qed.

(** [execute_in_loop] runs no closure and calls no observer. *)
Lemma execute_in_loop_delivers this f w : delivers w (execute_in_loop this f w).
Proof.
  split; [apply execute_in_loop_same_but_queues|].
  unfold execute_in_loop. destruct (Queue.push _ _) as [[] q']; by eexists [_].
Qed.

Lemma execute_in_loop_ran this f w :
  ran (trace (execute_in_loop this f w)) = ran (trace w).
Proof.
  unfold execute_in_loop.
  destruct (Queue.push _ _) as [[] q']; simpl; rewrite ran_app; by rewrite app_nil_r.
Qed.

(** Running a closure takes no closure out of a queue. *)
Lemma invoke_ran this f w : ran (trace (invoke this f w)) = ran (trace w).
Proof.
  destruct f as [owner s|owner b|m|owner|owner|id fs];
    try (match goal with
         | |- context [invoke this ?f w] =>
             destruct (invoke_quiet this f w) as [_ (evs & -> & F)]; [congruence|]
         end;
         by rewrite ran_app, (no_bookkeeping_ran evs F), app_nil_r).
  simpl. revert w. induction fs as [|g fs IH]; intros w; simpl; [done|].
  by rewrite IH, execute_in_loop_ran.
Qed.

(** A turn runs the oldest closure [f] of the queue, and the observers
    called are the ones of [f], in the order of their list. *)
Lemma loop_iteration_calls q w w' :
  loop_iteration q w = Some w' ->
  same_but_queues w w' /\
  exists f rest during,
    pending q w = f :: rest /\
    trace w' = trace w ++ Invoked q f :: during /\
    observer_calls during = deliveries f w /\
    ran during = [].
Proof.
  intros Hit. split.
  { by destruct (loop_iteration_only_queue_of _ _ _ Hit) as (_ & _ & _ & _ & H & _). }
  apply loop_iteration_Some in Hit
    as (f & rest & w0 & Hw & _ & _ & _ & Htr0 & -> & Hsame).
  destruct (invoke_evolves q f w0) as [(during & Hd) _].
  exists f, rest, during. split; [done|]. split; [|split].
  - by rewrite Hd, Htr0, <- app_assoc.
  - pose proof (invoke_observer_calls q f w0) as H.
    rewrite Hd, observer_calls_app in H. apply app_inv_head in H.
    by rewrite H, (same_but_queues_deliveries f w w0).
  - pose proof (invoke_ran q f w0) as H.
    rewrite Hd, ran_app in H. rewrite <- (app_nil_r (ran (trace w0))) in H at 2.
    by apply app_inv_head in H.
Qed.

Lemma loop_iteration_delivers q w w' : loop_iteration q w = Some w' -> delivers w w'.
Proof.
  intros (Hsame & f & rest & during & _ & Htr & Hcalls & Hran)%loop_iteration_calls.
  split; [done|]. exists (Invoked q f :: during). split; [done|].
  change (ran (Invoked q f :: during)) with (f :: ran during).
  change (observer_calls (Invoked q f :: during)) with (observer_calls during).
  rewrite Hran, Hcalls. simpl. by rewrite app_nil_r.
Qed.

(** The closures the turns of [loop q] run are closures of the queue of
    [q]. *)
Lemma loop_turns_calls turns q w :
  delivers w (loop_turns turns q w) /\
  exists during,
    trace (loop_turns turns q w) = trace w ++ during /\
    ran during = invoked q during.
Proof.
  revert w. induction turns as [|turns IH]; intros w; simpl.
  - split; [apply delivers_refl|]. exists []. by rewrite app_nil_r.
  - destruct (loop_iteration q w) as [w'|] eqn:Hit.
    + destruct (IH w') as [Hdel (d2 & Hd2 & Hr2)]. split.
      * eapply delivers_trans; [by eapply loop_iteration_delivers|done].
      * apply loop_iteration_calls in Hit
          as (_ & f & rest & d1 & _ & Hd1 & _ & Hr1).
        exists ((Invoked q f :: d1) ++ d2). split; [by rewrite Hd2, Hd1, <- app_assoc|].
        rewrite ran_app, invoked_app, Hr2. f_equal.
        change (ran (Invoked q f :: d1)) with (f :: ran d1).
        assert (invoked q (Invoked q f :: d1) = f :: invoked q d1) as ->.
        { unfold invoked. simpl. by rewrite decide_True. }
        f_equal. rewrite Hr1. symmetry.
        clear -Hr1. induction d1 as [|e d1 IHd]; [done|].
        destruct e; simpl in *; try by apply IHd. discriminate.
    + split; [apply delivers_refl|]. exists []. by rewrite app_nil_r.
Qed.

Lemma run_step_delivers s w : delivers w (run_step s w).
Proof.
  destruct s as [q f|q|q]; simpl.
  - apply execute_in_loop_delivers.
  - destruct (loop_iteration q w) as [w'|] eqn:Hit; simpl.
    + by eapply loop_iteration_delivers.
    + apply delivers_refl.
  - apply loop_turns_calls.
Qed.

Lemma run_delivers steps w : delivers w (run steps w).
Proof.
  unfold run. revert w. induction steps as [|s steps IH]; intros w; simpl.
  - apply delivers_refl.
  - eapply delivers_trans; [apply run_step_delivers|apply IH].
Qed.

(** A closure is enqueued with room for it, and [loop] runs: the closures
    run are the ones that waited, then this one, then the ones accepted in
    the meantime, and the observers called are theirs, in this order. *)
Lemma delivery_in_turn g f w :
  consistent w ->
  Queue.full (queue_of g w) = false ->
  let w1 := execute_in_loop g f w in
  exists during,
    trace (loop g w1) = trace w1 ++ during /\
    observer_calls (trace (loop g w1))
    = observer_calls (trace w)
      ++ flat_map (fun f' => deliveries f' w) (pending g w ++ f :: accepted g during).
Proof.
  intros C Hroom w1.
  assert (consistent w1) as C1 by by apply execute_in_loop_consistent.
  assert (consistent (loop g w1)) as CL by by apply loop_turns_consistent.
  destruct (execute_in_loop_room g f w Hroom) as (_ & Hpend & _). fold w1 in Hpend.
  destruct (loop_turns_calls (waiting_weight g w1) g w1)
    as [[Hsame (d & Hd & Hcalls)] (d' & Hd' & Hran)].
  change (loop_turns (waiting_weight g w1) g w1) with (loop g w1) in *.
  rewrite Hd in Hd'. apply app_inv_head in Hd'. subst d'.
  exists d. split; [done|].
  assert (invoked g d = pending g w1 ++ accepted g d) as Hinv.
  { pose proof (CL g) as H. rewrite (loop_drains g w1), app_nil_r in H.
    rewrite Hd, accepted_app, invoked_app, (C1 g), <- app_assoc in H.
    by apply app_inv_head in H. }
  rewrite Hd, observer_calls_app, Hcalls, Hran, Hinv, Hpend, <- app_assoc.
  unfold w1 at 1. rewrite execute_in_loop_observer_calls. f_equal.
  apply flat_map_ext. intros f'. apply same_but_queues_deliveries.
  apply execute_in_loop_same_but_queues.
Qed.

(** C5. The callbacks of the stack for a completed authentication, a
    connection and a disconnection do one thing: they hand a closure to
    [execute_in_loop] of the global controller. That calls no observer,
    whatever the closure and the state of the queue. In every execution
    from [w], any interleaving of enqueue steps and loop steps, the
    observers called are the ones of the closures [loop] ran: closure by
    closure in the order they were run, and for each closure the callback
    list of its owner in the order of the list, which is the order of
    registration as each registration appends to it. One turn of [loop]
    calls the list of the one closure it takes. A closure enqueued with
    room for it is run by [loop] after the closures that waited before it,
    whatever they are, and before the ones accepted later; so are its
    observers called. With the queue empty before, [loop] calls exactly the
    observers of the controller that received the stack callback. *)
Theorem observers_are_called_from_loop_only (this g : instance) (w : world) :
  global_ble_controller w = Some g ->
  ((forall success,
      onAuthenticationComplete this success w
      = Some (execute_in_loop g (AuthenticationComplete this success) w)) /\
   onConnect this w = Some (execute_in_loop g (Connected this) w) /\
   onDisconnect this w = Some (execute_in_loop g (Disconnected this) w)) /\
  (forall f, observer_calls (trace (execute_in_loop g f w)) = observer_calls (trace w)) /\
  (forall steps,
     exists during,
       trace (run steps w) = trace w ++ during /\
       observer_calls during = flat_map (fun f => deliveries f w) (ran during)) /\
  (forall q w0 w1,
     loop_iteration q w0 = Some w1 ->
     exists f rest during,
       pending q w0 = f :: rest /\
       trace w1 = trace w0 ++ Invoked q f :: during /\
       observer_calls during = deliveries f w0 /\
       ran during = []) /\
  (forall w0,
     (forall success,
        deliveries (AuthenticationComplete this success) w0
        = map (CallAuthenticationComplete success)
              (on_authentication_complete_callbacks (controllers w0 this))) /\
     deliveries (Connected this) w0
     = map CallConnected (on_connected_callbacks (controllers w0 this)) /\
     deliveries (Disconnected this) w0
     = map CallDisconnected (on_disconnected_callbacks (controllers w0 this))) /\
  (consistent w -> Queue.full (queue_of g w) = false ->
   forall f,
     let w1 := execute_in_loop g f w in
     exists during,
       trace (loop g w1) = trace w1 ++ during /\
       observer_calls (trace (loop g w1))
       = observer_calls (trace w)
         ++ flat_map (fun f' => deliveries f' w) (pending g w)
         ++ deliveries f w
         ++ flat_map (fun f' => deliveries f' w) (accepted g during)) /\
  (pending g w = [] -> (0 < capacity (queue_of g w))%nat ->
   (forall success,
      observer_calls
        (trace (loop g (execute_in_loop g (AuthenticationComplete this success) w)))
      = observer_calls (trace w)
        ++ map (CallAuthenticationComplete success)
               (on_authentication_complete_callbacks (controllers w this))) /\
   observer_calls (trace (loop g (execute_in_loop g (Connected this) w)))
   = observer_calls (trace w)
     ++ map CallConnected (on_connected_callbacks (controllers w this)) /\
   observer_calls (trace (loop g (execute_in_loop g (Disconnected this) w)))
   = observer_calls (trace w)
     ++ map CallDisconnected (on_disconnected_callbacks (controllers w this))) /\
  (forall o c,
     on_authentication_complete_callbacks (add_on_authentication_complete_callback o c)
     = on_authentication_complete_callbacks c ++ [o] /\
     on_connected_callbacks (add_on_connected_callback o c)
     = on_connected_callbacks c ++ [o] /\
     on_disconnected_callbacks (add_on_disconnected_callback o c)
     = on_disconnected_callbacks c ++ [o]).
Proof.
  intros Hg. split; [|split; [|split; [|split; [|split; [|split; [|split]]]]]].
  - unfold onAuthenticationComplete, onConnect, onDisconnect. by rewrite Hg.
  - intros f. apply execute_in_loop_observer_calls.
  - intros steps. apply run_delivers.
  - intros q w0 w1 Hit. by apply loop_iteration_calls in Hit as [_ H].
  - done.
  - intros C Hroom f w1.
    destruct (delivery_in_turn g f w C Hroom) as (during & Hd & Hcalls).
    exists during. split; [done|]. fold w1 in Hcalls. rewrite Hcalls.
    by rewrite flat_map_app.
  - intros Hempty Hcap. split; [|split]; [intros success| |].
    + by destruct (deferred_delivery g (AuthenticationComplete this success) w)
        as (_ & _ & _ & ->).
    + by destruct (deferred_delivery g (Connected this) w) as (_ & _ & _ & ->).
    + by destruct (deferred_delivery g (Disconnected this) w) as (_ & _ & _ & ->).
  - done.
Qed.


(** C10 (the code departs from it). The delivered string always has six
    characters ([pass_key_str_length]), and below [2 ^ 31] it is made of
    the first six digits ([pass_key_str_digits]); but a pass key from
    [2 ^ 31] on is printed as a negative number: for 4294967295 the
    observers get [-00001], not [429496], and for 2147483648 they get
    [-21474], not [214748]. *)
Theorem onPassKeyNotify_pass_key_above_int_max :
  let w := with_global (Some 0%nat) (power_on 4) in
  pass_key_str 4294967295 = "-00001"%string /\
  pass_key_str 2147483648 = "-21474"%string /\
  option_map (pending 0) (onPassKeyNotify 0 4294967295 w)
  = Some [ShowPassKey 0 "-00001"] /\
  option_map (pending 0) (onPassKeyNotify 0 2147483648 w)
  = Some [ShowPassKey 0 "-21474"].
Proof. repeat split; reflexivity. Qed.

(** ** Setup of a controller *)

Lemma confined_refl this w : confined this w w.
Proof. split; [done|]. exists []. by rewrite app_nil_r. Qed.

Lemma confined_trans this w1 w2 w3 :
  confined this w1 w2 -> confined this w2 w3 -> confined this w1 w3.
Proof.
  intros [[G1 C1] (e1 & T1)] [[G2 C2] (e2 & T2)]. split; [split|].
  - congruence.
  - intros q Hq. by rewrite C2, C1.
  - exists (e1 ++ e2). by rewrite T2, T1, <- app_assoc.
Qed.

Lemma confined_emit this e w : confined this w (emit e w).
Proof. split; [done|]. by exists [e]. Qed.

Lemma confined_store this c w : confined this w (store this c w).
Proof.
  split; [split; [done|]|].
  - intros q Hq. simpl. by rewrite decide_False.
  - exists []. simpl. by rewrite app_nil_r.
Qed.

Lemma confined_bt_started this b w : confined this w (with_bt_started b w).
Proof. split; [done|]. exists []. simpl. by rewrite app_nil_r. Qed.

Lemma confined_servers_created this n w : confined this w (with_servers_created n w).
Proof. split; [done|]. exists []. simpl. by rewrite app_nil_r. Qed.

Ltac confined_steps :=
  repeat first
    [ apply confined_refl
    | eapply confined_trans;
      [|first [ apply confined_emit | apply confined_store
              | apply confined_bt_started | apply confined_servers_created ]] ].

Lemma initialize_ble_mode_confined BLE_ONLY this w :
  confined this w (initialize_ble_mode BLE_ONLY this w).
Proof. unfold initialize_ble_mode, on_this. confined_steps. Qed.

Lemma setup_ble_confined this w : confined this w (setup_ble this w).2.
Proof.
  unfold setup_ble. destruct (bt_started w); simpl; [confined_steps|].
  destruct (btStart_result w); simpl; [|confined_steps].
  destruct (esp_bluedroid_init_result w =? ESP_OK); simpl; [|confined_steps].
  destruct (esp_bluedroid_enable_result w =? ESP_OK); simpl; confined_steps.
Qed.

Lemma setup_ble_controllers this w :
  controllers (setup_ble this w).2 = controllers w.
Proof.
  unfold setup_ble. destruct (bt_started w); simpl; [done|].
  destruct (btStart_result w); simpl; [|done].
  destruct (esp_bluedroid_init_result w =? ESP_OK); simpl; [|done].
  by destruct (esp_bluedroid_enable_result w =? ESP_OK).
Qed.

Lemma setup_ble_starts this w :
  bluetooth_starts w -> (setup_ble this w).1 = true.
Proof.
  unfold setup_ble. intros [->|(Hstart & Hinit & Henable)]; [done|].
  destruct (bt_started w); [done|]. simpl. rewrite Hstart. simpl.
  rewrite Hinit, Henable. done.
Qed.

Lemma setup_handlers_confined this server entries w w' :
  setup_handlers server entries w = Some w' -> confined this w w'.
Proof.
  revert w. induction entries as [|[id [h|]] entries IH]; intros w; simpl.
  - intros [= <-]. apply confined_refl.
  - intros Hrest. eapply confined_trans; [apply confined_emit|by apply IH].
  - done.
Qed.

Lemma setup_handlers_returns server entries w :
  Forall (fun entry => entry.2 <> None) entries ->
  is_Some (setup_handlers server entries w).
Proof.
  intros Hentries. revert w.
  induction Hentries as [|[id [h|]] entries Hh _ IH]; intros w; simpl; [done| |done].
  apply IH.
Qed.

Lemma setup_ble_services_for_components_confined App Factory this w w' :
  setup_ble_services_for_components App Factory this w = Some w' ->
  confined this w w'.
Proof.
  unfold setup_ble_services_for_components. intros H.
  eapply confined_trans; [apply confined_store|].
  by eapply setup_handlers_confined.
Qed.

Lemma setup_ble_server_and_services_confined WIFI_ONLY App Factory this w w' :
  setup_ble_server_and_services WIFI_ONLY App Factory this w = Some w' ->
  confined this w w'.
Proof.
  unfold setup_ble_server_and_services, on_this.
  destruct (negb _).
  - intros H%setup_ble_services_for_components_confined.
    eapply confined_trans; [|exact H]. confined_steps.
  - intros [= <-]. confined_steps.
Qed.

Lemma enable_ble_security_confined this w :
  confined this w (enable_ble_security this w).
Proof. unfold enable_ble_security. destruct (negb _); confined_steps. Qed.

(** Materialisation keeps null pointers out of the registry when the
    factory returns none. *)
Lemma setup_ble_service_for_component_no_null component creator c :
  never_null creator -> no_null_handler c ->
  no_null_handler (setup_ble_service_for_component component creator c).
Proof.
  intros Hcreator Hc. unfold setup_ble_service_for_component.
  destruct (info_for_component c !! get_object_id component) as [info|]; [|done].
  intros id. simpl. destruct (decide (get_object_id component = id)) as [<-|Hid].
  - rewrite lookup_insert_eq. intros [= Hnull]. by apply (Hcreator component info).
  - rewrite lookup_insert_ne by done. apply Hc.
Qed.

Lemma setup_ble_services_for_components_of_no_null components creator c :
  never_null creator -> no_null_handler c ->
  no_null_handler (setup_ble_services_for_components_of components creator c).
Proof.
  intros Hcreator. unfold setup_ble_services_for_components_of. revert c.
  induction components as [|component components IH]; intros c Hc; simpl; [done|].
  by apply IH, setup_ble_service_for_component_no_null.
Qed.

Lemma no_null_handler_entries c :
  no_null_handler c ->
  Forall (fun entry => entry.2 <> None) (map_to_list (handler_for_component c)).
Proof.
  intros Hc. apply Forall_forall. intros [id pointer] Hin%elem_of_map_to_list.
  simpl. intros ->. by apply (Hc id).
Qed.

Lemma setup_ble_server_and_services_returns WIFI_ONLY App Factory this w :
  never_null (create_binary_sensor_handler Factory) ->
  never_null (create_sensor_handler Factory) ->
  never_null (create_switch_handler Factory) ->
  never_null (create_text_sensor_handler Factory) ->
  no_null_handler (controllers w this) ->
  is_Some (setup_ble_server_and_services WIFI_ONLY App Factory this w).
Proof.
  intros H1 H2 H3 H4 Hc. unfold setup_ble_server_and_services.
  destruct (negb _); [|done].
  unfold setup_ble_services_for_components.
  apply setup_handlers_returns, no_null_handler_entries.
  repeat (apply setup_ble_services_for_components_of_no_null; [done|]).
  unfold on_this. simpl. by rewrite decide_True.
Qed.

(** [setup] of the controller at [this], as far as the other objects, the
    global pointer and the trace go. *)
Lemma setup_confined BLE_ONLY WIFI_ONLY App Factory this w w' :
  setup BLE_ONLY WIFI_ONLY App Factory this w = Some w' ->
  (forall q, q <> this -> controllers w' q = controllers w q) /\
  (exists evs, trace w' = trace w ++ evs) /\
  match global_ble_controller w with
  | Some g => global_ble_controller w' = Some g
  | None => global_ble_controller w' = None \/ global_ble_controller w' = Some this
  end.
Proof.
  unfold setup.
  set (w1 := initialize_ble_mode BLE_ONLY this _).
  assert (confined this w w1) as H1.
  { eapply confined_trans; [apply confined_emit|apply initialize_ble_mode_confined]. }
  pose proof (setup_ble_confined this w1) as H2.
  destruct (setup_ble this w1) as [started w2]. simpl in H2.
  assert (confined this w w2) as [[G2 C2] T2] by by eapply confined_trans.
  destruct started; simpl.
  - set (w3 := match global_ble_controller w2 with Some _ => _ | None => _ end).
    destruct (setup_ble_server_and_services _ _ _ _ _) as [w4|] eqn:H4; [|done].
    intros [= <-].
    apply setup_ble_server_and_services_confined in H4.
    assert (confined this w4
              (emit (External BLEDevice_startAdvertising)
                 (enable_ble_security this
                    (emit (External (Controller_setup_controller this)) w4)))) as H5.
    { eapply confined_trans; [|apply confined_emit].
      eapply confined_trans; [|apply enable_ble_security_confined].
      apply confined_emit. }
    pose proof (confined_trans _ _ _ _ H4 H5) as [[G5 C5] (e5 & T5)].
    destruct T2 as (e2 & T2).
    assert ((forall q, q <> this -> controllers w3 q = controllers w2 q) /\
            exists e3, trace w3 = trace w2 ++ e3) as [C3 (e3 & T3)].
    { subst w3. destruct (global_ble_controller w2); simpl; (split; [done|]).
      - by eexists.
      - exists []. by rewrite app_nil_r. }
    split; [|split].
    + intros q Hq. rewrite (C5 q Hq). simpl. rewrite (C3 q Hq). by apply C2.
    + exists (e2 ++ e3 ++ (External (BLEDevice_init (get_name App)) :: e5)).
      rewrite T5. simpl. rewrite T3, T2. by rewrite <- !app_assoc.
    + rewrite G5. simpl. subst w3. rewrite <- G2.
      destruct (global_ble_controller w2) eqn:E; simpl; [done|by right].
  - intros [= <-]. split; [done|]. split; [done|].
    rewrite <- G2. destruct (global_ble_controller w2); [done|by left].
Qed.

(** With a controller registered and the Bluetooth controller available,
    [setup] of another controller logs the error. *)
Lemma setup_logs_second_instance BLE_ONLY WIFI_ONLY App Factory this g w w' :
  global_ble_controller w = Some g -> bluetooth_starts w ->
  setup BLE_ONLY WIFI_ONLY App Factory this w = Some w' ->
  exists before after,
    trace w' = trace w ++ before
               ++ Log LOGE "Already have an instance of the BLE controller" [] :: after.
Proof.
  intros Hg Hbt. unfold setup.
  set (w1 := initialize_ble_mode BLE_ONLY this _).
  assert (confined this w w1) as H1.
  { eapply confined_trans; [apply confined_emit|apply initialize_ble_mode_confined]. }
  assert (bluetooth_starts w1) as Hbt1 by exact Hbt.
  pose proof (setup_ble_confined this w1) as H2.
  pose proof (setup_ble_starts this w1 Hbt1) as Hstarted.
  destruct (setup_ble this w1) as [started w2]. simpl in H2, Hstarted. subst started.
  destruct (confined_trans _ _ _ _ H1 H2) as [[G2 _] (e2 & T2)]. simpl.
  rewrite G2, Hg.
  destruct (setup_ble_server_and_services _ _ _ _ _) as [w4|] eqn:H4; [|done].
  intros [= <-].
  apply setup_ble_server_and_services_confined in H4.
  assert (confined this w4
            (emit (External BLEDevice_startAdvertising)
               (enable_ble_security this
                  (emit (External (Controller_setup_controller this)) w4)))) as H5.
  { eapply confined_trans; [|apply confined_emit].
    eapply confined_trans; [|apply enable_ble_security_confined].
    apply confined_emit. }
  destruct (confined_trans _ _ _ _ H4 H5) as [_ (e5 & T5)].
  exists e2, (External (BLEDevice_init (get_name App)) :: e5).
  rewrite T5. simpl. rewrite T2. by rewrite <- !app_assoc.
Qed.

(** When the Bluetooth controller does not come up, [setup_ble] says so in
    an error. *)
Lemma setup_ble_failure_logged this w :
  (setup_ble this w).1 = false ->
  exists message args,
    trace (setup_ble this w).2
    = trace w ++ [Log LOGI "  Setting up BLE ..." [];
                  External esp_bt_controller_mem_release;
                  Log LOGE message args;
                  External (mark_failed this)].
Proof.
  unfold setup_ble. destruct (bt_started w); simpl; [done|].
  destruct (btStart_result w); simpl.
  - destruct (esp_bluedroid_init_result w =? ESP_OK); simpl.
    + destruct (esp_bluedroid_enable_result w =? ESP_OK); simpl; [done|].
      intros _. eexists _, _. by rewrite <- !app_assoc.
    + intros _. eexists _, _. by rewrite <- !app_assoc.
  - intros _. eexists _, _. by rewrite <- !app_assoc.
Qed.

(** [setup] of a controller while another one is registered logs an error:
    that the Bluetooth controller did not come up, or else that there is a
    controller already. *)
Lemma setup_logs_error BLE_ONLY WIFI_ONLY App Factory this g w w' :
  global_ble_controller w = Some g ->
  setup BLE_ONLY WIFI_ONLY App Factory this w = Some w' ->
  exists before message args after,
    trace w' = trace w ++ before ++ Log LOGE message args :: after.
Proof.
  intros Hg. unfold setup.
  set (w1 := initialize_ble_mode BLE_ONLY this _).
  assert (confined this w w1) as H1.
  { eapply confined_trans; [apply confined_emit|apply initialize_ble_mode_confined]. }
  pose proof (setup_ble_confined this w1) as H2.
  pose proof (setup_ble_failure_logged this w1) as Hfail.
  destruct (setup_ble this w1) as [started w2]. simpl in H2, Hfail.
  destruct started; simpl.
  - destruct (confined_trans _ _ _ _ H1 H2) as [[G2 _] (e2 & T2)].
    rewrite G2, Hg.
    destruct (setup_ble_server_and_services _ _ _ _ _) as [w4|] eqn:H4; [|done].
    intros [= <-].
    apply setup_ble_server_and_services_confined in H4.
    assert (confined this w4
              (emit (External BLEDevice_startAdvertising)
                 (enable_ble_security this
                    (emit (External (Controller_setup_controller this)) w4)))) as H5.
    { eapply confined_trans; [|apply confined_emit].
      eapply confined_trans; [|apply enable_ble_security_confined].
      apply confined_emit. }
    destruct (confined_trans _ _ _ _ H4 H5) as [_ (e5 & T5)].
    eexists e2, _, _, (External (BLEDevice_init (get_name App)) :: e5).
    rewrite T5. simpl. rewrite T2. by rewrite <- !app_assoc.
  - intros [= <-]. destruct (Hfail eq_refl) as (message & args & T2).
    eexists [_; _; _; _], message, args, [_].
    rewrite T2. by rewrite <- !app_assoc.
Qed.

(** C8. [setup] of a second controller while a first one is registered:
    the global pointer still refers to the first controller, and the object
    of the first controller, with its descriptor registry, its handler
    registry, its observer lists and its deferred queue, is as it was. An
    error is logged; with the Bluetooth controller running, or starting
    when asked to, it is the error that there is a controller already.
    [setup] does return when no handler pointer of the second controller
    is null and the factories return none. *)
Theorem second_controller_is_ignored
    (BLE_ONLY WIFI_ONLY : Z) (App : Application) (Factory : BLEComponentHandlerFactory)
    (first second : instance) (w : world) :
  global_ble_controller w = Some first ->
  second <> first ->
  (forall w', setup BLE_ONLY WIFI_ONLY App Factory second w = Some w' ->
     global_ble_controller w' = Some first /\
     controllers w' first = controllers w first /\
     (exists before message args after,
        trace w' = trace w ++ before ++ Log LOGE message args :: after) /\
     (bluetooth_starts w ->
      exists before after,
        trace w' = trace w ++ before
          ++ Log LOGE "Already have an instance of the BLE controller" [] :: after)) /\
  (never_null (create_binary_sensor_handler Factory) ->
   never_null (create_sensor_handler Factory) ->
   never_null (create_switch_handler Factory) ->
   never_null (create_text_sensor_handler Factory) ->
   no_null_handler (controllers w second) ->
   is_Some (setup BLE_ONLY WIFI_ONLY App Factory second w)).
Proof.
  intros Hg Hne. split.
  - intros w' Hsetup.
    destruct (setup_confined _ _ _ _ _ _ _ Hsetup) as (Hothers & _ & Hglobal).
    rewrite Hg in Hglobal. split; [done|]. split; [by apply Hothers|].
    split; [by eapply setup_logs_error|].
    intros Hbt. by eapply setup_logs_second_instance.
  - intros F1 F2 F3 F4 Hnull. unfold setup.
    destruct (setup_ble _ _) as [[] w2] eqn:Hble; simpl; [|done].
    match goal with
    | |- is_Some (match ?s with Some _ => _ | None => _ end) =>
        assert (is_Some s) as [w4 ->]; [|done]
    end.
    apply setup_ble_server_and_services_returns; try done.
    pose proof (setup_ble_controllers second
                  (initialize_ble_mode BLE_ONLY second
                     (emit (Log LOGCONFIG "Setting up BLE controller..." []) w)))
      as Hobjects.
    rewrite Hble in Hobjects. simpl in Hobjects.
    assert (handler_for_component (controllers w2 second)
            = handler_for_component (controllers w second)) as Hsame.
    { rewrite Hobjects. by rewrite decide_True. }
    intros id. destruct (global_ble_controller w2); simpl; rewrite Hsame; apply Hnull.
Qed.

(** * Worked instances *)

Example busy_trace :
  trace (loop 0 (run busy (power_on 2)))
  = [Accepted 0 (Work 1 [LogDebug "a"; Work 2 [LogDebug "b"]]);
     Accepted 0 (Connected 0);
     Log LOGW "Deferred functions queue full" [];
     Invoked 0 (Work 1 [LogDebug "a"; Work 2 [LogDebug "b"]]);
     Accepted 0 (LogDebug "a");
     Log LOGW "Deferred functions queue full" [];
     Log LOGW "Deferred functions queue full" [];
     Invoked 0 (Connected 0);
     Log LOGD "BLE server - connected" [];
     Invoked 0 (LogDebug "a");
     Log LOGD "a" []].
Proof. reflexivity. Qed.

Lemma power_on_consistent size : consistent (power_on size).
Proof. intros q. reflexivity. Defined.

Lemma power_on_bounded size : bounded (power_on size).
Proof. intros q. apply Nat.le_0_l. Defined.

Lemma exposing_consistent : consistent exposing.
Proof. intros q. unfold pending, exposing. simpl. case_decide; reflexivity. Defined.

Lemma deferred_functions_run_once_in_order_witness :
  consistent exposing /\
  Open.settles 2 reporting silent weight 0 /\
  accepted 0 (trace (Open.run 2 reporting silent reports exposing))
  = invoked 0 (trace (Open.run 2 reporting silent reports exposing))
    ++ pending 0 (Open.run 2 reporting silent reports exposing) /\
  Open.loop_iteration 2 reporting silent 0 (Open.run 2 reporting silent reports exposing)
  = Some (Open.perform 2
            [Do_update_component_state 0 outdoor (FloatState 3)]
            (taken 0 (Work 3 []) [Work 2 []; LogDebug "a"; LogDebug "mid"]
               (Open.run 2 reporting silent reports exposing))) /\
  exists fuel w'',
    Open.loop 2 reporting silent fuel 0 (Open.run 2 reporting silent reports exposing)
    = Some w'' /\
    pending 0 w'' = [] /\
    invoked 0 (trace w'') = accepted 0 (trace w'').
Proof.
  split; [exact exposing_consistent|]. split; [exact (reporting_settles 2 0)|].
  pose proof (deferred_functions_run_once_in_order 2 reporting silent reports
                exposing 0 exposing_consistent) as H.
  cbv zeta in H. destruct H as (Hall & _ & Hturn & _ & _ & _ & Hloop & _ & Hreturns & _).
  split; [exact Hall|].
  split; [exact (Hturn 3%nat [] [Work 2 []; LogDebug "a"; LogDebug "mid"] eq_refl)|].
  destruct (Hreturns weight (reporting_settles 2 0)) as (fuel & w'' & Hw'').
  exists fuel, w''. split; [exact Hw''|].
  destruct (Hloop fuel w'' Hw'') as (Hempty & Hrun & _).
  split; [exact Hempty|exact Hrun].
Defined.

(** The closures of [reports] are run once each and oldest first, and each
    reports when it is run: the first with one closure behind it, the next
    with three, the last of them with two. *)
Example reports_trace :
  let h := {| handler_component := outdoor;
              handler_info := {| service_UUID := "181A";
                                 characteristic_UUID := "2A6E";
                                 use_BLE2902 := true |} |} in
  option_map trace
    (Open.loop 2 reporting silent 6 0 (Open.run 2 reporting silent reports exposing))
  = Some [Accepted 0 (Work 1 [Work 2 []; LogDebug "a"]);
          Accepted 0 (Work 3 []);
          Invoked 0 (Work 1 [Work 2 []; LogDebug "a"]);
          SendValue h (FloatState 1);
          Accepted 0 (Work 2 []);
          Accepted 0 (LogDebug "a");
          Accepted 0 (LogDebug "mid");
          Invoked 0 (Work 3 []);
          SendValue h (FloatState 3);
          Invoked 0 (Work 2 []);
          SendValue h (FloatState 2);
          Invoked 0 (LogDebug "a");
          Log LOGD "a" [];
          Invoked 0 (LogDebug "mid");
          Log LOGD "mid" []].
Proof. vm_compute. reflexivity. Qed.

(** Observers that make calls: each observer of the connection switches
    the mode and has a closure enqueued, which [loop] runs in the same
    call. *)
Example reacting_trace :
  option_map trace
    (Open.loop 2 enqueuing reacting 4 0 (execute_in_loop 0 (Connected 0) serving))
  = Some [Accepted 0 (Connected 0);
          Invoked 0 (Connected 0);
          Log LOGD "BLE server - connected" [];
          CallConnected 31;
          Log LOGI "Updating BLE mode to %d" [1];
          PreferenceSave 1;
          SafeReboot;
          Accepted 0 (Work 31 []);
          CallConnected 32;
          Log LOGI "Updating BLE mode to %d" [1];
          Accepted 0 (Work 32 []);
          Invoked 0 (Work 31 []);
          Invoked 0 (Work 32 [])].
Proof. vm_compute. reflexivity. Qed.

Lemma deferred_queue_is_bounded_witness :
  bounded (power_on 2) /\
  Queue.full (queue_of 0 (run busy (power_on 2))) = true /\
  (length (pending 0 (run busy (power_on 2))) <= 2)%nat /\
  trace (execute_in_loop 0 (LogDebug "dropped") (run busy (power_on 2)))
  = trace (run busy (power_on 2)) ++ [Log LOGW "Deferred functions queue full" []].
Proof.
  split; [apply power_on_bounded|]. split; [reflexivity|].
  pose proof (deferred_queue_is_bounded busy (power_on 2) 0 (LogDebug "dropped")
                (power_on_bounded 2)) as [Hbound Hfull].
  split; [exact (proj1 (Hbound 0%nat))|].
  exact (proj2 (proj2 (Hfull eq_refl))).
Defined.

Lemma set_ble_mode_cases_witness :
  (same_state serving (set_ble_mode 2 0 2 serving)) /\
  (ble_mode (controllers (set_ble_mode 2 0 1 serving) 0) = 1 /\
   ble_mode_preference (set_ble_mode 2 0 1 serving) = Some 1 /\
   restart_requests (trace (set_ble_mode 2 0 1 serving)) = 1%nat) /\
  (same_state serving (set_ble_mode 2 0 3 serving)).
Proof.
  split; [|split].
  - pose proof (set_ble_mode_cases 2 0 2 serving) as (Hsame & _).
    exact (proj1 (Hsame eq_refl)).
  - pose proof (set_ble_mode_cases 2 0 1 serving) as (_ & Hnew & _).
    assert (1 <> ble_mode (controllers serving 0)) as Hne by discriminate.
    assert (1 <= 2) as Hle by discriminate.
    destruct (Hnew Hne Hle) as (Hobject & Hstored & _ & _ & Hrestart).
    split; [|split].
    + rewrite Hobject. reflexivity.
    + exact Hstored.
    + exact Hrestart.
  - pose proof (set_ble_mode_cases 2 0 3 serving) as (_ & _ & Hreject & _).
    assert (3 > 2) as Hgt by reflexivity.
    exact (proj1 (Hreject Hgt)).
Defined.

Lemma initialize_ble_mode_default_witness :
  ble_mode_preference serving = None /\
  ble_mode (controllers (initialize_ble_mode 0 0 serving) 0) = 0 /\
  ble_mode_preference (initialize_ble_mode 0 0 serving) = None.
Proof.
  split; [reflexivity|].
  pose proof (initialize_ble_mode_default 0 0 serving eq_refl) as (Hmode & Hstored & _).
  split; [exact Hmode|exact Hstored].
Defined.

Lemma serving_consistent : consistent serving.
Proof. intros q. unfold pending, serving, on_this. simpl. repeat case_decide; reflexivity. Defined.

Lemma observers_are_called_from_loop_only_witness :
  global_ble_controller serving = Some 0%nat /\
  onConnect 0 serving = Some (execute_in_loop 0 (Connected 0) serving) /\
  observer_calls (trace (execute_in_loop 0 (Connected 0) serving)) = [] /\
  observer_calls (trace (loop 0 (execute_in_loop 0 (Connected 0) serving)))
  = [CallConnected 31; CallConnected 32] /\
  consistent disconnecting /\
  Queue.full (queue_of 0 disconnecting) = false /\
  exists during,
    trace (loop 0 (execute_in_loop 0 (Connected 0) disconnecting))
    = trace (execute_in_loop 0 (Connected 0) disconnecting) ++ during /\
    observer_calls (trace (loop 0 (execute_in_loop 0 (Connected 0) disconnecting)))
    = [] ++ [CallDisconnected 41; CallDisconnected 42]
         ++ [CallConnected 31; CallConnected 32]
         ++ flat_map (fun f => deliveries f disconnecting) (accepted 0 during).
Proof.
  split; [reflexivity|].
  pose proof (observers_are_called_from_loop_only 0 0 serving eq_refl)
    as ((_ & Hconnect & _) & Hquiet & _ & _ & _ & _ & Hloop & _).
  split; [exact Hconnect|]. split; [exact (Hquiet (Connected 0%nat))|].
  assert (pending 0 serving = []) as Hempty by reflexivity.
  assert (0 < capacity (queue_of 0 serving))%nat as Hcap by (apply Nat.lt_0_succ).
  split; [exact (proj1 (proj2 (Hloop Hempty Hcap)))|].
  assert (consistent disconnecting) as Hconsistent
    by (apply execute_in_loop_consistent, serving_consistent).
  assert (Queue.full (queue_of 0 disconnecting) = false) as Hroom by reflexivity.
  split; [exact Hconsistent|]. split; [exact Hroom|].
  pose proof (observers_are_called_from_loop_only 0 0 disconnecting eq_refl)
    as (_ & _ & _ & _ & _ & Hturn & _).
  exact (Hturn Hconsistent Hroom (Connected 0%nat)).
Defined.

(** The same, computed: the observers of the disconnection that waited are
    called before the ones of the connection. *)
Example delivery_in_turn_trace :
  observer_calls
    (trace (loop 0 (execute_in_loop 0 (Connected 0) disconnecting)))
  = [CallDisconnected 41; CallDisconnected 42; CallConnected 31; CallConnected 32].
Proof. reflexivity. Qed.


Lemma bind_handler_never_null : never_null bind_handler.
Proof. intros component info. discriminate. Defined.

Lemma serving_no_null_handler q : no_null_handler (controllers serving q).
Proof.
  intros id. unfold serving, on_this. simpl.
  repeat case_decide; simpl; rewrite lookup_empty; discriminate.
Defined.

Lemma second_controller_is_ignored_witness :
  global_ble_controller serving = Some 0%nat /\
  1%nat <> 0%nat /\
  exists w', setup 0 2 one_sensor plain_factory 1 serving = Some w' /\
             global_ble_controller w' = Some 0%nat /\
             controllers w' 0 = controllers serving 0.
Proof.
  split; [reflexivity|]. split; [discriminate|].
  assert (1%nat <> 0%nat) as Hne by discriminate.
  pose proof (second_controller_is_ignored 0 2 one_sensor plain_factory 0 1 serving
                eq_refl Hne) as [Hframe Hreturns].
  destruct (Hreturns bind_handler_never_null bind_handler_never_null
              bind_handler_never_null bind_handler_never_null
              (serving_no_null_handler 1)) as [w' Hsetup].
  exists w'. split; [exact Hsetup|].
  destruct (Hframe w' Hsetup) as (Hglobal & Hfirst & _ & _).
  split; [exact Hglobal|exact Hfirst].
Defined.

Example second_setup_trace :
  option_map trace (setup 0 2 one_sensor plain_factory 1 serving)
  = Some [Log LOGCONFIG "Setting up BLE controller..." [];
          Log LOGCONFIG "BLE mode: %d" [0];
          Log LOGI "BLE already started" [];
          Log LOGE "Already have an instance of the BLE controller" [];
          External (BLEDevice_init "node");
          External (BLEDevice_createServer 0);
          External (BLEServer_setCallbacks 0 1);
          External (BLEMaintenanceHandler_setup 1 0);
          External (BLEComponentHandler_setup
                      {| handler_component := outdoor;
                         handler_info := {| service_UUID := "181A";
                                            characteristic_UUID := "2A6E";
                                            use_BLE2902 := true |} |}
                      (Some 0%nat));
          External (Controller_setup_controller 1);
          Log LOGD "  Setting up BLE security" [];
          External BLEDevice_setEncryptionLevel;
          External (BLEDevice_setSecurityCallbacks 1);
          External BLESecurity_setAuthenticationMode;
          External BLESecurity_setCapability;
          External BLESecurity_setInitEncryptionKey;
          External BLESecurity_setRespEncryptionKey;
          External (BLESecurity_setKeySize 16);
          External esp_ble_gap_set_security_param;
          External BLEDevice_startAdvertising].
Proof. vm_compute. reflexivity. Qed.

Lemma register_component_last_write_wins_witness :
  In outdoor [outdoor] /\
  handler_for_component
    (setup_ble_services_for_components_of [outdoor] bind_handler
       (register_component outdoor "181A" "2A6E" true
          (register_component outdoor "180F" "2A19" false (new_controller 4))))
    !! get_object_id outdoor
  = Some (Some {| handler_component := outdoor;
                  handler_info := {| service_UUID := "181A";
                                     characteristic_UUID := "2A6E";
                                     use_BLE2902 := true |} |}).
Proof.
  assert (In outdoor [outdoor]) as Hin by (left; reflexivity).
  split; [exact Hin|].
  exact (proj2 (proj2 (proj2
           (register_component_last_write_wins outdoor "180F" "2A19" false
              "181A" "2A6E" true bind_handler (new_controller 4))))
           [outdoor] Hin).
Defined.

(** * Further properties *)

(** ** The mode over restarts *)

Lemma initialize_ble_mode_in_sync BLE_ONLY this w :
  mode_in_sync BLE_ONLY this (initialize_ble_mode BLE_ONLY this w).
Proof.
  unfold mode_in_sync, stored_mode, initialize_ble_mode. simpl.
  by rewrite decide_True.
Qed.

Lemma set_ble_mode_in_sync BLE_ONLY WIFI_ONLY this newMode w :
  mode_in_sync BLE_ONLY this w ->
  mode_in_sync BLE_ONLY this (set_ble_mode WIFI_ONLY this newMode w).
Proof.
  unfold mode_in_sync, stored_mode, set_ble_mode. intros Hsync.
  destruct (newMode >? WIFI_ONLY); [done|]. simpl.
  destruct (ble_mode (controllers w this) =? newMode); simpl; [done|].
  by rewrite !decide_True.
Qed.

Lemma set_ble_mode_requests_in_sync BLE_ONLY WIFI_ONLY this requests w :
  mode_in_sync BLE_ONLY this w ->
  mode_in_sync BLE_ONLY this
    (fold_left (fun w newMode => set_ble_mode WIFI_ONLY this newMode w) requests w).
Proof.
  revert w. induction requests as [|newMode requests IH]; intros w Hsync; [done|].
  simpl. by apply IH, set_ble_mode_in_sync.
Qed.

(** X1. The mode survives a restart: after [initialize_ble_mode] and any
    sequence of [set_ble_mode] requests on the controller, accepted or
    rejected, the mode in memory is the one [initialize_ble_mode] loads
    again, so that running it once more leaves the mode as it is. *)
Theorem restart_restores_mode
    (BLE_ONLY WIFI_ONLY : Z) (this : instance) (requests : list Z) (w : world) :
  let w1 := fold_left (fun w newMode => set_ble_mode WIFI_ONLY this newMode w)
                      requests (initialize_ble_mode BLE_ONLY this w) in
  ble_mode (controllers w1 this) = stored_mode BLE_ONLY w1 /\
  ble_mode (controllers (initialize_ble_mode BLE_ONLY this w1) this)
  = ble_mode (controllers w1 this).
Proof.
  intros w1.
  assert (mode_in_sync BLE_ONLY this w1) as Hsync
    by apply set_ble_mode_requests_in_sync, initialize_ble_mode_in_sync.
  split; [exact Hsync|].
  rewrite Hsync. unfold initialize_ble_mode, stored_mode. simpl.
  by rewrite decide_True.
Qed.

Lemma set_ble_mode_rejected WIFI_ONLY this newMode w :
  (newMode >? WIFI_ONLY) = true ->
  set_ble_mode WIFI_ONLY this newMode w
  = emit (Log LOGI "Ignoring unsupported BLE mode %d" [newMode]) w.
Proof. intros H. unfold set_ble_mode. by rewrite H. Qed.

Lemma set_ble_mode_same WIFI_ONLY this newMode w :
  (newMode >? WIFI_ONLY) = false ->
  ble_mode (controllers w this) = newMode ->
  set_ble_mode WIFI_ONLY this newMode w
  = emit (Log LOGI "Updating BLE mode to %d" [newMode]) w.
Proof.
  intros H Hsame. unfold set_ble_mode. rewrite H. simpl.
  by rewrite Hsame, Z.eqb_refl.
Qed.

Lemma set_ble_mode_accepted WIFI_ONLY this newMode w :
  (newMode >? WIFI_ONLY) = false ->
  ble_mode (controllers (set_ble_mode WIFI_ONLY this newMode w) this) = newMode.
Proof.
  intros H. unfold set_ble_mode. rewrite H. simpl.
  destruct (Z.eqb_spec (ble_mode (controllers w this)) newMode); simpl; [done|].
  by rewrite decide_True.
Qed.

(** X2. Asking twice for the same mode is asking once: whatever the value,
    the second [set_ble_mode] writes nothing, requests no restart and
    changes no state; it only logs. The mode in memory after a request is
    the mode before it or a value not above [WIFI_ONLY]. *)
Theorem set_ble_mode_twice
    (WIFI_ONLY : Z) (this : instance) (newMode : Z) (w : world) :
  let w1 := set_ble_mode WIFI_ONLY this newMode w in
  let w2 := set_ble_mode WIFI_ONLY this newMode w1 in
  same_state w1 w2 /\
  preference_writes (trace w2) = preference_writes (trace w1) /\
  restart_requests (trace w2) = restart_requests (trace w1) /\
  (ble_mode (controllers w1 this) = ble_mode (controllers w this) \/
   ble_mode (controllers w1 this) = newMode /\ newMode <= WIFI_ONLY).
Proof.
  intros w1 w2.
  assert (exists message, w2 = emit (Log LOGI message [newMode]) w1) as [message Hw2].
  { subst w2. destruct (newMode >? WIFI_ONLY) eqn:Hrange.
    - eexists. by apply set_ble_mode_rejected.
    - eexists. apply set_ble_mode_same; [done|]. by apply set_ble_mode_accepted. }
  assert (ble_mode (controllers w1 this) = ble_mode (controllers w this) \/
          ble_mode (controllers w1 this) = newMode /\ newMode <= WIFI_ONLY) as Hmode.
  { subst w1. destruct (Z.gtb_spec newMode WIFI_ONLY) as [Hgt|Hle].
    - left. rewrite set_ble_mode_rejected; [done|]. by apply Z.gtb_lt.
    - right. split; [|done]. apply set_ble_mode_accepted.
      destruct (Z.gtb_spec newMode WIFI_ONLY); [lia|done]. }
  rewrite Hw2. split; [apply same_state_emit|]. split; [|split; [|exact Hmode]].
  - unfold preference_writes. simpl. rewrite omap_app. simpl. by rewrite app_nil_r.
  - unfold restart_requests. simpl. rewrite List.filter_app, length_app. simpl. lia.
Qed.

(** ** Descriptors and handlers *)

Lemma with_handlers_idem m m' c :
  with_handlers m (with_handlers m' c) = with_handlers m c.
Proof. reflexivity. Qed.

Lemma with_handlers_same c : with_handlers (handler_for_component c) c = c.
Proof. by destruct c. Qed.

Lemma setup_ble_service_for_component_fields component creator c :
  setup_ble_service_for_component component creator c
  = with_handlers
      (handler_for_component (setup_ble_service_for_component component creator c)) c.
Proof.
  unfold setup_ble_service_for_component.
  destruct (info_for_component c !! get_object_id component); simpl; [done|].
  by rewrite with_handlers_same.
Qed.

Lemma setup_ble_service_for_component_elsewhere component creator c id :
  info_for_component c !! id = None \/ get_object_id component <> id ->
  handler_for_component (setup_ble_service_for_component component creator c) !! id
  = handler_for_component c !! id.
Proof.
  intros Hid. unfold setup_ble_service_for_component.
  destruct (info_for_component c !! get_object_id component) as [info|] eqn:Hinfo;
    [|done].
  simpl. apply lookup_insert_ne. destruct Hid as [Hnone|Hne]; [|done].
  intros Heq. rewrite Heq in Hinfo. congruence.
Qed.

Lemma setup_ble_service_for_component_described component creator c :
  handlers_have_descriptors c ->
  handlers_have_descriptors (setup_ble_service_for_component component creator c).
Proof.
  intros Hc id. rewrite setup_ble_service_for_component_info.
  destruct (decide (get_object_id component = id)) as [<-|Hid].
  - unfold setup_ble_service_for_component.
    destruct (info_for_component c !! get_object_id component) eqn:Hinfo; [done|].
    rewrite <- Hinfo. apply Hc.
  - rewrite setup_ble_service_for_component_elsewhere by (by right). apply Hc.
Qed.

Lemma setup_ble_services_for_components_of_info components creator c :
  info_for_component (setup_ble_services_for_components_of components creator c)
  = info_for_component c.
Proof.
  unfold setup_ble_services_for_components_of. revert c.
  induction components as [|component components IH]; intros c; simpl; [done|].
  by rewrite IH, setup_ble_service_for_component_info.
Qed.

Lemma setup_ble_services_for_components_of_fields components creator c :
  setup_ble_services_for_components_of components creator c
  = with_handlers
      (handler_for_component
         (setup_ble_services_for_components_of components creator c)) c.
Proof.
  unfold setup_ble_services_for_components_of. revert c.
  induction components as [|component components IH]; intros c; simpl.
  - by rewrite with_handlers_same.
  - rewrite IH at 1. rewrite (setup_ble_service_for_component_fields _ _ c) at 2.
    by rewrite with_handlers_idem.
Qed.

Lemma setup_ble_services_for_components_of_elsewhere components creator c id :
  info_for_component c !! id = None \/
  (forall component, In component components -> get_object_id component <> id) ->
  handler_for_component (setup_ble_services_for_components_of components creator c) !! id
  = handler_for_component c !! id.
Proof.
  unfold setup_ble_services_for_components_of. revert c.
  induction components as [|component components IH]; intros c Hid; simpl; [done|].
  rewrite IH.
  - apply setup_ble_service_for_component_elsewhere.
    destruct Hid as [Hnone|Hne]; [by left|right]. apply Hne. by left.
  - rewrite setup_ble_service_for_component_info.
    destruct Hid as [Hnone|Hne]; [by left|right].
    intros other Hin. apply Hne. by right.
Qed.

Lemma setup_ble_services_for_components_of_described components creator c :
  handlers_have_descriptors c ->
  handlers_have_descriptors (setup_ble_services_for_components_of components creator c).
Proof.
  unfold setup_ble_services_for_components_of. revert c.
  induction components as [|component components IH]; intros c Hc; simpl; [done|].
  by apply IH, setup_ble_service_for_component_described.
Qed.

(** X3. Making the handlers of the components of a kind is opt-in and
    writes the handler registry only: a component without a descriptor
    gets no entry, identifiers of no component of the list keep what they
    had, the descriptors and every other field of the controller stay, and
    when every handler entry had a descriptor before, so it is after. *)
Theorem materialization_is_opt_in
    (components : list Nameable) (creator : handler_creator) (c : ESP32BLEController) :
  let c' := setup_ble_services_for_components_of components creator c in
  c' = with_handlers (handler_for_component c') c /\
  (forall id, info_for_component c !! id = None ->
              handler_for_component c' !! id = handler_for_component c !! id) /\
  (forall id, (forall component, In component components ->
                                 get_object_id component <> id) ->
              handler_for_component c' !! id = handler_for_component c !! id) /\
  (handlers_have_descriptors c -> handlers_have_descriptors c').
Proof.
  intros c'. split; [apply setup_ble_services_for_components_of_fields|].
  split; [|split].
  - intros id Hnone. apply setup_ble_services_for_components_of_elsewhere. by left.
  - intros id Hne. apply setup_ble_services_for_components_of_elsewhere. by right.
  - apply setup_ble_services_for_components_of_described.
Qed.

(** X4. [update_component_state] writes nothing but the handler registry
    of its controller, and of that only the entry of the component: other
    controllers, the global pointer, the preferences and the other fields
    are untouched; other entries keep their pointers; the entry of the
    component keeps its pointer when it has one and becomes a null pointer
    when it was absent. One value is sent when the pointer is not null,
    and nothing happens else. *)
Theorem update_component_state_frame
    (this : instance) (component : Nameable) (state : state_value) (w : world) :
  let id := get_object_id component in
  let before := handler_for_component (controllers w this) in
  let w' := update_component_state this component state w in
  let after := handler_for_component (controllers w' this) in
  global_ble_controller w' = global_ble_controller w /\
  ble_mode_preference w' = ble_mode_preference w /\
  (forall q, q <> this -> controllers w' q = controllers w q) /\
  controllers w' this = with_handlers after (controllers w this) /\
  (forall other, other <> id -> after !! other = before !! other) /\
  after !! id = Some (default None (before !! id)) /\
  trace w' = trace w ++ match before !! id with
                        | Some (Some h) => [SendValue h state]
                        | _ => []
                        end.
Proof.
  intros id before w' after. subst id before after w'.
  unfold update_component_state.
  destruct (handler_for_component (controllers w this) !! get_object_id component)
    as [[h|]|] eqn:Hentry; simpl; rewrite ?decide_True by done; simpl;
    rewrite ?app_nil_r.
  - repeat split; try done.
    + intros q Hq. by rewrite decide_False.
    + by rewrite with_handlers_same.
  - repeat split; try done.
    + intros q Hq. by rewrite decide_False.
    + by rewrite with_handlers_same.
  - repeat split; try done.
    + intros q Hq. by rewrite decide_False.
    + intros other Hother. by rewrite lookup_insert_ne.
    + by rewrite lookup_insert_eq.
Qed.

(** X5. From configuration to delivery: a component that was registered
    with a descriptor and is among the components handlers are made for,
    with a factory that returns a handler for it, has its state updates
    sent to exactly that handler, and the update leaves the handler
    registry as it is. *)
Theorem registered_component_receives_updates
    (this : instance) (component : Nameable)
    (serviceUUID characteristic_UUID : string) (use_BLE2902 : bool)
    (components : list Nameable) (creator : handler_creator)
    (h : BLEComponentHandlerBase) (c : ESP32BLEController)
    (state : state_value) (w : world) :
  In component components ->
  creator component {| service_UUID := serviceUUID;
                       characteristic_UUID := characteristic_UUID;
                       use_BLE2902 := use_BLE2902 |} = Some h ->
  controllers w this
  = setup_ble_services_for_components_of components creator
      (register_component component serviceUUID characteristic_UUID use_BLE2902 c) ->
  let w' := update_component_state this component state w in
  trace w' = trace w ++ [SendValue h state] /\
  handler_for_component (controllers w' this) = handler_for_component (controllers w this).
Proof.
  intros Hin Hcreator Hobject.
  apply update_component_state_present. rewrite Hobject, <- Hcreator.
  apply materialized; [|done].
  unfold register_component. simpl. by rewrite lookup_insert_eq.
Qed.

(** X6. Registering a descriptor never changes where state updates go:
    [register_component] leaves the handler registry alone, so an update
    after a registration, of whatever component, sends what it would have
    sent without it. A descriptor registered after the handlers are made
    has no effect on them. *)
Theorem registration_leaves_handlers
    (this : instance) (registered updated : Nameable)
    (serviceUUID characteristic_UUID : string) (use_BLE2902 : bool)
    (state : state_value) (w : world) :
  let w1 := on_this this
              (register_component registered serviceUUID characteristic_UUID use_BLE2902)
              w in
  handler_for_component (controllers w1 this) = handler_for_component (controllers w this) /\
  trace (update_component_state this updated state w1)
  = trace (update_component_state this updated state w) /\
  handler_for_component (controllers (update_component_state this updated state w1) this)
  = handler_for_component (controllers (update_component_state this updated state w) this).
Proof.
  intros w1. subst w1. unfold update_component_state, on_this, register_component.
  simpl. rewrite !decide_True by done. simpl. split; [done|].
  destruct (handler_for_component (controllers w this) !! get_object_id updated)
    as [[h|]|]; simpl; by rewrite ?decide_True.
Qed.

Lemma setup_handlers_null server entries w id :
  (id, None) ∈ entries -> setup_handlers server entries w = None.
Proof.
  revert w. induction entries as [|[k [h|]] entries IH]; intros w Hin; simpl.
  - by apply not_elem_of_nil in Hin.
  - apply IH. apply elem_of_cons in Hin as [Hhead|Hin]; [congruence|done].
  - done.
Qed.

Lemma materialize_elsewhere App Factory c id :
  info_for_component c !! id = None ->
  handler_for_component (materialize App Factory c) !! id
  = handler_for_component c !! id.
Proof.
  intros Hnone. unfold materialize.
  rewrite !setup_ble_services_for_components_of_elsewhere; try done;
    left; by rewrite ?setup_ble_services_for_components_of_info.
Qed.

(** A null pointer in the handler registry under an identifier without
    descriptor is still there when the handlers are set up, and is
    dereferenced. *)
Lemma setup_ble_services_for_components_null App Factory this w id :
  handler_for_component (controllers w this) !! id = Some None ->
  info_for_component (controllers w this) !! id = None ->
  setup_ble_services_for_components App Factory this w = None.
Proof.
  intros Hnull Hnone. unfold setup_ble_services_for_components.
  apply (setup_handlers_null _ _ _ id). apply elem_of_map_to_list.
  fold (materialize App Factory (controllers w this)).
  by rewrite materialize_elsewhere.
Qed.

(** X7. A state update for a component that has neither descriptor nor
    handler entry, followed by the setup of the component handlers: the
    null pointer the update left in the registry is dereferenced by
    [setup_ble_services_for_components], which has no defined result,
    whatever the application's components and the factories. *)
Theorem update_before_setup_dereferences_null
    (App : Application) (Factory : BLEComponentHandlerFactory)
    (this : instance) (component : Nameable) (state : state_value) (w : world) :
  info_for_component (controllers w this) !! get_object_id component = None ->
  handler_for_component (controllers w this) !! get_object_id component = None ->
  setup_ble_services_for_components App Factory this
    (update_component_state this component state w) = None.
Proof.
  intros Hinfo Hhandler.
  pose proof (update_component_state_absent this component state w Hhandler)
    as (_ & Hobject & Hnull & _).
  apply (setup_ble_services_for_components_null _ _ _ _ (get_object_id component));
    [done|].
  by rewrite Hobject.
Qed.

(** X8. The order of the configuration calls does not matter, except
    among registrations for one identifier and among observers of one
    event: registrations for different identifiers commute, and a
    registration commutes with adding an observer to any of the four lists
    and with setting the security flag. *)
Theorem configuration_order_is_irrelevant
    (a b : Nameable) (sa ca sb cb : string) (na nb : bool)
    (o : observer) (enabled : bool) (c : ESP32BLEController) :
  (get_object_id a <> get_object_id b ->
   register_component a sa ca na (register_component b sb cb nb c)
   = register_component b sb cb nb (register_component a sa ca na c)) /\
  register_component a sa ca na (add_on_show_pass_key_callback o c)
  = add_on_show_pass_key_callback o (register_component a sa ca na c) /\
  register_component a sa ca na (add_on_authentication_complete_callback o c)
  = add_on_authentication_complete_callback o (register_component a sa ca na c) /\
  register_component a sa ca na (add_on_connected_callback o c)
  = add_on_connected_callback o (register_component a sa ca na c) /\
  register_component a sa ca na (add_on_disconnected_callback o c)
  = add_on_disconnected_callback o (register_component a sa ca na c) /\
  register_component a sa ca na (set_security_enabled enabled c)
  = set_security_enabled enabled (register_component a sa ca na c) /\
  add_on_connected_callback o (add_on_disconnected_callback o c)
  = add_on_disconnected_callback o (add_on_connected_callback o c).
Proof.
  split; [|by repeat split].
  intros Hne. unfold register_component, with_info. simpl.
  by rewrite insert_insert_ne.
Qed.

(** ** Pass keys of six digits *)

Lemma digits_length fuel v n :
  0 <= v < 10 ^ Z.of_nat n -> (1 <= n)%nat ->
  (String.length (Printf.digits fuel v EmptyString) <= n)%nat.
Proof.
  revert v n. induction fuel as [|fuel IH]; intros v n Hv Hn; simpl; [lia|].
  destruct (Z.eqb_spec (v / 10) 0) as [Hzero|Hnonzero]; simpl; [lia|].
  rewrite digits_acc, length_append. simpl.
  destruct n as [|[|n]]; [lia| |].
  - exfalso. apply Hnonzero. apply Z.div_small. simpl in Hv. lia.
  - specialize (IH (v / 10) (S n)).
    rewrite (Nat2Z.inj_succ (S n)), Z.pow_succ_r in Hv by lia.
    assert (String.length (Printf.digits fuel (v / 10) "") <= S n)%nat; [|lia].
    apply IH; [|lia]. split; [apply Z.div_pos; lia|].
    apply Z.div_lt_upper_bound; lia.
Qed.

Lemma number_from_zeros n acc s :
  Printf.number_from acc (Printf.zeros n ++ s)
  = Printf.number_from (acc * 10 ^ Z.of_nat n) s.
Proof.
  revert acc. induction n as [|n IH]; intros acc.
  - simpl. f_equal. lia.
  - change (Printf.zeros (S n) ++ s)%string
      with (String "0"%char (Printf.zeros n ++ s)%string).
    cbn [Printf.number_from]. rewrite IH. f_equal.
    rewrite Nat2Z.inj_succ, Z.pow_succ_r by lia.
    change (Z.of_nat (nat_of_ascii "0")) with 48. lia.
Qed.

Lemma substring_all s : String.substring 0 (String.length s) s = s.
Proof. induction s as [|c s IH]; simpl; [done|]. by rewrite IH. Qed.

Lemma length_pad_exact width s :
  (String.length s <= width)%nat -> String.length (Printf.pad width s) = width.
Proof. intros H. unfold Printf.pad. rewrite length_append, length_zeros. lia. Qed.

Lemma pass_key_str_six_digits pass_key :
  0 <= pass_key < 1000000 ->
  pass_key_str pass_key = Printf.pad 6 (Printf.decimal pass_key).
Proof.
  intros Hk. rewrite pass_key_str_digits by lia.
  assert (String.length (Printf.pad 6 (Printf.decimal pass_key)) = 6%nat) as Hlen.
  { apply length_pad_exact. apply digits_length; [|lia].
    change (10 ^ Z.of_nat 6) with 1000000. lia. }
  rewrite <- Hlen at 1. apply substring_all.
Qed.

(** X9. A pass key of at most six digits is delivered in full: for every
    pass key below 1000000 the string handed to the observers is the
    decimal number with zeros in front, not cut, it reads back as the pass
    key, and so two such pass keys with the same string are the same. *)
Theorem pass_key_str_reads_back (pass_key : Z) :
  0 <= pass_key < 1000000 ->
  pass_key_str pass_key = Printf.pad 6 (Printf.decimal pass_key) /\
  Printf.number (pass_key_str pass_key) = pass_key /\
  (forall other, 0 <= other < 1000000 ->
                 pass_key_str other = pass_key_str pass_key -> other = pass_key).
Proof.
  intros Hk.
  assert (forall k, 0 <= k < 1000000 -> Printf.number (pass_key_str k) = k) as Hback.
  { intros k Hrange. rewrite pass_key_str_six_digits by done.
    unfold Printf.number, Printf.pad. rewrite number_from_zeros. simpl.
    apply decimal_number. lia. }
  split; [by apply pass_key_str_six_digits|]. split; [by apply Hback|].
  intros other Hother Hsame. rewrite <- (Hback other Hother), Hsame. by apply Hback.
Qed.

(** ** Events of a given kind *)

Lemma emits_refl P w : emits P w w.
Proof. exists []. by rewrite app_nil_r. Qed.

Lemma emits_trans P w1 w2 w3 : emits P w1 w2 -> emits P w2 w3 -> emits P w1 w3.
Proof.
  intros (e1 & T1 & F1) (e2 & T2 & F2). exists (e1 ++ e2). split.
  - by rewrite T2, T1, <- app_assoc.
  - by apply Forall_app.
Qed.

Lemma emits_emit (P : event -> bool) e w : P e = true -> emits P w (emit e w).
Proof. intros He. exists [e]. split; [done|]. by constructor. Qed.

Lemma loop_idle this w : pending this w = [] -> loop this w = w.
Proof.
  intros Hempty. rewrite loop_unfold.
  by apply loop_iteration_None in Hempty as ->.
Qed.

(** ** Deliveries *)

Lemma invoke_trace this f w :
  (forall id fs, f <> Work id fs) ->
  trace (invoke this f w) = trace w ++ effects f w.
Proof.
  intros Hf. destruct f as [owner s|owner b|m|owner|owner|id fs]; simpl.
  - rewrite call_trace. simpl. by rewrite <- app_assoc.
  - destruct b; rewrite call_trace; simpl; by rewrite <- app_assoc.
  - done.
  - rewrite call_trace. simpl. by rewrite <- app_assoc.
  - rewrite call_trace. simpl. by rewrite <- !app_assoc.
  - by destruct (Hf id fs).
Qed.

Lemma same_but_queues_effects f w w' :
  same_but_queues w w' -> effects f w' = effects f w.
Proof.
  intros Hsame. pose proof (same_but_queues_deliveries f w w' Hsame) as Hd.
  destruct f as [owner s|owner []|m|owner|owner|id fs]; simpl; try done;
    simpl in Hd; by rewrite Hd.
Qed.

(** [loop] with one closure of this file waiting: it is taken, run, and
    the queue is found empty. *)
Lemma loop_single g f w :
  (forall id fs, f <> Work id fs) ->
  pending g w = [f] ->
  trace (loop g w) = trace w ++ Invoked g f :: effects f w /\
  pending g (loop g w) = [].
Proof.
  intros Hf Hpending. split; [|apply loop_drains].
  rewrite loop_unfold.
  destruct (loop_iteration g w) as [w1|] eqn:Hit;
    [|apply loop_iteration_None in Hit; congruence].
  apply loop_iteration_Some in Hit
    as (f' & rest & w0 & Hw & Hw0 & _ & _ & Htr0 & -> & Hsame).
  rewrite Hpending in Hw. injection Hw as <- <-.
  rewrite loop_idle by (by rewrite (quiet_pending w0 _ g) by (by apply invoke_quiet)).
  rewrite invoke_trace by done.
  rewrite Htr0, (same_but_queues_effects f w w0 Hsame). by rewrite <- app_assoc.
Qed.

Lemma observer_calls_effects f w : observer_calls (effects f w) = deliveries f w.
Proof.
  pose proof (observer_calls_deliveries f w) as Hd.
  destruct f as [owner s|owner []|m|owner|owner|id fs]; simpl; try done;
    unfold observer_calls in *; simpl; exact Hd.
Qed.

(** A closure of this file is enqueued on the empty queue of [g], the
    object of [this] is then changed by [change], which keeps the queue,
    and [loop] of [g] runs: the observers called are those in the changed
    object. *)
Lemma delivery_after_change g this f change w :
  (forall id fs, f <> Work id fs) ->
  (forall c, deferred_functions_for_loop (change c) = deferred_functions_for_loop c) ->
  pending g w = [] -> (0 < capacity (queue_of g w))%nat ->
  let w2 := on_this this change (execute_in_loop g f w) in
  observer_calls (trace (loop g w2)) = observer_calls (trace w) ++ deliveries f w2.
Proof.
  intros Hf Hchange Hempty Hcap w2.
  destruct (deferred_delivery g f w Hf Hempty Hcap) as (Hcalls & Hpending & _).
  assert (pending g w2 = [f]) as Hpending2.
  { rewrite <- Hpending. subst w2. unfold pending, on_this. simpl.
    case_decide; [subst; by rewrite Hchange|done]. }
  destruct (loop_single g f w2 Hf Hpending2) as [-> _].
  rewrite observer_calls_app. simpl. rewrite observer_calls_effects.
  f_equal. exact Hcalls.
Qed.

(** X12. The closures of the stack callbacks hold the callback list by
    reference: an observer that is registered after the stack callback has
    returned, but before [loop] runs the closure, is called with the
    others, after them. This holds for the four events. *)
Theorem observer_added_before_drain_is_called
    (this g : instance) (o : observer) (pass_key : Z) (success : bool) (w : world) :
  global_ble_controller w = Some g ->
  pending g w = [] ->
  (0 < capacity (queue_of g w))%nat ->
  (exists w1, onConnect this w = Some w1 /\
     observer_calls (trace (loop g (on_this this (add_on_connected_callback o) w1)))
     = observer_calls (trace w)
       ++ map CallConnected (on_connected_callbacks (controllers w this) ++ [o])) /\
  (exists w1, onDisconnect this w = Some w1 /\
     observer_calls (trace (loop g (on_this this (add_on_disconnected_callback o) w1)))
     = observer_calls (trace w)
       ++ map CallDisconnected (on_disconnected_callbacks (controllers w this) ++ [o])) /\
  (exists w1, onAuthenticationComplete this success w = Some w1 /\
     observer_calls
       (trace (loop g (on_this this (add_on_authentication_complete_callback o) w1)))
     = observer_calls (trace w)
       ++ map (CallAuthenticationComplete success)
              (on_authentication_complete_callbacks (controllers w this) ++ [o])) /\
  (exists w1, onPassKeyNotify this pass_key w = Some w1 /\
     observer_calls (trace (loop g (on_this this (add_on_show_pass_key_callback o) w1)))
     = observer_calls (trace w)
       ++ map (CallShowPassKey (pass_key_str pass_key))
              (on_show_pass_key_callbacks (controllers w this) ++ [o])).
Proof.
  intros Hg Hempty Hcap.
  unfold onConnect, onDisconnect, onAuthenticationComplete, onPassKeyNotify.
  rewrite Hg.
  split; [|split; [|split]]; eexists; (split; [reflexivity|]);
    rewrite delivery_after_change by done; f_equal; simpl;
    rewrite decide_True by done; simpl; do 2 f_equal.
  - pose proof (execute_in_loop_fields g (Connected this) w this) as H.
    by apply (f_equal on_connected_callbacks) in H.
  - pose proof (execute_in_loop_fields g (Disconnected this) w this) as H.
    by apply (f_equal on_disconnected_callbacks) in H.
  - pose proof (execute_in_loop_fields g (AuthenticationComplete this success) w this)
      as H.
    by apply (f_equal on_authentication_complete_callbacks) in H.
  - pose proof (execute_in_loop_fields g
                  (ShowPassKey this (pass_key_str pass_key)) w this) as H.
    by apply (f_equal on_show_pass_key_callbacks) in H.
Qed.

(** X13. A disconnection re-arms advertising from the loop thread: with
    room in the queue of the global controller, [onDisconnect] followed by
    [loop] logs, sets one timer of 500 ms for the controller that received
    the callback, and then calls its disconnected observers, whether there
    are any or not. When the queue is full [onDisconnect] changes nothing
    and logs the warning: the closure is dropped, and no timer will be set
    for this disconnection. *)
Theorem disconnect_rearms_advertising (this g : instance) (w : world) :
  global_ble_controller w = Some g ->
  exists w1,
    onDisconnect this w = Some w1 /\
    (pending g w = [] -> (0 < capacity (queue_of g w))%nat ->
     trace (loop g w1)
     = trace w
       ++ [Accepted g (Disconnected this); Invoked g (Disconnected this);
           Log LOGD "BLE server - disconnected" []; SetTimeout this 500]
       ++ map CallDisconnected (on_disconnected_callbacks (controllers w this))) /\
    (Queue.full (queue_of g w) = true ->
     same_state w w1 /\
     trace w1 = trace w ++ [Log LOGW "Deferred functions queue full" []]).
Proof.
  intros Hg. unfold onDisconnect. rewrite Hg. eexists. split; [reflexivity|].
  split.
  - intros Hempty Hcap.
    assert (Queue.full (queue_of g w) = false) as Hroom.
    { unfold Queue.full. apply Nat.leb_gt. unfold pending, queue_of in *.
      rewrite Hempty. simpl. lia. }
    destruct (execute_in_loop_room g (Disconnected this) w Hroom) as (Htr & Hpend & _).
    rewrite Hempty in Hpend. simpl in Hpend.
    destruct (loop_single g (Disconnected this) _ ltac:(congruence) Hpend) as [-> _].
    rewrite Htr, <- app_assoc. simpl. do 5 f_equal.
    pose proof (execute_in_loop_fields g (Disconnected this) w this) as H.
    apply (f_equal on_disconnected_callbacks) in H. simpl in H. by rewrite H.
  - intros Hfull. destruct (execute_in_loop_full g (Disconnected this) w Hfull). done.
Qed.

(** X14. What the stack needs at once it gets at once: with the global
    controller set, [onPassKeyRequest] answers 123456, [onSecurityRequest]
    answers true and [onConfirmPIN] answers true for every PIN, in every
    state of the queue. Each of them only hands a closure to
    [execute_in_loop]; no observer is called then, and no observer is
    called when [loop] runs the closure, which logs one line and changes
    nothing. *)
Theorem stack_requests_are_answered_at_once
    (this g : instance) (pin : Z) (w : world) :
  global_ble_controller w = Some g ->
  (exists w1, onPassKeyRequest this w = Some (123456, w1) /\
              observer_calls (trace w1) = observer_calls (trace w) /\
              only_queue_of g w w1) /\
  (exists w1, onSecurityRequest this w = Some (true, w1) /\
              observer_calls (trace w1) = observer_calls (trace w) /\
              only_queue_of g w w1) /\
  (exists w1, onConfirmPIN this pin w = Some (true, w1) /\
              observer_calls (trace w1) = observer_calls (trace w) /\
              only_queue_of g w w1) /\
  (forall message w0,
     same_state w0 (invoke g (LogDebug message) w0) /\
     trace (invoke g (LogDebug message) w0) = trace w0 ++ [Log LOGD message []]).
Proof.
  intros Hg. unfold onPassKeyRequest, onSecurityRequest, onConfirmPIN. rewrite Hg.
  split; [|split; [|split]].
  - eexists. split; [reflexivity|].
    split; [apply execute_in_loop_observer_calls|apply execute_in_loop_only_queue_of].
  - eexists. split; [reflexivity|].
    split; [apply execute_in_loop_observer_calls|apply execute_in_loop_only_queue_of].
  - eexists. split; [reflexivity|].
    split; [apply execute_in_loop_observer_calls|apply execute_in_loop_only_queue_of].
  - intros message w0. split; [apply same_state_emit|done].
Qed.

(** ** The stages of [setup] *)

Lemma setup_ble_already_started this w :
  bt_started w = true ->
  setup_ble this w = (true, emit (Log LOGI "BLE already started" []) w).
Proof. intros H. unfold setup_ble. by rewrite H. Qed.

Lemma setup_ble_fails this w :
  ~ bluetooth_starts w -> (setup_ble this w).1 = false.
Proof.
  intros Hbt. unfold setup_ble, bluetooth_starts in *.
  destruct (bt_started w); [by destruct Hbt; left|]. simpl.
  destruct (btStart_result w); simpl; [|done].
  destruct (Z.eqb_spec (esp_bluedroid_init_result w) ESP_OK); simpl; [|done].
  destruct (Z.eqb_spec (esp_bluedroid_enable_result w) ESP_OK); simpl; [|done].
  destruct Hbt. by right.
Qed.

Lemma setup_ble_state this w :
  global_ble_controller (setup_ble this w).2 = global_ble_controller w /\
  ble_mode_preference (setup_ble this w).2 = ble_mode_preference w /\
  servers_created (setup_ble this w).2 = servers_created w /\
  ((setup_ble this w).1 = true -> bt_started (setup_ble this w).2 = true).
Proof.
  unfold setup_ble. destruct (bt_started w) eqn:Hstarted; simpl; [done|].
  destruct (btStart_result w); simpl; [|done].
  destruct (esp_bluedroid_init_result w =? ESP_OK); simpl; [|done].
  by destruct (esp_bluedroid_enable_result w =? ESP_OK).
Qed.

(** X15. [setup_ble] succeeds exactly when the Bluetooth controller runs
    already or starts with both Bluedroid calls answering [ESP_OK]. It
    writes no controller object, global pointer or preference. After a
    success the Bluetooth controller counts as started, so that a further
    [setup_ble] only logs that it is. After a failure the trace has grown
    by the two start-up events, one error and the mark of failure of the
    controller. *)
Theorem setup_ble_outcome (this : instance) (w : world) :
  ((setup_ble this w).1 = true <-> bluetooth_starts w) /\
  controllers (setup_ble this w).2 = controllers w /\
  global_ble_controller (setup_ble this w).2 = global_ble_controller w /\
  ble_mode_preference (setup_ble this w).2 = ble_mode_preference w /\
  ((setup_ble this w).1 = true ->
   bt_started (setup_ble this w).2 = true /\
   setup_ble this (setup_ble this w).2
   = (true, emit (Log LOGI "BLE already started" []) (setup_ble this w).2)) /\
  ((setup_ble this w).1 = false ->
   exists message args,
     trace (setup_ble this w).2
     = trace w ++ [Log LOGI "  Setting up BLE ..." [];
                   External esp_bt_controller_mem_release;
                   Log LOGE message args;
                   External (mark_failed this)]).
Proof.
  destruct (setup_ble_state this w) as (G & P & _ & B).
  split; [|split; [apply setup_ble_controllers|split; [done|split; [done|split]]]].
  - split; [|apply setup_ble_starts].
    intros Hok. destruct (bt_started w) eqn:Hstarted; [by left|].
    unfold bluetooth_starts. right. revert Hok. unfold setup_ble. rewrite Hstarted.
    simpl. destruct (btStart_result w); simpl; [|done].
    destruct (Z.eqb_spec (esp_bluedroid_init_result w) ESP_OK); simpl; [|done].
    by destruct (Z.eqb_spec (esp_bluedroid_enable_result w) ESP_OK).
  - intros Hok. split; [by apply B|]. by apply setup_ble_already_started, B.
  - apply setup_ble_failure_logged.
Qed.

Lemma setup_handlers_same_state server entries w w' :
  setup_handlers server entries w = Some w' -> same_state w w'.
Proof.
  revert w. induction entries as [|[id [h|]] entries IH]; intros w; simpl.
  - intros [= <-]. apply same_state_refl.
  - intros Hrest. eapply same_state_trans; [apply same_state_emit|by apply IH].
  - done.
Qed.

(** The object of [this] and the counters after the server stage. *)
Lemma setup_ble_server_and_services_object WIFI_ONLY App Factory this w w' :
  setup_ble_server_and_services WIFI_ONLY App Factory this w = Some w' ->
  let served := with_server (Some (servers_created w)) (controllers w this) in
  controllers w' this
  = (if ble_mode (controllers w this) =? WIFI_ONLY then served
     else materialize App Factory served) /\
  servers_created w' = S (servers_created w) /\
  ble_mode_preference w' = ble_mode_preference w /\
  bt_started w' = bt_started w.
Proof.
  unfold setup_ble_server_and_services, on_this. simpl.
  rewrite decide_True by done. simpl.
  destruct (ble_mode (controllers w this) =? WIFI_ONLY); simpl.
  - intros [= <-]. simpl. by rewrite decide_True.
  - unfold setup_ble_services_for_components. simpl.
    rewrite decide_True by done.
    intros (G & C & P & B & _ & _ & _ & _ & S)%setup_handlers_same_state.
    rewrite C, P, B, S. simpl. by rewrite decide_True.
Qed.

Lemma setup_ble_server_and_services_wifi_only WIFI_ONLY App Factory this w :
  ble_mode (controllers w this) = WIFI_ONLY ->
  is_Some (setup_ble_server_and_services WIFI_ONLY App Factory this w).
Proof.
  intros Hmode. unfold setup_ble_server_and_services, on_this. simpl.
  rewrite decide_True by done. simpl. by rewrite Hmode, Z.eqb_refl.
Qed.

Lemma enable_ble_security_same_state this w :
  same_state w (enable_ble_security this w).
Proof. unfold enable_ble_security. by destruct (negb _). Qed.

(** [setup] when the Bluetooth controller does not come up. *)
Lemma setup_failure BLE_ONLY WIFI_ONLY App Factory this w :
  ~ bluetooth_starts w ->
  setup BLE_ONLY WIFI_ONLY App Factory this w
  = Some (setup_ble this
            (initialize_ble_mode BLE_ONLY this
               (emit (Log LOGCONFIG "Setting up BLE controller..." []) w))).2.
Proof.
  intros Hbt. unfold setup.
  pose proof (setup_ble_fails this
                (initialize_ble_mode BLE_ONLY this
                   (emit (Log LOGCONFIG "Setting up BLE controller..." []) w)) Hbt)
    as Hfail.
  destruct (setup_ble this _) as [started w2]. simpl in Hfail. by subst.
Qed.

(** [setup] when the Bluetooth controller comes up: the stages. *)
Lemma setup_success BLE_ONLY WIFI_ONLY App Factory this w w' :
  bluetooth_starts w ->
  setup BLE_ONLY WIFI_ONLY App Factory this w = Some w' ->
  let w1 := initialize_ble_mode BLE_ONLY this
              (emit (Log LOGCONFIG "Setting up BLE controller..." []) w) in
  let w2 := (setup_ble this w1).2 in
  let w3 := match global_ble_controller w2 with
            | None => with_global (Some this) w2
            | Some _ =>
                emit (Log LOGE "Already have an instance of the BLE controller" []) w2
            end in
  exists w4,
    setup_ble_server_and_services WIFI_ONLY App Factory this
      (emit (External (BLEDevice_init (get_name App))) w3) = Some w4 /\
    w' = emit (External BLEDevice_startAdvertising)
           (enable_ble_security this
              (emit (External (Controller_setup_controller this)) w4)).
Proof.
  intros Hbt Hsetup w1 w2 w3. subst w3 w2. unfold setup in Hsetup.
  pose proof (setup_ble_starts this w1 Hbt) as Hok. fold w1 in Hsetup.
  destruct (setup_ble this w1) as [started w2]. simpl in Hok. subst started.
  simpl in *.
  destruct (setup_ble_server_and_services _ _ _ _ _) as [w4|]; [|done].
  injection Hsetup as <-. by exists w4.
Qed.

Lemma emits_same_trace P w w' : trace w' = trace w -> emits P w w'.
Proof. intros H. exists []. by rewrite app_nil_r. Qed.

Lemma emits_harmless P e w :
  harmless P -> is_failure e = false -> is_security_call e = false ->
  emits P w (emit e w).
Proof. intros HP Hf Hs. apply emits_emit. by apply HP. Qed.

Lemma emits_store P this c w : emits P w (store this c w).
Proof. by apply emits_same_trace. Qed.

Lemma emits_with_global P g w : emits P w (with_global g w).
Proof. by apply emits_same_trace. Qed.

Lemma emits_with_bt_started P b w : emits P w (with_bt_started b w).
Proof. by apply emits_same_trace. Qed.

Lemma emits_with_servers_created P n w : emits P w (with_servers_created n w).
Proof. by apply emits_same_trace. Qed.

Ltac emits_steps :=
  repeat first
    [ apply emits_refl
    | eapply emits_trans;
      [|first [ apply emits_harmless; [assumption|reflexivity|reflexivity]
              | apply emits_emit; reflexivity
              | apply emits_store | apply emits_with_global
              | apply emits_with_bt_started | apply emits_with_servers_created ]] ].

Lemma initialize_ble_mode_emits P BLE_ONLY this w :
  harmless P -> emits P w (initialize_ble_mode BLE_ONLY this w).
Proof. intros HP. unfold initialize_ble_mode, on_this. emits_steps. Qed.

Lemma setup_ble_success_emits P this w :
  harmless P -> (setup_ble this w).1 = true -> emits P w (setup_ble this w).2.
Proof.
  intros HP. unfold setup_ble. destruct (bt_started w); simpl; [intros _; emits_steps|].
  destruct (btStart_result w); simpl; [|done].
  destruct (esp_bluedroid_init_result w =? ESP_OK); simpl; [|done].
  destruct (esp_bluedroid_enable_result w =? ESP_OK); simpl; [|done].
  intros _. emits_steps.
Qed.

Lemma setup_ble_emits_no_security this w :
  emits (fun e => negb (is_security_call e)) w (setup_ble this w).2.
Proof.
  unfold setup_ble. destruct (bt_started w); simpl; [emits_steps|].
  destruct (btStart_result w); simpl; [|emits_steps].
  destruct (esp_bluedroid_init_result w =? ESP_OK); simpl; [|emits_steps].
  destruct (esp_bluedroid_enable_result w =? ESP_OK); simpl; emits_steps.
Qed.

Lemma setup_handlers_emits P server entries w w' :
  harmless P -> setup_handlers server entries w = Some w' -> emits P w w'.
Proof.
  intros HP. revert w. induction entries as [|[id [h|]] entries IH]; intros w; simpl.
  - intros [= <-]. apply emits_refl.
  - intros Hrest. eapply emits_trans; [|by apply IH]. by apply emits_harmless.
  - done.
Qed.

Lemma setup_ble_server_and_services_emits P WIFI_ONLY App Factory this w w' :
  harmless P ->
  setup_ble_server_and_services WIFI_ONLY App Factory this w = Some w' ->
  emits P w w'.
Proof.
  intros HP. unfold setup_ble_server_and_services, on_this.
  destruct (negb _).
  - unfold setup_ble_services_for_components.
    intros H%(setup_handlers_emits P); [|done].
    eapply emits_trans; [|exact H]. emits_steps.
  - intros [= <-]. emits_steps.
Qed.

Lemma enable_ble_security_disabled this w :
  security_enabled (controllers w this) = false -> enable_ble_security this w = w.
Proof. intros H. unfold enable_ble_security. by rewrite H. Qed.

Lemma enable_ble_security_emits_no_failure this w :
  emits (fun e => negb (is_failure e)) w (enable_ble_security this w).
Proof. unfold enable_ble_security. destruct (negb _); emits_steps. Qed.

Lemma harmless_no_failure : harmless (fun e => negb (is_failure e)).
Proof. intros e Hf _. by rewrite Hf. Qed.

Lemma harmless_no_security : harmless (fun e => negb (is_security_call e)).
Proof. intros e _ Hs. by rewrite Hs. Qed.

Lemma setup_ble_services_for_components_of_fields_from components creator c0 c :
  c = with_handlers (handler_for_component c) c0 ->
  setup_ble_services_for_components_of components creator c
  = with_handlers
      (handler_for_component
         (setup_ble_services_for_components_of components creator c)) c0.
Proof.
  intros Hc. etrans; [apply setup_ble_services_for_components_of_fields|].
  generalize (handler_for_component
                (setup_ble_services_for_components_of components creator c)).
  intros handlers. by rewrite Hc.
Qed.

Lemma materialize_fields App Factory c :
  materialize App Factory c
  = with_handlers (handler_for_component (materialize App Factory c)) c.
Proof.
  unfold materialize.
  do 3 apply setup_ble_services_for_components_of_fields_from.
  apply setup_ble_services_for_components_of_fields.
Qed.

Lemma materialize_described App Factory c :
  handlers_have_descriptors c -> handlers_have_descriptors (materialize App Factory c).
Proof.
  intros Hc. unfold materialize.
  by repeat apply setup_ble_services_for_components_of_described.
Qed.

(** The object of the controller after [setup]: the mode is loaded; when
    the Bluetooth controller came up the server is set, and unless the
    mode is [WIFI_ONLY] the handlers are made. *)
Lemma setup_object BLE_ONLY WIFI_ONLY App Factory this w w' :
  setup BLE_ONLY WIFI_ONLY App Factory this w = Some w' ->
  let configured := with_mode (stored_mode BLE_ONLY w) (controllers w this) in
  let served := with_server (Some (servers_created w)) configured in
  ble_mode_preference w' = ble_mode_preference w /\
  (controllers w' this = configured \/
   controllers w' this = served /\ stored_mode BLE_ONLY w = WIFI_ONLY \/
   controllers w' this = materialize App Factory served /\
   stored_mode BLE_ONLY w <> WIFI_ONLY).
Proof.
  intros Hsetup configured served. unfold setup in Hsetup.
  set (w1 := initialize_ble_mode BLE_ONLY this _) in Hsetup.
  assert (controllers w1 this = configured) as Hw1.
  { subst w1 configured. unfold initialize_ble_mode, stored_mode. simpl.
    by rewrite decide_True. }
  assert (ble_mode_preference w1 = ble_mode_preference w /\
          servers_created w1 = servers_created w) as (Hp1 & Hs1) by done.
  clearbody w1.
  pose proof (setup_ble_controllers this w1) as Hobjects.
  destruct (setup_ble_state this w1) as (_ & Hpref & Hservers & _).
  destruct (setup_ble this w1) as [started w2]. simpl in Hobjects, Hpref, Hservers.
  rewrite Hp1 in Hpref. rewrite Hs1 in Hservers.
  destruct started; simpl in Hsetup.
  - set (w3 := emit _ match global_ble_controller w2 with
                      | Some _ => _ | None => _ end) in Hsetup.
    assert (controllers w3 = controllers w2 /\
            ble_mode_preference w3 = ble_mode_preference w2 /\
            servers_created w3 = servers_created w2) as (C3 & P3 & S3).
    { subst w3. by destruct (global_ble_controller w2). }
    destruct (setup_ble_server_and_services _ _ _ _ w3) as [w4|] eqn:H4; [|done].
    injection Hsetup as <-.
    apply setup_ble_server_and_services_object in H4 as (Hobject & _ & P4 & _).
    rewrite C3, Hobjects, Hw1, S3, Hservers in Hobject.
    fold served in Hobject.
    destruct (enable_ble_security_same_state this
                (emit (External (Controller_setup_controller this)) w4))
      as (_ & C5 & P5 & _).
    split.
    + simpl. rewrite P5. simpl. by rewrite P4, P3, Hpref.
    + right. simpl. rewrite C5. simpl. rewrite Hobject.
      subst configured. simpl.
      destruct (Z.eqb_spec (stored_mode BLE_ONLY w) WIFI_ONLY); [by left|by right].
  - injection Hsetup as <-. split; [by rewrite Hpref|].
    left. by rewrite Hobjects.
Qed.

(** X16. [setup] halts when the Bluetooth controller does not come up:
    it returns after [setup_ble], having loaded the mode and nothing else.
    The global pointer stays as it was, so the controller is not
    registered; no server is created, no handler made, no security set
    up and advertising is not started: the trace grows by the two
    configuration lines, the two start-up events, one error and the mark
    of failure. *)
Theorem setup_halts_without_bluetooth
    (BLE_ONLY WIFI_ONLY : Z) (App : Application) (Factory : BLEComponentHandlerFactory)
    (this : instance) (w : world) :
  ~ bluetooth_starts w ->
  exists w' message args,
    setup BLE_ONLY WIFI_ONLY App Factory this w = Some w' /\
    global_ble_controller w' = global_ble_controller w /\
    controllers w' this = with_mode (stored_mode BLE_ONLY w) (controllers w this) /\
    (forall q, q <> this -> controllers w' q = controllers w q) /\
    servers_created w' = servers_created w /\
    ble_mode_preference w' = ble_mode_preference w /\
    trace w'
    = trace w ++ [Log LOGCONFIG "Setting up BLE controller..." [];
                  Log LOGCONFIG "BLE mode: %d" [stored_mode BLE_ONLY w];
                  Log LOGI "  Setting up BLE ..." [];
                  External esp_bt_controller_mem_release;
                  Log LOGE message args;
                  External (mark_failed this)].
Proof.
  intros Hbt. rewrite (setup_failure _ _ _ _ _ _ Hbt).
  set (w1 := initialize_ble_mode BLE_ONLY this _).
  destruct (setup_ble_failure_logged this w1) as (message & args & Htrace);
    [by apply setup_ble_fails|].
  destruct (setup_ble_state this w1) as (G & P & S & _).
  eexists _, message, args. split; [reflexivity|].
  rewrite G, P, S, Htrace, (setup_ble_controllers this w1).
  subst w1. unfold initialize_ble_mode, stored_mode. simpl.
  rewrite decide_True by done.
  repeat split; try done.
  - intros q Hq. by rewrite decide_False.
  - by rewrite <- !app_assoc.
Qed.

(** X17. The first [setup], with the Bluetooth controller coming up, goes
    through all its stages: the controller becomes the global one, its
    server is the one just created, the Bluetooth controller counts as
    started, nothing reports a failure, and the last thing done is to
    start advertising. From then on a stack callback of the controller
    finds the global pointer set and enqueues on the controller's own
    queue. *)
Theorem first_setup_registers_controller
    (BLE_ONLY WIFI_ONLY : Z) (App : Application) (Factory : BLEComponentHandlerFactory)
    (this : instance) (w w' : world) :
  global_ble_controller w = None ->
  bluetooth_starts w ->
  setup BLE_ONLY WIFI_ONLY App Factory this w = Some w' ->
  global_ble_controller w' = Some this /\
  ble_server (controllers w' this) = Some (servers_created w) /\
  servers_created w' = S (servers_created w) /\
  bt_started w' = true /\
  emits (fun e => negb (is_failure e)) w w' /\
  (exists evs, trace w' = trace w ++ evs ++ [External BLEDevice_startAdvertising]) /\
  onConnect this w' = Some (execute_in_loop this (Connected this) w').
Proof.
  intros Hglobal Hbt Hsetup.
  destruct (setup_success _ _ _ _ _ _ _ Hbt Hsetup) as (w4 & H4 & ->).
  set (w1 := initialize_ble_mode BLE_ONLY this _) in H4.
  assert (bluetooth_starts w1) as Hbt1 by exact Hbt.
  pose proof (setup_ble_starts this w1 Hbt1) as Hok.
  destruct (setup_ble_state this w1) as (G2 & _ & S2 & B2).
  specialize (B2 Hok).
  pose proof (setup_ble_success_emits _ this w1 harmless_no_failure Hok) as E2.
  assert (emits (fun e => negb (is_failure e)) w w1) as E1.
  { subst w1.
    eapply emits_trans; [|apply initialize_ble_mode_emits, harmless_no_failure].
    by apply emits_emit. }
  change (global_ble_controller w1) with (global_ble_controller w) in G2.
  change (servers_created w1) with (servers_created w) in S2.
  clearbody w1. rewrite G2, Hglobal in H4.
  pose proof (setup_ble_server_and_services_emits _ _ _ _ _ _ _
                harmless_no_failure H4) as E4.
  pose proof (setup_ble_server_and_services_confined _ _ _ _ _ _ H4) as [[G4 _] _].
  pose proof (setup_ble_server_and_services_object _ _ _ _ _ _ H4)
    as (Hobject & S4 & _ & B4).
  simpl in Hobject, S4, B4.
  destruct (enable_ble_security_same_state this
              (emit (External (Controller_setup_controller this)) w4))
    as (G5 & C5 & _ & B5 & _ & _ & _ & _ & S5).
  assert (global_ble_controller
            (emit (External BLEDevice_startAdvertising)
               (enable_ble_security this
                  (emit (External (Controller_setup_controller this)) w4)))
          = Some this) as Hregistered.
  { simpl. rewrite G5. simpl. by rewrite G4. }
  assert (emits (fun e => negb (is_failure e)) w
            (enable_ble_security this
               (emit (External (Controller_setup_controller this)) w4))) as E5.
  { eapply emits_trans; [|apply enable_ble_security_emits_no_failure].
    eapply emits_trans; [|by apply emits_emit].
    eapply emits_trans; [|exact E4].
    eapply emits_trans; [|by apply emits_emit].
    eapply emits_trans; [|apply emits_with_global].
    by eapply emits_trans. }
  split; [done|]. split; [|split; [|split; [|split; [|split]]]].
  - simpl. rewrite C5. simpl. rewrite Hobject, S2.
    destruct (_ =? WIFI_ONLY); [done|]. by rewrite materialize_fields.
  - simpl. rewrite S5. simpl. by rewrite S4, S2.
  - simpl. rewrite B5. simpl. by rewrite B4, B2.
  - eapply emits_trans; [exact E5|by apply emits_emit].
  - destruct E5 as (evs & Htrace & _). exists evs. simpl.
    by rewrite Htrace, <- app_assoc.
  - unfold onConnect. by rewrite Hregistered.
Qed.

(** X18. With [WIFI_ONLY] stored as the mode, [setup] exposes no
    component: it returns, whatever is in the registries and whatever the
    factories do, and it leaves the handler registry and the descriptors
    of the controller as they were. *)
Theorem wifi_only_exposes_no_component
    (BLE_ONLY WIFI_ONLY : Z) (App : Application) (Factory : BLEComponentHandlerFactory)
    (this : instance) (w : world) :
  ble_mode_preference w = Some WIFI_ONLY ->
  exists w',
    setup BLE_ONLY WIFI_ONLY App Factory this w = Some w' /\
    ble_mode (controllers w' this) = WIFI_ONLY /\
    handler_for_component (controllers w' this)
    = handler_for_component (controllers w this) /\
    info_for_component (controllers w' this)
    = info_for_component (controllers w this).
Proof.
  intros Hstored.
  assert (stored_mode BLE_ONLY w = WIFI_ONLY) as Hmode
    by (unfold stored_mode; by rewrite Hstored).
  assert (is_Some (setup BLE_ONLY WIFI_ONLY App Factory this w)) as [w' Hsetup].
  { unfold setup.
    set (w1 := initialize_ble_mode BLE_ONLY this _).
    assert (ble_mode (controllers w1 this) = WIFI_ONLY) as Hw1.
    { subst w1. unfold initialize_ble_mode. rewrite <- Hmode. unfold stored_mode.
      simpl. by rewrite decide_True. }
    clearbody w1. pose proof (setup_ble_controllers this w1) as Hobjects.
    destruct (setup_ble this w1) as [[] w2]; simpl in *; [|done].
    match goal with
    | |- is_Some (match ?s with Some _ => _ | None => _ end) =>
        assert (is_Some s) as [w4 ->]; [|done]
    end.
    apply setup_ble_server_and_services_wifi_only. simpl.
    destruct (global_ble_controller w2); simpl; by rewrite Hobjects. }
  exists w'. split; [done|].
  destruct (setup_object _ _ _ _ _ _ _ Hsetup) as (_ & [Hc|[[Hc _]|[_ Hne]]]);
    [| |done]; rewrite Hc, Hmode; done.
Qed.

(** X19. [setup] keeps the configuration: whatever its outcome, the
    descriptors, the four observer lists, the security flag and the queue
    of the controller are as before, the mode in memory is the stored one
    (or [BLE_ONLY] when none is stored), nothing is written to the
    preferences, and when every handler entry had a descriptor before, so
    it is after. *)
Theorem setup_keeps_configuration
    (BLE_ONLY WIFI_ONLY : Z) (App : Application) (Factory : BLEComponentHandlerFactory)
    (this : instance) (w w' : world) :
  setup BLE_ONLY WIFI_ONLY App Factory this w = Some w' ->
  same_configuration (controllers w this) (controllers w' this) /\
  ble_mode (controllers w' this) = stored_mode BLE_ONLY w /\
  ble_mode_preference w' = ble_mode_preference w /\
  (handlers_have_descriptors (controllers w this) ->
   handlers_have_descriptors (controllers w' this)).
Proof.
  intros Hsetup.
  destruct (setup_object _ _ _ _ _ _ _ Hsetup) as (Hpref & [Hc|[[Hc _]|[Hc _]]]).
  - rewrite Hc. by repeat split.
  - rewrite Hc. by repeat split.
  - rewrite Hc. split; [|split; [|split; [done|]]].
    + rewrite materialize_fields. by repeat split.
    + by rewrite materialize_fields.
    + intros Hdescribed. by apply materialize_described.
Qed.

Lemma setup_ble_server_and_services_security WIFI_ONLY App Factory this w w' :
  setup_ble_server_and_services WIFI_ONLY App Factory this w = Some w' ->
  security_enabled (controllers w' this) = security_enabled (controllers w this).
Proof.
  intros (Hobject & _)%setup_ble_server_and_services_object. rewrite Hobject.
  destruct (_ =? WIFI_ONLY); [done|]. by rewrite materialize_fields.
Qed.

(** X20. With security disabled on the controller, [setup] sets up no
    security: whatever its outcome, it does not set an encryption level,
    registers no security callbacks and sets no security parameter. With
    security enabled and the Bluetooth controller coming up, it registers
    the controller for the security callbacks. *)
Theorem setup_honours_security_flag
    (BLE_ONLY WIFI_ONLY : Z) (App : Application) (Factory : BLEComponentHandlerFactory)
    (this : instance) (w w' : world) :
  setup BLE_ONLY WIFI_ONLY App Factory this w = Some w' ->
  (security_enabled (controllers w this) = false ->
   emits (fun e => negb (is_security_call e)) w w') /\
  (security_enabled (controllers w this) = true -> bluetooth_starts w ->
   exists before after,
     trace w' = trace w ++ before
                ++ External (BLEDevice_setSecurityCallbacks this) :: after).
Proof.
  intros Hsetup. unfold setup in Hsetup.
  set (w1 := initialize_ble_mode BLE_ONLY this _) in Hsetup.
  assert (emits (fun e => negb (is_security_call e)) w w1) as E1.
  { subst w1.
    eapply emits_trans; [|apply initialize_ble_mode_emits, harmless_no_security].
    by apply emits_emit. }
  assert (security_enabled (controllers w1 this) = security_enabled (controllers w this))
    as Hs1.
  { subst w1. unfold initialize_ble_mode. simpl. by rewrite decide_True. }
  assert (bluetooth_starts w -> bluetooth_starts w1) as Hbt1 by done.
  clearbody w1.
  pose proof (setup_ble_emits_no_security this w1) as E2.
  pose proof (setup_ble_controllers this w1) as C2.
  pose proof (setup_ble_starts this w1) as Hok.
  destruct (setup_ble this w1) as [started w2]. simpl in E2, C2, Hok.
  destruct started; simpl in Hsetup.
  - set (w3 := emit _ match global_ble_controller w2 with
                      | Some _ => _ | None => _ end) in Hsetup.
    assert (emits (fun e => negb (is_security_call e)) w2 w3 /\
            controllers w3 = controllers w2) as (E3 & C3).
    { subst w3. destruct (global_ble_controller w2); split; try done; emits_steps. }
    clearbody w3.
    destruct (setup_ble_server_and_services _ _ _ _ w3) as [w4|] eqn:H4; [|done].
    injection Hsetup as <-.
    pose proof (setup_ble_server_and_services_emits _ _ _ _ _ _ _
                  harmless_no_security H4) as E4.
    pose proof (setup_ble_server_and_services_security _ _ _ _ _ _ H4) as Hs4.
    rewrite C3, C2, Hs1 in Hs4.
    assert (emits (fun e => negb (is_security_call e)) w w4) as E
      by (do 3 (eapply emits_trans; [|eassumption]); done).
    split.
    + intros Hoff.
      rewrite enable_ble_security_disabled by (simpl; congruence).
      eapply emits_trans; [exact E|]. emits_steps.
    + intros Hon _. destruct E as (evs & Htrace & _).
      unfold enable_ble_security. simpl. rewrite Hs4, Hon. simpl.
      rewrite Htrace. eexists (evs ++ [_; _; _]), [_; _; _; _; _; _; _].
      by rewrite <- !app_assoc.
  - injection Hsetup as <-. split.
    + intros _. by eapply emits_trans.
    + intros _ Hbt. specialize (Hok (Hbt1 Hbt)). done.
Qed.

(** * Further worked instances *)

Lemma registered_component_receives_updates_witness :
  In outdoor [outdoor] /\
  trace (update_component_state 0 outdoor (BoolState true) exposing)
  = [SendValue {| handler_component := outdoor;
                  handler_info := {| service_UUID := "181A";
                                     characteristic_UUID := "2A6E";
                                     use_BLE2902 := true |} |}
               (BoolState true)].
Proof.
  assert (In outdoor [outdoor]) as Hin by (left; reflexivity).
  split; [exact Hin|].
  exact (proj1 (registered_component_receives_updates 0 outdoor "181A" "2A6E" true
                  [outdoor] bind_handler _ (new_controller 4) (BoolState true)
                  exposing Hin eq_refl eq_refl)).
Defined.

Lemma update_before_setup_dereferences_null_witness :
  info_for_component (controllers (power_on 4) 0) !! get_object_id outdoor = None /\
  handler_for_component (controllers (power_on 4) 0) !! get_object_id outdoor = None /\
  setup_ble_services_for_components one_sensor plain_factory 0
    (update_component_state 0 outdoor (BoolState true) (power_on 4)) = None.
Proof.
  split; [reflexivity|]. split; [reflexivity|].
  exact (update_before_setup_dereferences_null one_sensor plain_factory 0 outdoor
           (BoolState true) (power_on 4) eq_refl eq_refl).
Defined.

Lemma pass_key_str_reads_back_witness :
  0 <= 42 < 1000000 /\ Printf.number (pass_key_str 42) = 42.
Proof.
  assert (0 <= 42 < 1000000) as Hrange by (split; [discriminate|reflexivity]).
  split; [exact Hrange|].
  exact (proj1 (proj2 (pass_key_str_reads_back 42 Hrange))).
Defined.

Lemma observer_added_before_drain_is_called_witness :
  global_ble_controller serving = Some 0%nat /\
  pending 0 serving = [] /\
  (0 < capacity (queue_of 0 serving))%nat /\
  exists w1, onConnect 0 serving = Some w1 /\
    observer_calls (trace (loop 0 (on_this 0 (add_on_connected_callback 33) w1)))
    = [CallConnected 31; CallConnected 32; CallConnected 33].
Proof.
  assert (0 < capacity (queue_of 0 serving))%nat as Hcap by (apply Nat.lt_0_succ).
  split; [reflexivity|]. split; [reflexivity|]. split; [exact Hcap|].
  exact (proj1 (observer_added_before_drain_is_called 0 0 33 42 true serving
                  eq_refl eq_refl Hcap)).
Defined.

Lemma disconnect_rearms_advertising_witness :
  global_ble_controller serving = Some 0%nat /\
  exists w1, onDisconnect 0 serving = Some w1 /\
    trace (loop 0 w1)
    = [Accepted 0 (Disconnected 0); Invoked 0 (Disconnected 0);
       Log LOGD "BLE server - disconnected" []; SetTimeout 0 500;
       CallDisconnected 41; CallDisconnected 42].
Proof.
  split; [reflexivity|].
  destruct (disconnect_rearms_advertising 0 0 serving eq_refl)
    as (w1 & Hcall & Hloop & _).
  exists w1. split; [exact Hcall|].
  exact (Hloop eq_refl (Nat.lt_0_succ 3)).
Defined.

Lemma stack_requests_are_answered_at_once_witness :
  global_ble_controller serving = Some 0%nat /\
  exists w1, onConfirmPIN 0 999999 serving = Some (true, w1) /\
             observer_calls (trace w1) = [].
Proof.
  split; [reflexivity|].
  destruct (stack_requests_are_answered_at_once 0 0 999999 serving eq_refl)
    as (_ & _ & (w1 & Hcall & Hcalls & _) & _).
  exists w1. split; [exact Hcall|exact Hcalls].
Defined.

Lemma no_radio_does_not_start : ~ bluetooth_starts no_radio.
Proof. intros [H|[H _]]; discriminate H. Defined.

Lemma setup_halts_without_bluetooth_witness :
  ~ bluetooth_starts no_radio /\
  exists w', setup 0 2 one_sensor plain_factory 0 no_radio = Some w' /\
             global_ble_controller w' = None /\
             ble_mode (controllers w' 0) = 1 /\
             servers_created w' = 0%nat.
Proof.
  split; [exact no_radio_does_not_start|].
  destruct (setup_halts_without_bluetooth 0 2 one_sensor plain_factory 0 no_radio
              no_radio_does_not_start)
    as (w' & message & args & Hsetup & Hglobal & Hobject & _ & Hservers & _).
  exists w'. split; [exact Hsetup|]. split; [exact Hglobal|].
  split; [|exact Hservers]. rewrite Hobject. reflexivity.
Defined.

Lemma power_on_bluetooth_starts size : bluetooth_starts (power_on size).
Proof. right. repeat split. Defined.

Lemma first_setup_registers_controller_witness :
  global_ble_controller (power_on 4) = None /\
  bluetooth_starts (power_on 4) /\
  exists w', setup 0 2 one_sensor plain_factory 0 (power_on 4) = Some w' /\
             global_ble_controller w' = Some 0%nat /\
             ble_server (controllers w' 0) = Some 0%nat.
Proof.
  split; [reflexivity|]. split; [apply power_on_bluetooth_starts|].
  destruct (setup 0 2 one_sensor plain_factory 0 (power_on 4)) as [w'|] eqn:Hsetup;
    [|vm_compute in Hsetup; discriminate Hsetup].
  exists w'. split; [reflexivity|].
  destruct (first_setup_registers_controller 0 2 one_sensor plain_factory 0
              (power_on 4) w' eq_refl (power_on_bluetooth_starts 4) Hsetup)
    as (Hglobal & Hserver & _).
  split; [exact Hglobal|exact Hserver].
Defined.

Lemma wifi_only_exposes_no_component_witness :
  ble_mode_preference wifi_stored = Some 2 /\
  exists w', setup 0 2 one_sensor plain_factory 0 wifi_stored = Some w' /\
             ble_mode (controllers w' 0) = 2.
Proof.
  split; [reflexivity|].
  destruct (wifi_only_exposes_no_component 0 2 one_sensor plain_factory 0 wifi_stored
              eq_refl) as (w' & Hsetup & Hmode & _).
  exists w'. split; [exact Hsetup|exact Hmode].
Defined.

Lemma setup_keeps_configuration_witness :
  exists w', setup 0 2 one_sensor plain_factory 1 serving = Some w' /\
             same_configuration (controllers serving 1) (controllers w' 1) /\
             ble_mode_preference w' = None.
Proof.
  destruct (setup 0 2 one_sensor plain_factory 1 serving) as [w'|] eqn:Hsetup;
    [|vm_compute in Hsetup; discriminate Hsetup].
  exists w'. split; [reflexivity|].
  destruct (setup_keeps_configuration 0 2 one_sensor plain_factory 1 serving w' Hsetup)
    as (Hsame & _ & Hpref & _).
  split; [exact Hsame|exact Hpref].
Defined.

Lemma setup_honours_security_flag_witness :
  security_enabled (controllers unsecured 0) = false /\
  exists w', setup 0 2 one_sensor plain_factory 0 unsecured = Some w' /\
             emits (fun e => negb (is_security_call e)) unsecured w'.
Proof.
  split; [reflexivity|].
  destruct (setup 0 2 one_sensor plain_factory 0 unsecured) as [w'|] eqn:Hsetup;
    [|vm_compute in Hsetup; discriminate Hsetup].
  exists w'. split; [reflexivity|].
  exact (proj1 (setup_honours_security_flag 0 2 one_sensor plain_factory 0 unsecured w'
                  Hsetup) eq_refl).
Defined.
